(** * libisfj: an embeddable online-judge engine

    A shallow embedding of the Go package [isfj] (models.go, judger.go,
    runner.go, engine.go) and the properties of it that its specification
    states.

    Conventions of the embedding.
    - Go's fixed-width integers are [Z] with the wrap-around written out
      ([uint16], [uint32], [int64]); [int] is the 64-bit [int] of the
      linux/amd64 target the ptrace supervisor is written for.
    - A Go string is the list of the code points it holds ([gostring]);
      string literals of the source are written with [lit].
    - Indexing a slice out of range panics in Go: [index] and [modify_at]
      return [None] there, and the callers turn that into a [Panic].
    - What the operating system, the compiler, the child process and the
      script engine answer is not code of the package: it is passed in as
      a value ([RunEnv], [CompileHost], [LuaScript], [TaskHost]).
    - Code that runs under a lock is one atomic action of a small program
      type [Prog]; goroutines are interleaved by the step relation [step],
      and [run_schedule] runs them in a given order.
    - The definitions of the package come first, then the notions and the
      inputs that the statements use, then the properties. *)

From Stdlib Require Import ZArith String Ascii List Lia Bool.
From Stdlib Require DecimalString.
From stdpp Require Import base list relations.
Import ListNotations.

#[local] Set Warnings "-register-all".
#[local] Open Scope Z_scope.

(* ===================================================================== *)
(** * Machine integers, strings and slices *)
(* ===================================================================== *)

Definition uint16 (x : Z) : Z := x mod 2 ^ 16.
Definition uint32 (x : Z) : Z := x mod 2 ^ 32.
Definition uint64 (x : Z) : Z := x mod 2 ^ 64.
Definition int64 (x : Z) : Z := (x + 2 ^ 63) mod 2 ^ 64 - 2 ^ 63.

(** Code points.  *)
Definition rune := Z.
Definition gostring := list rune.

Definition lit (s : string) : gostring :=
  map (fun a => Z.of_N (N_of_ascii a)) (list_ascii_of_string s).

(** [fmt.Sprintf("%d", n)]. *)
Definition itoa (n : Z) : gostring :=
  lit (DecimalString.NilZero.string_of_int (Z.to_int n)).

(** [l[i]] for a Go [int] index: [None] stands for the run-time panic. *)
Definition index {A} (l : list A) (i : Z) : option A :=
  if i <? 0 then None else l !! Z.to_nat i.

(** [l[i] = f(l[i])] in place; [None] stands for the run-time panic. *)
Definition modify_at {A} (l : list A) (i : Z) (f : A -> A) : option (list A) :=
  match index l i with
  | Some x => Some (<[Z.to_nat i := f x]> l)
  | None => None
  end.

(** [len(l)] as a Go [int]. *)
Definition len {A} (l : list A) : Z := Z.of_nat (length l).

(** The run-time panics of the package, by the place that raises them. *)
Inductive Panic :=
| CasesOutOfRange
| ResultsOutOfRange
| ResultsSliceBounds
| JudgersOutOfRange
| CommandOutOfRange
| NilCompiler
| NilProcess.

(** A computation that returns or panics. *)
Inductive result (A : Type) :=
| Ok (a : A)
| Panics (why : Panic).
Arguments Ok {A} a.
Arguments Panics {A} why.

#[export] Instance result_ret : MRet result := fun A a => Ok a.
#[export] Instance result_bind : MBind result := fun A B f m =>
  match m with
  | Ok a => f a
  | Panics why => Panics why
  end.

(** An access that panics with [why] when it is out of range. *)
Definition or_panic {A} (why : Panic) (o : option A) : result A :=
  match o with
  | Some a => Ok a
  | None => Panics why
  end.

(* ===================================================================== *)
(** * models.go *)
(* ===================================================================== *)

(** [type Status uint16] *)
Definition Status := Z.

Definition ST_WAITING : Status := 0.
Definition ST_RUNNING : Status := 1.
Definition ST_CANCELLED : Status := 2.
Definition ST_ACCEPTED : Status := 3.
Definition ST_COMPILATION_ERROR : Status := 4.
Definition ST_COMPILATION_SUCCESS : Status := 5.
Definition ST_WRONG_ANSWER : Status := 6.
Definition ST_RUNTIME_ERROR : Status := 7.
Definition ST_HOSTILE_CODE : Status := 8.
Definition ST_TIME_LIMIT_EXCEEDED : Status := 9.
Definition ST_MEMORY_LIMIT_EXCEEDED : Status := 10.
Definition ST_SYSTEM_ERROR : Status := 11.
Definition ST_SKIPPED : Status := 12.
Definition ST_MAX : Status := ST_SKIPPED.

(** [Status.Ident]: the [switch] is tried case by case; falling out of it
    reaches [panic("All branches already covered.")], which is [None]. *)
Definition Ident (s : Status) : option gostring :=
  if s =? ST_WAITING then Some (lit "ST_WAITING")
  else if s =? ST_RUNNING then Some (lit "ST_RUNNING")
  else if s =? ST_CANCELLED then Some (lit "ST_CANCELLED")
  else if s =? ST_ACCEPTED then Some (lit "ST_ACCEPTED")
  else if s =? ST_COMPILATION_ERROR then Some (lit "ST_COMPILATION_ERROR")
  else if s =? ST_COMPILATION_SUCCESS then Some (lit "ST_COMPILATION_SUCCESS")
  else if s =? ST_WRONG_ANSWER then Some (lit "ST_WRONG_ANSWER")
  else if s =? ST_RUNTIME_ERROR then Some (lit "ST_RUNTIME_ERROR")
  else if s =? ST_HOSTILE_CODE then Some (lit "ST_HOSTILE_CODE")
  else if s =? ST_TIME_LIMIT_EXCEEDED then Some (lit "ST_TIME_LIMIT_EXCEEDED")
  else if s =? ST_MEMORY_LIMIT_EXCEEDED then Some (lit "ST_MEMORY_LIMIT_EXCEEDED")
  else if s =? ST_SYSTEM_ERROR then Some (lit "ST_SYSTEM_ERROR")
  else if s =? ST_SKIPPED then Some (lit "ST_SKIPPED")
  else None.

(** [Status.String], same shape. *)
Definition String_ (s : Status) : option gostring :=
  if s =? ST_WAITING then Some (lit "Waiting")
  else if s =? ST_RUNNING then Some (lit "Running")
  else if s =? ST_CANCELLED then Some (lit "Cancelled")
  else if s =? ST_ACCEPTED then Some (lit "Accepted")
  else if s =? ST_COMPILATION_ERROR then Some (lit "Compilation Error")
  else if s =? ST_COMPILATION_SUCCESS then Some (lit "Compilation Success")
  else if s =? ST_WRONG_ANSWER then Some (lit "Wrong Answer")
  else if s =? ST_RUNTIME_ERROR then Some (lit "Runtime Error")
  else if s =? ST_HOSTILE_CODE then Some (lit "Hostile Code")
  else if s =? ST_TIME_LIMIT_EXCEEDED then Some (lit "Time Limit Exceeded")
  else if s =? ST_MEMORY_LIMIT_EXCEEDED then Some (lit "Memory Limit Exceeded")
  else if s =? ST_SYSTEM_ERROR then Some (lit "System Error")
  else if s =? ST_SKIPPED then Some (lit "Skipped")
  else None.

(** [type JudgeMode uint16] *)
Definition JudgeMode := Z.

Definition ModeBits (m : JudgeMode) : JudgeMode := Z.land m 0x00ff.

Definition JudgerId (m : JudgeMode) : Z := Z.shiftr (Z.land m 0xff00) 8.

Definition J_LAX : JudgeMode := 0.
Definition J_STRICT : JudgeMode := 1.
Definition J_SPECIAL : JudgeMode := 2.

(** [JudgeMode(judger << 8) + J_SPECIAL]: the shift is on a 64-bit [int],
    the conversion keeps the low 16 bits, the sum is a [uint16] sum. *)
Definition MakeSpecialJudgeMode (judger : Z) : JudgeMode :=
  uint16 (uint16 (int64 (Z.shiftl judger 8)) + J_SPECIAL).

(** runner.go's [Limits] and [Usages] ([uint64] fields). *)
Record Limits := mkLimits {
  Limits_Time : Z;
  Limits_StackMemory : Z;
  Limits_HeapMemory : Z }.

Record Usages := mkUsages {
  Usages_Time : Z;
  Usages_Memory : Z }.

Record Case := mkCase {
  Case_Stdin : gostring;
  Case_Stdout : gostring;
  Case_Args : list gostring;
  Case_Limits : Limits;
  Case_Points : Z }.

Record CaseResult := mkCaseResult {
  Result_Status : Status;
  Result_Usages : Usages;
  Result_Points : Z;
  Result_Extra : gostring }.

Record JobInit := mkJobInit {
  Init_Code : gostring;
  Init_Lang : gostring;
  Init_Needle : gostring;
  Init_Mode : JudgeMode;
  Init_Cases : list Case;
  Init_Groups : option (list (list Z)) }.

(** [Groups] is a slice that the code tests against [nil]: [None] is the
    nil slice.  [Updated] is a time stamp, here a number. *)
Record Job := mkJob {
  Job_Code : gostring;
  Job_Lang : gostring;
  Job_Needle : gostring;
  Job_Status : Status;
  Job_Mode : JudgeMode;
  Job_Cases : list Case;
  Job_Groups : option (list (list Z));
  Job_Results : list CaseResult;
  Job_Updated : Z }.

(** The zero value of [CaseResult], which [make] fills the slice with. *)
Definition zeroResult : CaseResult :=
  mkCaseResult 0 (mkUsages 0 0) 0 [].

Definition NewJob (init : JobInit) (now : Z) : Job :=
  {| Job_Code := Init_Code init;
     Job_Lang := Init_Lang init;
     Job_Needle := Init_Needle init;
     Job_Status := ST_WAITING;
     Job_Mode := Init_Mode init;
     Job_Cases := Init_Cases init;
     Job_Groups := Init_Groups init;
     Job_Results := replicate (S (length (Init_Cases init))) zeroResult;
     Job_Updated := now |}.

Definition Finished (j : Job) : bool :=
  negb (Job_Status j =? ST_WAITING) && negb (Job_Status j =? ST_RUNNING).

Definition set_Job_Status (j : Job) (s : Status) : Job :=
  {| Job_Code := Job_Code j; Job_Lang := Job_Lang j; Job_Needle := Job_Needle j;
     Job_Status := s; Job_Mode := Job_Mode j; Job_Cases := Job_Cases j;
     Job_Groups := Job_Groups j; Job_Results := Job_Results j;
     Job_Updated := Job_Updated j |}.

Definition set_Job_Results (j : Job) (rs : list CaseResult) : Job :=
  {| Job_Code := Job_Code j; Job_Lang := Job_Lang j; Job_Needle := Job_Needle j;
     Job_Status := Job_Status j; Job_Mode := Job_Mode j; Job_Cases := Job_Cases j;
     Job_Groups := Job_Groups j; Job_Results := rs;
     Job_Updated := Job_Updated j |}.

Definition set_Job_Updated (j : Job) (t : Z) : Job :=
  {| Job_Code := Job_Code j; Job_Lang := Job_Lang j; Job_Needle := Job_Needle j;
     Job_Status := Job_Status j; Job_Mode := Job_Mode j; Job_Cases := Job_Cases j;
     Job_Groups := Job_Groups j; Job_Results := Job_Results j;
     Job_Updated := t |}.

Definition set_Result_Status (r : CaseResult) (s : Status) : CaseResult :=
  mkCaseResult s (Result_Usages r) (Result_Points r) (Result_Extra r).

Definition set_Result_Usages (r : CaseResult) (u : Usages) : CaseResult :=
  mkCaseResult (Result_Status r) u (Result_Points r) (Result_Extra r).

Definition set_Result_Points (r : CaseResult) (p : Z) : CaseResult :=
  mkCaseResult (Result_Status r) (Result_Usages r) p (Result_Extra r).

Definition set_Result_Extra (r : CaseResult) (e : gostring) : CaseResult :=
  mkCaseResult (Result_Status r) (Result_Usages r) (Result_Points r) e.

(* ===================================================================== *)
(** * judger.go *)
(* ===================================================================== *)

(** [unicode.IsSpace]: the Latin-1 switch, then the White_Space table. *)
Definition IsSpace (r : rune) : bool :=
  if r <=? 0xFF then
    (r =? 9) || (r =? 10) || (r =? 11) || (r =? 12) || (r =? 13) || (r =? 32)
    || (r =? 0x85) || (r =? 0xA0)
  else
    (r =? 0x1680) || ((0x2000 <=? r) && (r <=? 0x200a)) || (r =? 0x2028)
    || (r =? 0x2029) || (r =? 0x202f) || (r =? 0x205f) || (r =? 0x3000).

Fixpoint TrimLeftFunc (f : rune -> bool) (s : gostring) : gostring :=
  match s with
  | [] => []
  | c :: r => if f c then TrimLeftFunc f r else s
  end.

Definition TrimRightFunc (f : rune -> bool) (s : gostring) : gostring :=
  rev (TrimLeftFunc f (rev s)).

(** [strings.TrimSpace] *)
Definition TrimSpace (s : gostring) : gostring :=
  TrimRightFunc IsSpace (TrimLeftFunc IsSpace s).

Definition newline : rune := 10.

(** [strings.Split(s, sep)] for a separator of one character: the pieces
    between the separators, so one piece more than there are separators. *)
Fixpoint Split (s : gostring) (sep : rune) : list gostring :=
  match s with
  | [] => [[]]
  | c :: r =>
      if c =? sep then [] :: Split r sep
      else match Split r sep with
           | l :: ls => (c :: l) :: ls
           | [] => [[c]]
           end
  end.

(** [for i := 0; i < len(lines); i++ { lines[i] = strings.TrimSpace(lines[i]) }]
    with [n] iterations left. *)
Fixpoint trim_loop (n : nat) (i : nat) (lines : list gostring) : list gostring :=
  match n with
  | O => lines
  | S n' =>
      match lines !! i with
      | Some l => trim_loop n' (S i) (<[i := TrimSpace l]> lines)
      | None => lines
      end
  end.

(** [slices.DeleteFunc(lines, del)] keeps, in order, what [del] rejects. *)
Definition DeleteFunc {A} (l : list A) (del : A -> bool) : list A :=
  List.filter (fun x => negb (del x)) l.

Definition splitLinesAndTrim (s : gostring) : list gostring :=
  let lines := Split s newline in
  let lines := trim_loop (length lines) 0 lines in
  DeleteFunc lines (fun line => len line =? 0).

(** [for i := 0; i < n; i++ { if gotLines[i] != expectedLines[i] { return false } }]
    with [n] iterations left. *)
Fixpoint compare_loop (n : nat) (i : nat) (gotLines expectedLines : list gostring) : bool :=
  match n with
  | O => true
  | S n' =>
      match gotLines !! i, expectedLines !! i with
      | Some a, Some b =>
          if bool_decide (a = b) then compare_loop n' (S i) gotLines expectedLines
          else false
      | _, _ => false
      end
  end.

Definition LaxJudge (got expected : gostring) : bool :=
  let gotLines := splitLinesAndTrim got in
  let expectedLines := splitLinesAndTrim expected in
  let n := length gotLines in
  if negb (n =? length expectedLines)%nat then false
  else compare_loop n 0 gotLines expectedLines.

Definition StrictJudge (got expected : gostring) : bool :=
  bool_decide (got = expected).

(** The words of the specification for the lax judger: split both sides on
    line terminators, trim each line, drop empty lines. *)
Definition lax_lines (s : gostring) : list gostring :=
  List.filter (fun l => negb (bool_decide (l = []))) (map TrimSpace (Split s newline)).

(** [type SpecialJudger interface]: [Clone] answers [None] when it returns
    an error. *)
Class SpecialJudger (J : Type) := {
  Judge : J -> gostring -> gostring -> gostring -> Status;
  Clone : J -> option J }.

(** An interface value: a dynamic type with its methods and a value. *)
Record AnyJudger := mkAnyJudger {
  judger_type : Type;
  judger_methods : SpecialJudger judger_type;
  judger_value : judger_type }.

Definition AnyJudger_Clone (j : AnyJudger) : option AnyJudger :=
  match @Clone _ (judger_methods j) (judger_value j) with
  | Some v => Some (mkAnyJudger (judger_type j) (judger_methods j) v)
  | None => None
  end.

Definition AnyJudger_Judge (j : AnyJudger) (got expected tempDir : gostring) : Status :=
  @Judge _ (judger_methods j) (judger_value j) got expected tempDir.

(** What the host answers to one call of [ExternalJudger.Judge]. *)
Record ExternalHost := mkExternalHost {
  write_got_err : bool;
  write_expected_err : bool;
  execute_err : bool;
  exit_code : Z }.

Record ExternalJudger := mkExternalJudger {
  External_host : gostring -> gostring -> gostring -> ExternalHost;
  External_clone_err : bool }.

Definition ExternalJudger_Judge (s : ExternalJudger) (got expected tempDir : gostring) : Status :=
  let h := External_host s got expected tempDir in
  if write_got_err h then ST_SYSTEM_ERROR
  else if write_expected_err h then ST_SYSTEM_ERROR
  else if execute_err h then ST_SYSTEM_ERROR
  else if exit_code h =? 0 then ST_ACCEPTED
  else ST_WRONG_ANSWER.

#[export] Instance ExternalJudger_SpecialJudger : SpecialJudger ExternalJudger := {
  Judge := ExternalJudger_Judge;
  Clone s := if External_clone_err s then None else Some s }.

(** What the embedded Lua engine answers for the script of a [LuaJudger]:
    whether [DoString] fails, whether the global [judge] is a function, and
    what the protected call leaves on the stack: [None] for an error, else
    the number [lua.LVAsNumber] reads there, taken to be integral. *)
Record LuaScript := mkLuaScript {
  DoString_err : bool;
  judge_is_function : bool;
  call_judge : gostring -> gostring -> gostring -> option Z;
  open_libs_err : bool }.

Record LuaJudger := mkLuaJudger {
  Lua_Code : gostring;
  Lua_state : LuaScript }.

(** [Status(code)] keeps the low 16 bits of the number. *)
Definition LuaJudger_Judge (l : LuaJudger) (got expected tempDir : gostring) : Status :=
  if DoString_err (Lua_state l) then ST_SYSTEM_ERROR
  else if negb (judge_is_function (Lua_state l)) then ST_SYSTEM_ERROR
  else match call_judge (Lua_state l) got expected tempDir with
       | None => ST_SYSTEM_ERROR
       | Some code => uint16 code
       end.

#[export] Instance LuaJudger_SpecialJudger : SpecialJudger LuaJudger := {
  Judge := LuaJudger_Judge;
  Clone l := if open_libs_err (Lua_state l) then None else Some l }.

(* ===================================================================== *)
(** * runner.go *)
(* ===================================================================== *)

Definition IsAllUnlimited (u : Limits) : bool :=
  (Limits_Time u =? 0) && (Limits_StackMemory u =? 0) && (Limits_HeapMemory u =? 0).

Record RunnerInput := mkRunnerInput {
  Input_Executable : gostring;
  Input_Arguments : list gostring;
  Input_NeedleLib : gostring;
  Input_Stdin : gostring;
  Input_Limits : Limits }.

Record RunnerOutput := mkRunnerOutput {
  Output_Status : Status;
  Output_Stdout : gostring;
  Output_Usages : Usages;
  Output_Deduction : Z;
  Output_ExitInfo : Z }.

(** [unix.WaitStatus] (a [uint32]) and its methods. *)
Definition Exited (w : Z) : bool := Z.land w 0x7F =? 0x00.
Definition Signaled (w : Z) : bool :=
  negb (Z.land w 0x7F =? 0x7F) && negb (Z.land w 0x7F =? 0x00).
Definition ExitStatus (w : Z) : Z :=
  if negb (Exited w) then -1 else Z.land (Z.shiftr w 8) 0xFF.
Definition Signal (w : Z) : Z :=
  if negb (Signaled w) then -1 else Z.land w 0x7F.

Definition SIGTRAP : Z := 5.
Definition PTRACE_EVENT_EXIT : Z := 6.
Definition PTRACE_EVENT_SECCOMP : Z := 7.

(** What [getMemoryUsages] returns, and the time elapsed since the spawn
    when it is read. *)
Record MemSample := mkMemSample {
  sample_stack : Z;
  sample_heap : Z;
  sample_err : bool;
  sample_elapsed : Z }.

(** What the kernel answers around one call of [unix.Wait4]: the pid it
    returns and the status the wrapper stores, what the memory sampling
    right after it reads (in the poll, and at a trace stop), what
    [ptraceGetSyscallInfo] reads, and what [io.ReadAll] on the child's
    output returns ([None] for an error). *)
Record WaitResult := mkWaitResult {
  wait_pid : Z;
  wait_status : Z;
  poll_sample : MemSample;
  stop_sample : MemSample;
  seccomp_Nr : Z;
  seccomp_RetData : Z;
  read_stdout : option gostring }.

(** The host as one call of [Run] sees it.  [start_process] is the
    [*os.Process] that [os.StartProcess] returns ([None] for [nil]) and
    [start_err] whether it returns an error. *)
Record RunEnv := mkRunEnv {
  pipe_stdin_err : bool;
  pipe_stdout_err : bool;
  start_process : option Z;
  start_err : bool;
  waits : list WaitResult }.

(** [Returned o]: the call returns [o].  [Panicked]: it panics.
    [Running]: the child is still supervised after the last answer of the
    host that is given. *)
Inductive RunResult :=
| Returned (o : RunnerOutput)
| Panicked
| Running.

(** [vforkExec] returns [process.Pid, err]: reading the field of a [nil]
    process panics. *)
Definition vforkExec (env : RunEnv) : option (Z * bool) :=
  match start_process env with
  | Some pid => Some (pid, start_err env)
  | None => None
  end.

(** The closure [updateUsages] of [Run], as the new value of [usages]. *)
Definition updateUsages (m : MemSample) (usages : Usages) : Usages :=
  if sample_err m then usages
  else mkUsages (uint64 (sample_elapsed m)) (uint64 (sample_stack m + sample_heap m)).

Definition system_error_output : RunnerOutput :=
  mkRunnerOutput ST_SYSTEM_ERROR [] (mkUsages 0 0) 0 0.

(** The supervision loop of [Run], one call of [Wait4] for each answer of
    the host.  With limits, an answer that returns no pid is one more turn
    of the inner polling loop. *)
Fixpoint supervise (limits : Limits) (ws : list WaitResult)
    (usages : Usages) (skipUsages : bool) (deduction : Z) : RunResult :=
  match ws with
  | [] => Running
  | w :: ws' =>
      let status := wait_status w in
      let classify (usages : Usages) : RunResult :=
        if Z.shiftr status 8 =? Z.lor SIGTRAP (Z.shiftl PTRACE_EVENT_SECCOMP 8) then
          let usages := updateUsages (stop_sample w) usages in
          if seccomp_RetData w =? 0 then
            Returned (mkRunnerOutput ST_HOSTILE_CODE [] usages 0 (int64 (seccomp_Nr w)))
          else
            supervise limits ws' usages skipUsages (uint32 (deduction + seccomp_RetData w))
        else if Z.shiftr status 8 =? Z.lor SIGTRAP (Z.shiftl PTRACE_EVENT_EXIT 8) then
          let usages := updateUsages (stop_sample w) usages in
          supervise limits ws' usages true deduction
        else if Exited status then
          match read_stdout w with
          | None => Returned system_error_output
          | Some stdout =>
              Returned (mkRunnerOutput ST_ACCEPTED stdout usages deduction (ExitStatus status))
          end
        else if Signaled status then
          Returned (mkRunnerOutput ST_RUNTIME_ERROR [] usages 0 (Signal status))
        else supervise limits ws' usages skipUsages deduction in
      if IsAllUnlimited limits then classify usages
      else
        let usages' := if skipUsages then usages else updateUsages (poll_sample w) usages in
        let stack := sample_stack (poll_sample w) in
        let heap := sample_heap (poll_sample w) in
        if negb skipUsages && (0 <? Limits_Time limits)
           && (Limits_Time limits <? Usages_Time usages') then
          Returned (mkRunnerOutput ST_TIME_LIMIT_EXCEEDED [] usages' 0 0)
        else if negb skipUsages
           && (((0 <? Limits_StackMemory limits) && (Limits_StackMemory limits <? stack))
               || ((0 <? Limits_HeapMemory limits) && (Limits_HeapMemory limits <? heap))) then
          Returned (mkRunnerOutput ST_MEMORY_LIMIT_EXCEEDED [] usages' 0 0)
        else if 0 <? wait_pid w then classify usages'
        else supervise limits ws' usages' skipUsages deduction
  end.

(** [Run].  [waits] holds the answers to the calls of [Wait4] in the
    supervision loop; the one before the loop, for the initial stop, stores
    nothing that [Run] reads. *)
Definition Run (input : RunnerInput) (env : RunEnv) : RunResult :=
  if pipe_stdin_err env then Returned system_error_output
  else if pipe_stdout_err env then Returned system_error_output
  else match vforkExec env with
       | None => Panicked
       | Some (pid, err) =>
           if err then Returned system_error_output
           else supervise (Input_Limits input) (waits env) (mkUsages 0 0) false 0
       end.

(* ===================================================================== *)
(** * compiler.go *)
(* ===================================================================== *)

(** How the command of a compiler ends: [CombinedOutput] returns no error,
    an [*exec.ExitError], or another error. *)
Inductive CommandEnd :=
| CommandOk
| CommandExitError
| CommandOtherError.

(** What the host answers to one call of [Compiler.Compile]. *)
Record CompileHost := mkCompileHost {
  write_source_err : bool;
  outputName : gostring;
  template_err : bool;
  command_args : list gostring;
  command_output : gostring;
  command_end : CommandEnd }.

(** A compiler is its command template. *)
Record Compiler := mkCompiler { Compiler_command : gostring }.

(** [Compile] on the [*Compiler] that the map of the engine holds for the
    language ([None] is the nil pointer of a language with no compiler).
    It panics on a nil receiver and on [args[0]] of an empty command. *)
Definition Compile (c : option Compiler) (h : CompileHost) : result (Status * gostring) :=
  if write_source_err h then Ok (ST_SYSTEM_ERROR, [])
  else match c with
       | None => Panics NilCompiler
       | Some _ =>
           if template_err h then Ok (ST_SYSTEM_ERROR, [])
           else match command_args h with
                | [] => Panics CommandOutOfRange
                | _ :: _ =>
                    match command_end h with
                    | CommandExitError => Ok (ST_COMPILATION_ERROR, command_output h)
                    | CommandOtherError => Ok (ST_SYSTEM_ERROR, [])
                    | CommandOk => Ok (ST_COMPILATION_SUCCESS, outputName h)
                    end
                end
       end.

(* ===================================================================== *)
(** * engine.go *)
(* ===================================================================== *)

(** What goroutines share: the engine's ledger of task ids and counter
    (under the engine's lock) and, for the task looked at, its job and
    listener (under the task's lock).  [clock] is what [time.Now()]
    answers next; [delivered] lists the jobs handed to the listener, the
    oldest first. *)
Record Shared := mkShared {
  taskIds : list Z;
  counter : Z;
  job : Job;
  subscribed : bool;
  clock : Z;
  delivered : list Job }.

Definition set_taskIds (s : Shared) (ids : list Z) : Shared :=
  mkShared ids (counter s) (job s) (subscribed s) (clock s) (delivered s).

(** A goroutine: finished, crashed by a panic, blocked for ever, about to
    run a piece of code that no other goroutine of the model can cut
    (a locked region, or reads of fields that are never written), or
    waiting on a [sync.WaitGroup] for the goroutines it started. *)
Inductive Prog : Type :=
| Ret
| Crash (why : Panic)
| Hang
| Atomic (act : Shared -> Shared * Prog)
| Par (ts : list Prog) (k : Prog).

(** One step of a goroutine.  A panic in a goroutine takes the program
    down with it. *)
Inductive step : Prog * Shared -> Prog * Shared -> Prop :=
| step_atomic act s :
    step (Atomic act, s) ((act s).2, (act s).1)
| step_par_child ts k (i : nat) t t' s s' :
    ts !! i = Some t ->
    step (t, s) (t', s') ->
    step (Par ts k, s) (Par (<[i := t']> ts) k, s')
| step_par_crash ts k why s :
    Crash why ∈ ts ->
    step (Par ts k, s) (Crash why, s)
| step_par_join ts k s :
    Forall (fun t => t = Ret) ts ->
    step (Par ts k, s) (k, s).

(** A goroutine run alone up to its end, or to where it forks. *)
Fixpoint exec (p : Prog) (s : Shared) : Prog * Shared :=
  match p with
  | Atomic act => let '(s', p') := act s in exec p' s'
  | _ => (p, s)
  end.

(** [slices.Index]: the first index of [v], or -1. *)
Fixpoint Index_from (l : list Z) (v : Z) (i : Z) : Z :=
  match l with
  | [] => -1
  | x :: r => if x =? v then i else Index_from r v (i + 1)
  end.

Definition slices_Index (l : list Z) (v : Z) : Z := Index_from l v 0.

(** [slices.Delete(l, i, j)] for [0 <= i <= j <= len(l)]. *)
Definition slices_Delete (l : list Z) (i j : Z) : list Z :=
  take (Z.to_nat i) l ++ drop (Z.to_nat j) l.

(** [slices.Contains] *)
Definition slices_Contains (l : list Z) (v : Z) : bool := 0 <=? slices_Index l v.

(** [Engine.Schedule], under the lock of the engine: the id of the new
    task and the state once a worker has received the task from the queue
    (the queue has no buffer, so [Schedule] returns only then). *)
Definition Schedule (j : Job) (s : Shared) : Z * Shared :=
  (counter s,
   mkShared (taskIds s ++ [counter s]) (uint64 (counter s + 1)) j false (clock s) []).

Definition ContainsTask (id : Z) (s : Shared) : bool :=
  slices_Contains (taskIds s) id.

Definition removeTask (id : Z) (s : Shared) : bool * Shared :=
  let index := slices_Index (taskIds s) id in
  (0 <=? index,
   if 0 <=? index then set_taskIds s (slices_Delete (taskIds s) index (index + 1))
   else s).

(** [Task.SnapJob]: a copy of the job, taken under the lock of the task.
    (In Go the copy shares the array of its results with the task; its
    status and the other fields are its own.) *)
Definition SnapJob (s : Shared) : Job := job s.

(** [Task.Subscribe] *)
Definition Subscribe (s : Shared) : Shared :=
  mkShared (taskIds s) (counter s) (job s) true (clock s) (delivered s).

(** The end of [Task.update], once its closure has left the job [j]: the
    time stamp is set, and the listener, if any, is started on a copy of
    the job as it is then. *)
Definition after_update (s : Shared) (j : Job) : Shared :=
  let j' := set_Job_Updated j (clock s) in
  mkShared (taskIds s) (counter s) j' (subscribed s) (clock s + 1)
    (if subscribed s then delivered s ++ [j'] else delivered s).

(** [Task.update], then [k]: the closure [f] and the rest run under the
    lock of the task. *)
Definition update (f : Job -> result Job) (k : Prog) : Prog :=
  Atomic (fun s =>
    match f (job s) with
    | Panics why => (s, Crash why)
    | Ok j => (after_update s j, k)
    end).

(** [task.job.Results[i] = f(task.job.Results[i])] *)
Definition set_result (j : Job) (i : Z) (f : CaseResult -> CaseResult) : result Job :=
  rs ← or_panic ResultsOutOfRange (modify_at (Job_Results j) i f);
  Ok (set_Job_Results j rs).

(** [task.job.Cases[i]] *)
Definition case_at (j : Job) (i : Z) : result Case :=
  or_panic CasesOutOfRange (index (Job_Cases j) i).

(** [for i := i0; i < len(task.job.Results); i++ { task.job.Results[i].Status = st }]
    with [n] iterations left. *)
Fixpoint mark_loop (n : nat) (i : Z) (st : Status) (j : Job) : result Job :=
  match n with
  | O => Ok j
  | S n' =>
      j' ← set_result j i (fun r => set_Result_Status r st);
      mark_loop n' (int64 (i + 1)) st j'
  end.

(** [Task.cancel] *)
Definition cancel (k : Prog) : Prog :=
  update (fun j =>
    let j := set_Job_Status j ST_CANCELLED in
    mark_loop (length (Job_Results j)) 0 ST_CANCELLED j) k.

(** [Engine.CancelTask], then [k]: the id is looked up and removed in one
    locked region of [removeTask]. *)
Definition CancelTask (id : Z) (k : Prog) : Prog :=
  Atomic (fun s =>
    let '(found, s') := removeTask id s in
    (s', if found then cancel k else k)).

(** A worker: its clones of the judgers, and the compilers of its engine
    (a map from languages, the entry that was added last first). *)
Record worker := mkWorker {
  judgers : list AnyJudger;
  compilers : list (gostring * Compiler) }.

Fixpoint compilers_lookup (m : list (gostring * Compiler)) (lang : gostring) : option Compiler :=
  match m with
  | [] => None
  | (name, c) :: m' => if bool_decide (name = lang) then Some c else compilers_lookup m' lang
  end.

(** [Engine.AddCompiler] *)
Definition AddCompiler (m : list (gostring * Compiler)) (name : gostring) (c : Compiler)
    : list (gostring * Compiler) :=
  (name, c) :: m.

(** [Engine.AddJudger]: the id and the new list. *)
Definition AddJudger (js : list AnyJudger) (j : AnyJudger) : Z * list AnyJudger :=
  (len js, js ++ [j]).

(** What the host answers while one task runs: to the compilation, and to
    the call of [Run] that the goroutine number [u] of the dispatch makes
    at the position [n] of its sequence. *)
Record TaskHost := mkTaskHost {
  compile_host : CompileHost;
  run_env : nat -> nat -> RunEnv }.

(** The second update of [runOne]: what [Run] reported. *)
Definition record_run (i : Z) (output : RunnerOutput) (j : Job) : result Job :=
  j ← (if negb (Output_Status output =? ST_ACCEPTED)
       then set_result j (int64 (i + 1)) (fun r => set_Result_Status r (Output_Status output))
       else Ok j);
  j ← set_result j (int64 (i + 1)) (fun r => set_Result_Usages r (Output_Usages output));
  if Output_Status output =? ST_RUNTIME_ERROR then
    set_result j (int64 (i + 1)) (fun r =>
      set_Result_Extra r (lit "Process terminated by signal " ++ itoa (Output_ExitInfo output)))
  else if Output_Status output =? ST_HOSTILE_CODE then
    set_result j (int64 (i + 1)) (fun r =>
      set_Result_Extra r
        (lit "Process killed due to malicious syscall " ++ itoa (Output_ExitInfo output)))
  else Ok j.

(** The [switch] of [runOne] on the mode of the job; a mode that no case
    matches leaves [status] at its zero value. *)
Definition judge_case (w : worker) (tempDir : gostring) (j : Job) (i : Z)
    (output : RunnerOutput) : result Status :=
  if ModeBits (Job_Mode j) =? J_LAX then
    c ← case_at j i;
    Ok (if LaxJudge (Output_Stdout output) (Case_Stdout c)
        then ST_ACCEPTED else ST_WRONG_ANSWER)
  else if ModeBits (Job_Mode j) =? J_STRICT then
    c ← case_at j i;
    Ok (if StrictJudge (Output_Stdout output) (Case_Stdout c)
        then ST_ACCEPTED else ST_WRONG_ANSWER)
  else if ModeBits (Job_Mode j) =? J_SPECIAL then
    proto ← or_panic JudgersOutOfRange (index (judgers w) (JudgerId (Job_Mode j)));
    match AnyJudger_Clone proto with
    | None => Ok ST_SYSTEM_ERROR
    | Some judger =>
        c ← case_at j i;
        Ok (AnyJudger_Judge judger (Output_Stdout output) (Case_Stdout c) tempDir)
    end
  else Ok 0.

(** The last update of [runOne]: the verdict and the points. *)
Definition record_verdict (i : Z) (output : RunnerOutput) (status : Status) (j : Job)
    : result Job :=
  j ← set_result j (int64 (i + 1)) (fun r => set_Result_Status r status);
  if status =? ST_ACCEPTED then
    c ← case_at j i;
    set_result j (int64 (i + 1)) (fun r =>
      set_Result_Points r (Z.max (int64 (Case_Points c - Output_Deduction output)) 0))
  else Ok j.

(** [worker.runOne], then [k]. *)
Definition runOne (w : worker) (tempDir executable : gostring) (i : Z) (env : RunEnv)
    (k : Prog) : Prog :=
  Atomic (fun s =>
    (s,
     match case_at (job s) i with
     | Panics why => Crash why
     | Ok c =>
         let input :=
           mkRunnerInput executable (Case_Args c) (Job_Needle (job s))
             (Case_Stdin c) (Case_Limits c) in
         update (fun j => set_result j (int64 (i + 1)) (fun r => set_Result_Status r ST_RUNNING))
           match Run input env with
           | Panicked => Crash NilProcess
           | Running => Hang
           | Returned output =>
               update (record_run i output)
                 (if Output_Status output =? ST_ACCEPTED then
                    Atomic (fun s =>
                      (s,
                       match judge_case w tempDir (job s) i output with
                       | Panics why => Crash why
                       | Ok status => update (record_verdict i output status) k
                       end))
                  else k)
           end
     end)).

(** [worker.runUnpacked]: one goroutine for each case, then [k] when all
    are done.  (Each goroutine has the [i] of its own turn of the loop.) *)
Definition runUnpacked (w : worker) (tempDir executable : gostring)
    (h : nat -> nat -> RunEnv) (k : Prog) : Prog :=
  Atomic (fun s =>
    (s,
     Par (map (fun i : nat => runOne w tempDir executable (Z.of_nat i) (h i 0%nat) Ret)
            (seq 0 (length (Job_Cases (job s)))))
         k)).

(** [for _, i := range group { w.runOne(task, executable, i-1) }] from
    the position [n] on. *)
Fixpoint run_group (w : worker) (tempDir executable : gostring) (group : list Z)
    (h : nat -> RunEnv) (n : nat) (k : Prog) : Prog :=
  match group with
  | [] => k
  | i :: rest =>
      runOne w tempDir executable (int64 (i - 1)) (h n)
        (run_group w tempDir executable rest h (S n) k)
  end.

(** [worker.runPacked]: one goroutine for each group. *)
Definition runPacked (w : worker) (tempDir executable : gostring)
    (h : nat -> nat -> RunEnv) (k : Prog) : Prog :=
  Atomic (fun s =>
    (s,
     match Job_Groups (job s) with
     | Some groups =>
         Par (imap (fun u group => run_group w tempDir executable group (h u) 0 Ret) groups) k
     | None => Par [] k
     end)).

(** The loop of the last update of [run]: the job, and whether the loop
    broke out. *)
Fixpoint aggregate_loop (results : list CaseResult) (j : Job) : Job * bool :=
  match results with
  | [] => (j, false)
  | result :: rest =>
      if negb (Result_Status result =? ST_ACCEPTED)
      then (set_Job_Status j (Result_Status result), true)
      else aggregate_loop rest j
  end.

(** The last update of [run]; [Results[1:]] of an empty slice panics. *)
Definition aggregate (j : Job) : result Job :=
  match Job_Results j with
  | [] => Panics ResultsSliceBounds
  | _ :: rest =>
      let '(j', broke) := aggregate_loop rest j in
      Ok (if negb broke then set_Job_Status j' ST_ACCEPTED else j')
  end.

(** The update of [run] after a compilation that did not succeed. *)
Definition compile_failed (status : Status) (output : gostring) (j : Job) : result Job :=
  j ← set_result j 0 (fun r => set_Result_Extra r output);
  let j := set_Job_Status j status in
  mark_loop (length (Job_Results j)) 0 ST_SKIPPED j.

(** [worker.run], then [k].  (The temporary folder is made and removed on
    the host; the model keeps no file system.) *)
Definition run (w : worker) (tempDir : gostring) (h : TaskHost) (k : Prog) : Prog :=
  update (fun j => Ok (set_Job_Status j ST_RUNNING))
    (Atomic (fun s =>
       (s,
        match Compile (compilers_lookup (compilers w) (Job_Lang (job s))) (compile_host h) with
        | Panics why => Crash why
        | Ok (status, output) =>
            update (fun j => set_result j 0 (fun r => set_Result_Status r status))
              (if negb (status =? ST_COMPILATION_SUCCESS) then
                 update (compile_failed status output) k
               else
                 Atomic (fun s =>
                   (s,
                    match Job_Groups (job s) with
                    | Some _ => runPacked w tempDir output (run_env h) (update aggregate k)
                    | None => runUnpacked w tempDir output (run_env h) (update aggregate k)
                    end)))
        end))).

(** One turn of [worker.poll] for a task taken from the queue, then [k]:
    [ContainsTask] and [removeTask] each take the lock of the engine, one
    after the other, and what [removeTask] returns is dropped. *)
Definition poll_task (w : worker) (id : Z) (tempDir : gostring) (h : TaskHost) (k : Prog)
    : Prog :=
  Atomic (fun s =>
    (s,
     if ContainsTask id s then
       Atomic (fun s => ((removeTask id s).2, run w tempDir h k))
     else k)).

Definition is_Ret (p : Prog) : bool :=
  match p with Ret => true | _ => false end.

Fixpoint first_crash (ts : list Prog) : option Panic :=
  match ts with
  | [] => None
  | Crash why :: _ => Some why
  | _ :: ts' => first_crash ts'
  end.

(** The step of the goroutine at [path] in the tree of waiting groups. *)
Fixpoint step_at (path : list nat) (p : Prog) (s : Shared) : option (Prog * Shared) :=
  match path, p with
  | [], Atomic act => Some ((act s).2, (act s).1)
  | [], Par ts k =>
      match first_crash ts with
      | Some why => Some (Crash why, s)
      | None => if forallb is_Ret ts then Some (k, s) else None
      end
  | i :: path', Par ts k =>
      match ts !! i with
      | Some t =>
          match step_at path' t s with
          | Some (t', s') => Some (Par (<[i := t']> ts) k, s')
          | None => None
          end
      | None => None
      end
  | _, _ => None
  end.

(** A schedule: the goroutine that makes each step. *)
Fixpoint run_schedule (sched : list (list nat)) (p : Prog) (s : Shared) : option (Prog * Shared) :=
  match sched with
  | [] => Some (p, s)
  | path :: rest =>
      match step_at path p s with
      | Some (p', s') => run_schedule rest p' s'
      | None => None
      end
  end.

(* ===================================================================== *)
(** * runner.go: the memory of the child *)
(* ===================================================================== *)

(** [strings.CutPrefix] *)
Fixpoint strip_prefix (s prefix : gostring) : option gostring :=
  match prefix, s with
  | [], _ => Some s
  | p :: prefix', c :: s' => if c =? p then strip_prefix s' prefix' else None
  | _ :: _, [] => None
  end.

Definition CutPrefix (s prefix : gostring) : gostring * bool :=
  match strip_prefix s prefix with
  | Some after => (after, true)
  | None => (s, false)
  end.

(** [strings.Cut(s, sep)] for a separator of one character: what is before
    the first separator, what is after it, and whether there is one. *)
Fixpoint Cut (s : gostring) (sep : rune) : gostring * gostring * bool :=
  match s with
  | [] => ([], [], false)
  | c :: r =>
      if c =? sep then ([], r, true)
      else let '(before, after, found) := Cut r sep in (c :: before, after, found)
  end.

Definition MaxUint64 : Z := 2 ^ 64 - 1.

(** What the digit loop of [strconv.ParseUint] ends with: a syntax
    error, a range error, or the number. *)
Inductive Parsed :=
  | SyntaxError
  | RangeError
  | Number (n : Z).

(** The loop of [strconv.ParseUint(s, 10, 0)] over the characters, from
    the number [n] read so far.  The range is checked at each digit, so a
    number that is too large is reported before a later character that is
    not a digit is seen. *)
Fixpoint ParseUint_loop (s : gostring) (n : Z) : Parsed :=
  match s with
  | [] => Number n
  | c :: r =>
      if (48 <=? c) && (c <=? 57) then
        let d := c - 48 in
        if n >=? MaxUint64 / 10 + 1 then RangeError
        else
          let n10 := uint64 (n * 10) in
          let n1 := uint64 (n10 + d) in
          if (n1 <? n10) || (n1 >? MaxUint64) then RangeError
          else ParseUint_loop r n1
      else SyntaxError
  end.

Definition ParseUint (s : gostring) : Parsed :=
  match s with
  | [] => SyntaxError
  | _ :: _ => ParseUint_loop s 0
  end.

(** [strconv.ParseInt(s, 10, 0)], as the number it returns, the error
    dropped: 0 on a syntax error, the nearest bound of [int] on a range
    error. *)
Definition ParseInt (s : gostring) : Z :=
  match s with
  | [] => 0
  | c :: r =>
      let '(neg, s) :=
        if c =? 43 then (false, r) else if c =? 45 then (true, r) else (false, s) in
      match ParseUint s with
      | SyntaxError => 0
      | parsed =>
          let un := match parsed with Number n => n | _ => MaxUint64 end in
          let cutoff := 2 ^ 63 in
          if negb neg && (un >=? cutoff) then cutoff - 1
          else if neg && (un >? cutoff) then - cutoff
          else
            let n := int64 un in
            if neg : bool then int64 (- n) else n
      end
  end.

(** [strconv.Atoi], the error dropped.  Its short path for strings of
    fewer than 19 bytes returns the same number as [ParseInt]. *)
Definition Atoi (s : gostring) : Z := ParseInt s.

(** The number of bytes that a line of the status file gives after its
    prefix, in kB: [uint64(n * 1024)]. *)
Definition status_kB (rest : gostring) : Z :=
  let line := TrimSpace rest in
  let '(num, _, _) := Cut line 32 in
  let n := Atoi num in
  uint64 (int64 (n * 1024)).

(** The body of the loop of [getMemoryUsages] on one line, for the
    [stack] and the [heap] read so far. *)
Definition scan_line (acc : Z * Z) (line : gostring) : Z * Z :=
  let '(stack, heap) := acc in
  let '(line, ok) := CutPrefix line (lit "VmData:") in
  if ok then (stack, status_kB line)
  else
    let '(line, ok) := CutPrefix line (lit "VmStk:") in
    if ok then (status_kB line, heap)
    else (stack, heap).

(** The status file of the child as the scanner hands it over: whether it
    can be opened, its lines, and whether the scanner ends with an error. *)
Record StatusFile := mkStatusFile {
  open_err : bool;
  status_lines : list gostring;
  scan_err : bool }.

(** [getMemoryUsages]: the stack, the heap, and whether there is an
    error. *)
Definition getMemoryUsages (f : StatusFile) : Z * Z * bool :=
  if open_err f then (0, 0, true)
  else
    let '(stack, heap) := fold_left scan_line (status_lines f) (0, 0) in
    (stack, heap, scan_err f).

(* ===================================================================== *)
(** * engine.go: the workers *)
(* ===================================================================== *)

(** The loop of [newWorker] over the judgers of the engine, with the
    clones made so far: [None] when a clone fails. *)
Fixpoint clone_loop (rest : list AnyJudger) (judgers : list AnyJudger)
    : option (list AnyJudger) :=
  match rest with
  | [] => Some judgers
  | judger :: rest' =>
      match AnyJudger_Clone judger with
      | None => None
      | Some j => clone_loop rest' (judgers ++ [j])
      end
  end.

(** [Engine.newWorker]: [None] when it returns an error.  The worker
    keeps the clones it got; the compilers are those of its engine, which
    it reads when it runs a task. *)
Definition newWorker (e_judgers : list AnyJudger) (e_compilers : list (gostring * Compiler))
    : option worker :=
  match clone_loop e_judgers [] with
  | Some judgers => Some (mkWorker judgers e_compilers)
  | None => None
  end.

(* ===================================================================== *)
(** * judger.go: the names of temporary files *)
(* ===================================================================== *)

Definition candidates : gostring := lit "0123456789ABCDEFGHIJKLMNOPQRSTUVWXYZ".

(** [rand.Intn(n)] for [n > 0], from the number [raw] that the generator
    draws: a number from 0 to [n-1]. *)
Definition Intn (raw : Z) (n : Z) : Z := raw mod n.

(** [for i := 0; i < 8; i++ { s = append(s, candidates[rand.Intn(len(candidates))]) }]
    with [n] iterations left; [draws] gives the number drawn at each call
    of the generator, and [None] stands for the panic of an index out of
    range. *)
Fixpoint randName_loop (n : nat) (i : nat) (draws : nat -> Z) (s : gostring)
    : option gostring :=
  match n with
  | O => Some s
  | S n' =>
      match index candidates (Intn (draws i) (len candidates)) with
      | Some c => randName_loop n' (S i) draws (s ++ [c])
      | None => None
      end
  end.

Definition randName (draws : nat -> Z) (prefix : gostring) : option gostring :=
  match randName_loop 8 0 draws [] with
  | Some s => Some (prefix ++ s)
  | None => None
  end.

(* ===================================================================== *)
(** * Notions of the statements *)
(* ===================================================================== *)



(** The shape of a job that [NewJob] made for [n] cases. *)
Definition job_shape (n : Z) (s : Shared) : Prop :=
  len (Job_Cases (job s)) = n /\ len (Job_Results (job s)) = n + 1 /\ n + 1 < 2 ^ 63.

(** A goroutine that, from the states in [I] and whatever the other
    goroutines do within [I], never panics on an index of [Cases] or of
    [Results]. *)
Inductive in_bounds (I : Shared -> Prop) : Prog -> Prop :=
| in_bounds_Ret : in_bounds I Ret
| in_bounds_Hang : in_bounds I Hang
| in_bounds_Crash why :
    why <> CasesOutOfRange -> why <> ResultsOutOfRange -> in_bounds I (Crash why)
| in_bounds_Atomic act :
    (forall s, I s -> I (act s).1 /\ in_bounds I (act s).2) -> in_bounds I (Atomic act)
| in_bounds_Par ts k :
    Forall (in_bounds I) ts -> in_bounds I k -> in_bounds I (Par ts k).

(** A step on a job that keeps its cases and the length of its results,
    or panics for another reason than an index of these two. *)
Definition keeps_shape (j : Job) (m : result Job) : Prop :=
  match m with
  | Ok j' => Job_Cases j' = Job_Cases j /\ length (Job_Results j') = length (Job_Results j)
  | Panics why => why <> CasesOutOfRange /\ why <> ResultsOutOfRange
  end.

(** A string of white space. *)
Definition whitespace (w : gostring) : Prop := Forall (fun c => IsSpace c = true) w.

(** A place between [a] and [b] that is the start or the end of a line. *)
Definition line_edge (a b : gostring) : Prop :=
  a = [] \/ last a = Some newline \/ b = [] \/ head b = Some newline.

(* ===================================================================== *)
(** * Inputs for the examples *)
(* ===================================================================== *)

(** A script whose [judge] returns the number [code]. *)
Definition returning_script (code : Z) : LuaJudger :=
  mkLuaJudger (lit "function judge(got, expected) return CODE end")
    (mkLuaScript false true (fun _ _ _ => Some code) false).

(** A child that runs to its end with exit code 0 and prints [out]. *)
Definition no_sample : MemSample := mkMemSample 0 0 false 0.

Definition child_prints (out : gostring) : RunEnv :=
  mkRunEnv false false (Some 4242) false
    [mkWaitResult 4242 0 no_sample no_sample 0 0 (Some out)].

(** The case of the documentation: the sum of 1 and 2, for 10 points. *)
Definition sum_case : Case :=
  mkCase (lit "1 2") (lit "3") [] (mkLimits 0 0 0) 10.

Definition gcc_worker : worker :=
  mkWorker [] (AddCompiler [] (lit "c") (mkCompiler (lit "gcc -o {{ .Output }} -x c {{ .Source }}"))).

Definition compiles_to (exe : gostring) : CompileHost :=
  mkCompileHost false exe false [lit "gcc"] [] CommandOk.

Definition compile_error (diagnostic : gostring) : CompileHost :=
  mkCompileHost false (lit "/tmp/isfj/job_A/exe_B") false [lit "gcc"] diagnostic CommandExitError.

(** A job of two cases, scheduled on a fresh engine. *)
Definition two_sums : Job :=
  NewJob (mkJobInit (lit "int main() {}") (lit "c") (lit "/needle.so") J_LAX
            [sum_case; sum_case] None) 0.

Definition two_sums_scheduled : Shared :=
  (Schedule two_sums (mkShared [] 0 two_sums false 1 [])).2.

(** The first case prints 3 and the second prints 4. *)
Definition right_then_wrong : TaskHost :=
  mkTaskHost (compiles_to (lit "/tmp/isfj/job_A/exe_B"))
    (fun u _ => match u with
                | O => child_prints (lit "3")
                | _ => child_prints (lit "4")
                end).

(** The two goroutines of the cases take their steps in turns. *)
Definition in_turns : list (list nat) :=
  [ []; []; []; []; [];
    [0]; [1]; [0]; [1]; [1]; [0]; [0]; [1]; [0]; [1];
    []; [] ]%nat.

Definition two_sums_judged : Shared :=
  match run_schedule in_turns
          (run gcc_worker (lit "/tmp/isfj/job_A") right_then_wrong Ret) two_sums_scheduled with
  | Some (_, s) => s
  | None => two_sums_scheduled
  end.


Definition sum_input : RunnerInput :=
  mkRunnerInput (lit "/tmp/isfj/job_A/exe_B") [] (lit "/needle.so") (lit "1 2") (mkLimits 0 0 0).

(** A case that is worth a negative number of points. *)
Definition penalty_case : Case :=
  mkCase (lit "1 2") (lit "3") [] (mkLimits 0 0 0) (-1).

Definition penalty_job : Job :=
  NewJob (mkJobInit (lit "int main() {}") (lit "c") (lit "/needle.so") J_LAX
            [penalty_case] None) 0.

Definition penalty_scheduled : Shared :=
  (Schedule penalty_job (mkShared [] 0 penalty_job false 1 [])).2.

(** A child that is stopped twice on a syscall for which the needle asks a
    deduction of 3, then runs to its end and prints [out]. *)
Definition seccomp_stop (data : Z) : WaitResult :=
  mkWaitResult 4242 0x7057F no_sample no_sample 435 data None.

Definition child_deducted (out : gostring) : RunEnv :=
  mkRunEnv false false (Some 4242) false
    [seccomp_stop 3; seccomp_stop 3;
     mkWaitResult 4242 0 no_sample no_sample 0 0 (Some out)].

(** The job of two cases with [groups] for its packed dispatch. *)
Definition two_sums_grouped (groups : list (list Z)) : Shared :=
  let j := NewJob (mkJobInit (lit "int main() {}") (lit "c") (lit "/needle.so") J_LAX
                     [sum_case; sum_case] (Some groups)) 0 in
  (Schedule j (mkShared [] 0 j false 1 [])).2.

Definition prints_3 : nat -> nat -> RunEnv := fun _ _ => child_prints (lit "3").

(** The compiler rejects the code of the job of two cases. *)
Definition rejected : TaskHost :=
  mkTaskHost (compile_error (lit "error: expected ';'")) prints_3.

(** The job of two cases, scheduled, with a listener; a worker has taken
    the task from the queue and its owner cancels it. *)
Definition two_sums_watched : Shared := Subscribe two_sums_scheduled.

Definition both_right : TaskHost :=
  mkTaskHost (compiles_to (lit "/tmp/isfj/job_A/exe_B")) prints_3.

Definition racing : Prog :=
  Par [poll_task gcc_worker 0 (lit "/tmp/isfj/job_A") both_right Ret; CancelTask 0 Ret] Ret.

(** The worker sees the id in the ledger; then the owner removes the id
    and marks the task as cancelled. *)
Definition cancel_after_check : list (list nat) := [ [0]; [1]; [1] ]%nat.

(** Then the worker goes on: it removes the id, which is no longer there,
    and runs the task to its end. *)
Definition worker_goes_on : list (list nat) :=
  [ [0]; [0]; [0]; [0]; [0]; [0];
    [0; 0]; [0; 0]; [0; 0]; [0; 0]; [0; 0];
    [0; 1]; [0; 1]; [0; 1]; [0; 1]; [0; 1];
    [0]; [0]; [] ]%nat.

Definition cancelled_state : Prog * Shared :=
  match run_schedule cancel_after_check racing two_sums_watched with
  | Some c => c
  | None => (racing, two_sums_watched)
  end.

Definition raced_state : Prog * Shared :=
  match run_schedule worker_goes_on cancelled_state.1 cancelled_state.2 with
  | Some c => c
  | None => cancelled_state
  end.

(** The scenarios of the specification. A child that spins until the poll
    finds it over its time limit of 100000 microseconds. *)
Definition spinning (elapsed : Z) : WaitResult :=
  mkWaitResult 0 0 (mkMemSample 8192 4096 false elapsed) no_sample 0 0 None.

Definition child_spins : RunEnv :=
  mkRunEnv false false (Some 4242) false [spinning 10012; spinning 50230; spinning 100391].

Definition timed_input : RunnerInput :=
  mkRunnerInput (lit "/tmp/isfj/job_A/exe_B") [] (lit "/needle.so") (lit "1 2")
    (mkLimits 100000 0 0).

(** A child that calls the syscall 435, which the needle forbids. *)
Definition child_hostile : RunEnv :=
  mkRunEnv false false (Some 4242) false [seccomp_stop 0].

(** The owner cancels the task before the worker looks at the ledger. *)
Definition cancel_first : list (list nat) := [ [1]; [1]; [0]; [] ]%nat.

(* ===================================================================== *)
(** * Tactics of the proofs *)
(* ===================================================================== *)

(** Case analysis on the tests [s =? c] of a [switch] on a status. *)
Ltac status_cases s :=
  repeat match goal with
         | |- context [s =? ?c] => destruct (Z.eqb_spec s c); [ subst s | ]
         end.

(** Splits the tests of one turn of [supervise] in the hypothesis [H]. *)
Ltac supervise_cases H :=
  repeat match type of H with
         | context [match read_stdout ?w with _ => _ end] =>
             destruct (read_stdout w) eqn:?
         | context [if ?b then _ else _] => destruct b eqn:?
         end.


(* ===================================================================== *)
(** * More tactics of the proofs *)
(* ===================================================================== *)

(** The thirteen cases of a status between [ST_WAITING] and [ST_SKIPPED]. *)
Ltac enumerate_status s H :=
  assert (s = 0 \/ s = 1 \/ s = 2 \/ s = 3 \/ s = 4 \/ s = 5 \/ s = 6 \/ s = 7
          \/ s = 8 \/ s = 9 \/ s = 10 \/ s = 11 \/ s = 12) as H
    by (unfold ST_WAITING, ST_SKIPPED in *; lia);
  repeat (destruct H as [ H | H ]; [ subst s | ]); [ .. | subst s ].

(* ===================================================================== *)
(** * More notions of the statements *)
(* ===================================================================== *)

(** The answers of the host that the supervision loop takes for a stop on
    a filtered syscall: with limits, only a wait that returns the pid is
    looked at. *)
Definition seccomp_seen (limits : Limits) (w : WaitResult) : bool :=
  (IsAllUnlimited limits || (0 <? wait_pid w))
  && (Z.shiftr (wait_status w) 8 =? Z.lor SIGTRAP (Z.shiftl PTRACE_EVENT_SECCOMP 8)).

(** The sum of what the filter asks for at these stops. *)
Fixpoint asked_deduction (limits : Limits) (ws : list WaitResult) : Z :=
  match ws with
  | [] => 0
  | w :: ws' =>
      (if seccomp_seen limits w then seccomp_RetData w else 0) + asked_deduction limits ws'
  end.

(** A child over its memory limit for the heap. *)
Definition child_grows : RunEnv :=
  mkRunEnv false false (Some 4242) false
    [mkWaitResult 0 0 (mkMemSample 8192 70000 false 10012) no_sample 0 0 None].

Definition capped_input : RunnerInput :=
  mkRunnerInput (lit "/tmp/isfj/job_A/exe_B") [] (lit "/needle.so") (lit "1 2")
    (mkLimits 100000 0 65536).

(** A child that is killed by the signal 11. *)
Definition child_killed : RunEnv :=
  mkRunEnv false false (Some 4242) false
    [mkWaitResult 4242 11 no_sample no_sample 0 0 None].

(** The number that a list of decimal digits writes. *)
Definition decimal (ds : list Z) : Z := fold_left (fun a d => a * 10 + d) ds 0.

(** The characters of a list of decimal digits. *)
Definition digit_chars (ds : list Z) : gostring := map (fun d => d + 48) ds.

(** A line of the status file that names neither the data nor the stack. *)
Definition other_line (line : gostring) : Prop :=
  strip_prefix line (lit "VmData:") = None /\ strip_prefix line (lit "VmStk:") = None.

(** A line of the status file as the kernel writes it: the name, white
    space, a number and the unit. *)
Definition kB_line (name : gostring) (w : gostring) (ds : list Z) : gostring :=
  name ++ w ++ digit_chars ds ++ lit " kB".

(** Digits that write a number of kB whose bytes fit an [int]. *)
Definition kB_number (ds : list Z) : Prop :=
  ds <> [] /\ Forall (fun d => 0 <= d <= 9) ds /\ decimal ds * 1024 < 2 ^ 63.

(** Some lines of the status file of a process. *)
Definition status_of_cat : StatusFile :=
  mkStatusFile false
    ([lit "Name:" ++ [9] ++ lit "cat"; lit "VmPeak:" ++ [9] ++ lit "    5792 kB"]
     ++ [kB_line (lit "VmData:") (9 :: lit "     ") [3; 6; 0]]
     ++ [lit "VmRSS:" ++ [9] ++ lit "     988 kB"]
     ++ [kB_line (lit "VmStk:") (9 :: lit "     ") [1; 3; 2]]
     ++ [lit "VmExe:" ++ [9] ++ lit "      16 kB"]) false.

(** The ledger as [Schedule] fills it: ids that are distinct and below
    the counter. *)
Definition ledger_ok (s : Shared) : Prop :=
  NoDup (taskIds s) /\ Forall (fun id => 0 <= id < counter s) (taskIds s).

(** The fields of a job that the engine only reads, and the number of its
    results: [j'] has them as [j] has. *)
Definition same_inputs (j j' : Job) : Prop :=
  Job_Code j' = Job_Code j /\ Job_Lang j' = Job_Lang j /\ Job_Needle j' = Job_Needle j
  /\ Job_Mode j' = Job_Mode j /\ Job_Cases j' = Job_Cases j /\ Job_Groups j' = Job_Groups j
  /\ length (Job_Results j') = length (Job_Results j).

(** A step on a job that keeps what the engine only reads, or panics. *)
Definition keeps_inputs (j : Job) (m : result Job) : Prop :=
  match m with
  | Ok j' => same_inputs j j'
  | Panics _ => True
  end.

(** A step on a job that leaves it in the relation [P] to what it was, or
    panics. *)
Definition keeps (P : Job -> Job -> Prop) (j : Job) (m : result Job) : Prop :=
  match m with
  | Ok j' => P j j'
  | Panics _ => True
  end.

(** A goroutine each of whose actions leaves the state in the relation
    [R] to the state it found. *)
Inductive within (R : Shared -> Shared -> Prop) : Prog -> Prop :=
| within_Ret : within R Ret
| within_Hang : within R Hang
| within_Crash why : within R (Crash why)
| within_Atomic act :
    (forall s, R s (act s).1 /\ within R (act s).2) -> within R (Atomic act)
| within_Par ts k :
    Forall (within R) ts -> within R k -> within R (Par ts k).

Definition inputs_kept (s s' : Shared) : Prop := same_inputs (job s) (job s').

(** The status of the job and the results at the other indices than
    [slot]: [j'] has them as [j] has. *)
Definition other_slots (slot : Z) (j j' : Job) : Prop :=
  Job_Status j' = Job_Status j
  /\ forall m, m <> slot -> index (Job_Results j') m = index (Job_Results j) m.

Definition slot_frame (slot : Z) (s s' : Shared) : Prop :=
  taskIds s' = taskIds s /\ counter s' = counter s /\ other_slots slot (job s) (job s').

(** The goroutines of the engine around a task: a worker that has taken
    it from the queue, and an owner that cancels it. *)
Inductive engine_goroutine : Prog -> Prop :=
| goroutine_poll w id tempDir h : engine_goroutine (poll_task w id tempDir h Ret)
| goroutine_cancel id : engine_goroutine (CancelTask id Ret).

(** The status of the job and the result of the compilation: [s'] has
    them as [s] has. *)
Definition compile_slot_kept (s s' : Shared) : Prop :=
  Job_Status (job s') = Job_Status (job s)
  /\ index (Job_Results (job s')) 0 = index (Job_Results (job s)) 0.

(** Groups whose entries are numbers of cases, from 1 to [n]; the nil
    slice of a job without groups has none. *)
Definition groups_ok (n : Z) (groups : option (list (list Z))) : Prop :=
  match groups with
  | Some gs => Forall (Forall (fun g => 1 <= g <= n)) gs
  | None => True
  end.

(** A job of [n] cases as [NewJob] makes it, with groups that name its
    cases. *)
Definition well_formed (n : Z) (s : Shared) : Prop :=
  job_shape n s /\ groups_ok n (Job_Groups (job s)).

(** A judger that answers with the status [st] and can be cloned. *)
Definition constant_judger (st : Z) : AnyJudger :=
  mkAnyJudger LuaJudger LuaJudger_SpecialJudger (returning_script st).

(** The text that [runOne] stores with a status that [Run] reports. *)
Definition run_extra (output : RunnerOutput) (extra : gostring) : gostring :=
  if Output_Status output =? ST_RUNTIME_ERROR then
    lit "Process terminated by signal " ++ itoa (Output_ExitInfo output)
  else if Output_Status output =? ST_HOSTILE_CODE then
    lit "Process killed due to malicious syscall " ++ itoa (Output_ExitInfo output)
  else extra.

(** A mode whose low byte is none of the three modes. *)
Definition unknown_mode (m : JudgeMode) : Prop :=
  ModeBits m <> J_LAX /\ ModeBits m <> J_STRICT /\ ModeBits m <> J_SPECIAL.

(** The job of two cases in the mode 3. *)
Definition two_sums_mode_3 : Shared :=
  let j := NewJob (mkJobInit (lit "int main() {}") (lit "c") (lit "/needle.so") 3
                     [sum_case; sum_case] None) 0 in
  (Schedule j (mkShared [] 0 j false 1 [])).2.




(* ===================================================================== *)
(** * Properties: the judge mode *)
(* ===================================================================== *)

Lemma uint16_small (x : Z) : 0 <= x < 2 ^ 16 -> uint16 x = x.
Proof. intros H. unfold uint16. apply Z.mod_small. exact H. Qed.

Lemma int64_small (x : Z) : - 2 ^ 63 <= x < 2 ^ 63 -> int64 x = x.
Proof.
  intros H. unfold int64. rewrite Z.mod_small; lia.
Qed.

Lemma MakeSpecialJudgeMode_value (id : Z) :
  0 <= id <= 255 -> MakeSpecialJudgeMode id = id * 256 + 2.
Proof.
  intros H. unfold MakeSpecialJudgeMode, J_SPECIAL.
  rewrite Z.shiftl_mul_pow2 by lia. change (2 ^ 8) with 256.
  rewrite int64_small by lia.
  rewrite (uint16_small (id * 256)) by lia.
  apply uint16_small. lia.
Qed.

(** C8. For every judger id between 0 and 255, the mode made by
    [MakeSpecialJudgeMode] has the mode bits [J_SPECIAL] and gives the id
    back through [JudgerId]. *)
Theorem MakeSpecialJudgeMode_roundtrip (id : Z) :
  0 <= id <= 255 ->
  ModeBits (MakeSpecialJudgeMode id) = J_SPECIAL
  /\ JudgerId (MakeSpecialJudgeMode id) = id.
Proof.
  intros H. rewrite MakeSpecialJudgeMode_value by exact H.
  unfold ModeBits, JudgerId, J_SPECIAL. split.
  - change 0x00ff with (Z.ones 8). rewrite Z.land_ones by lia.
    change (2 ^ 8) with 256. rewrite Z.add_comm, Z.mod_add by lia. reflexivity.
  - rewrite Z.shiftr_land. change (Z.shiftr 0xff00 8) with (Z.ones 8).
    rewrite Z.land_ones by lia. rewrite Z.shiftr_div_pow2 by lia.
    change (2 ^ 8) with 256.
    replace ((id * 256 + 2) / 256) with id.
    + apply Z.mod_small. lia.
    + apply Z.div_unique with (r := 2); lia.
Qed.

Lemma MakeSpecialJudgeMode_roundtrip_witness :
  ModeBits (MakeSpecialJudgeMode 7) = J_SPECIAL
  /\ JudgerId (MakeSpecialJudgeMode 7) = 7.
Proof. apply (MakeSpecialJudgeMode_roundtrip 7). lia. Defined.

(* ===================================================================== *)
(** * Properties: the names of a status and the scripted judger *)
(* ===================================================================== *)

Lemma Ident_defined (s : Status) :
  is_Some (Ident s) <-> ST_WAITING <= s <= ST_SKIPPED.
Proof.
  unfold Ident, ST_WAITING, ST_RUNNING, ST_CANCELLED, ST_ACCEPTED,
    ST_COMPILATION_ERROR, ST_COMPILATION_SUCCESS, ST_WRONG_ANSWER,
    ST_RUNTIME_ERROR, ST_HOSTILE_CODE, ST_TIME_LIMIT_EXCEEDED,
    ST_MEMORY_LIMIT_EXCEEDED, ST_SYSTEM_ERROR, ST_SKIPPED.
  status_cases s;
    (split; [ intros [x Hx]; first [ lia | discriminate ] | intros Hs; first [ eexists; reflexivity | lia ] ]).
Qed.

Lemma String_defined (s : Status) :
  is_Some (String_ s) <-> ST_WAITING <= s <= ST_SKIPPED.
Proof.
  unfold String_, ST_WAITING, ST_RUNNING, ST_CANCELLED, ST_ACCEPTED,
    ST_COMPILATION_ERROR, ST_COMPILATION_SUCCESS, ST_WRONG_ANSWER,
    ST_RUNTIME_ERROR, ST_HOSTILE_CODE, ST_TIME_LIMIT_EXCEEDED,
    ST_MEMORY_LIMIT_EXCEEDED, ST_SYSTEM_ERROR, ST_SKIPPED.
  status_cases s;
    (split; [ intros [x Hx]; first [ lia | discriminate ] | intros Hs; first [ eexists; reflexivity | lia ] ]).
Qed.

Lemma LuaJudger_Judge_unchecked (l : LuaJudger) (got expected tempDir : gostring) (code : Z) :
  DoString_err (Lua_state l) = false ->
  judge_is_function (Lua_state l) = true ->
  call_judge (Lua_state l) got expected tempDir = Some code ->
  0 <= code < 2 ^ 16 ->
  LuaJudger_Judge l got expected tempDir = code.
Proof.
  intros H1 H2 H3 H4. unfold LuaJudger_Judge. rewrite H1, H2, H3. cbn.
  apply uint16_small. exact H4.
Qed.

(** C9. [LuaJudger.Judge] hands the number that the script returns on as a
    [Status] without a check of its range, so a script makes it return a
    status above [ST_SKIPPED]; [Ident] and [String] return for the statuses
    from [ST_WAITING] to [ST_SKIPPED] and panic for every other one, the
    verdict of such a script among them. *)
Theorem LuaJudger_verdict_outside_enum :
  (forall (l : LuaJudger) (got expected tempDir : gostring) (code : Z),
      DoString_err (Lua_state l) = false ->
      judge_is_function (Lua_state l) = true ->
      call_judge (Lua_state l) got expected tempDir = Some code ->
      0 <= code < 2 ^ 16 ->
      LuaJudger_Judge l got expected tempDir = code)
  /\ (exists (l : LuaJudger) (got expected tempDir : gostring),
         ST_SKIPPED < LuaJudger_Judge l got expected tempDir
         /\ Ident (LuaJudger_Judge l got expected tempDir) = None
         /\ String_ (LuaJudger_Judge l got expected tempDir) = None)
  /\ (forall s : Status, is_Some (Ident s) <-> ST_WAITING <= s <= ST_SKIPPED)
  /\ (forall s : Status, is_Some (String_ s) <-> ST_WAITING <= s <= ST_SKIPPED).
Proof.
  split; [ | split; [ | split ] ].
  - exact LuaJudger_Judge_unchecked.
  - exists (returning_script 13), (lit "3"), (lit "3"), (lit "/tmp/job").
    repeat split.
  - exact Ident_defined.
  - exact String_defined.
Qed.

(* ===================================================================== *)
(** * Properties: steps and schedules *)
(* ===================================================================== *)

Lemma step_atomic_inv act s c :
  step (Atomic act, s) c -> c = ((act s).2, (act s).1).
Proof. intros H. inversion H; subst. reflexivity. Qed.

Lemma no_step_Ret s c : ~ step (Ret, s) c.
Proof. intros H. inversion H. Qed.

Lemma no_step_Crash why s c : ~ step (Crash why, s) c.
Proof. intros H. inversion H. Qed.

Lemma no_step_Hang s c : ~ step (Hang, s) c.
Proof. intros H. inversion H. Qed.

(** What a finished run went through: an atomic action was taken, *)
Lemma rtc_atomic_inv act s s' :
  rtc step (Atomic act, s) (Ret, s') ->
  rtc step ((act s).2, (act s).1) (Ret, s').
Proof.
  intros H. inversion H as [ | x y z Hstep Hrest ]; subst.
  apply step_atomic_inv in Hstep. subst y. exact Hrest.
Qed.

(** a crashed or blocked goroutine never finishes, *)
Lemma rtc_Crash_inv why s c : rtc step (Crash why, s) c -> c = (Crash why, s).
Proof.
  intros H. inversion H as [ | x y z Hstep Hrest ]; subst; [ reflexivity | ].
  exfalso. exact (no_step_Crash _ _ _ Hstep).
Qed.

Lemma rtc_Hang_inv s c : rtc step (Hang, s) c -> c = (Hang, s).
Proof.
  intros H. inversion H as [ | x y z Hstep Hrest ]; subst; [ reflexivity | ].
  exfalso. exact (no_step_Hang _ _ Hstep).
Qed.

(** and after a waiting group comes what follows it. *)
Lemma rtc_Par_inv ts k s s' :
  rtc step (Par ts k, s) (Ret, s') ->
  exists s_mid, rtc step (k, s_mid) (Ret, s').
Proof.
  intros H. remember (Par ts k, s) as c eqn:Hc. remember (Ret, s') as c' eqn:Hc'.
  revert ts s Hc. induction H as [ x | x y z Hstep Hrest IH ]; intros ts s Hc; subst.
  - discriminate.
  - inversion Hstep; subst.
    + eapply IH; reflexivity.
    + apply rtc_Crash_inv in Hrest. discriminate.
    + exists s. exact Hrest.
Qed.

Lemma first_crash_elem ts why : first_crash ts = Some why -> Crash why ∈ ts.
Proof.
  induction ts as [ | t ts IH ]; cbn; [ discriminate | ].
  destruct t; intros H; try (apply list_elem_of_further, IH, H).
  injection H as ->. apply list_elem_of_here.
Qed.

Lemma forallb_is_Ret ts : forallb is_Ret ts = true -> Forall (fun t => t = Ret) ts.
Proof.
  induction ts as [ | t ts IH ]; cbn; intros H; constructor.
  - destruct t; try discriminate. reflexivity.
  - apply IH. destruct (is_Ret t); [ exact H | discriminate ].
Qed.

Lemma step_at_sound path : forall p s c, step_at path p s = Some c -> step (p, s) c.
Proof.
  induction path as [ | i path IH ]; intros p s c H; destruct p; cbn in H; try discriminate.
  - injection H as <-. apply step_atomic.
  - destruct (first_crash ts) as [ why | ] eqn:Hcrash.
    + injection H as <-. apply step_par_crash, first_crash_elem, Hcrash.
    + destruct (forallb is_Ret ts) eqn:Hall; [ | discriminate ].
      injection H as <-. apply step_par_join, forallb_is_Ret, Hall.
  - destruct (ts !! i) as [ t | ] eqn:Hi; [ | discriminate ].
    destruct (step_at path t s) as [ [t' s'] | ] eqn:Hstep; [ | discriminate ].
    injection H as <-. eapply step_par_child; [ exact Hi | ].
    apply IH. exact Hstep.
Qed.

(** Every schedule is a run of the step relation. *)
Lemma run_schedule_sound sched : forall p s c,
  run_schedule sched p s = Some c -> rtc step (p, s) c.
Proof.
  induction sched as [ | path sched IH ]; intros p s c H; cbn in H.
  - injection H as <-. apply rtc_refl.
  - destruct (step_at path p s) as [ [p' s'] | ] eqn:Hstep; [ | discriminate ].
    eapply rtc_l; [ eapply step_at_sound; exact Hstep | ].
    apply IH. exact H.
Qed.

(** Induction on a goroutine, through the states that an action may see. *)
Lemma Prog_actions_ind (P : Prog -> Prop) :
  P Ret ->
  (forall why, P (Crash why)) ->
  P Hang ->
  (forall act, (forall s, P (act s).2) -> P (Atomic act)) ->
  (forall ts k, P k -> P (Par ts k)) ->
  forall p, P p.
Proof.
  intros HRet HCrash HHang HAtomic HPar. fix F 1.
  intros [ | why | | act | ts k ].
  - exact HRet.
  - apply HCrash.
  - exact HHang.
  - apply HAtomic. intros s. apply F.
  - apply HPar. apply F.
Qed.

(** A goroutine that does not fork runs as [exec] says. *)
Lemma exec_sound p : forall s, rtc step (p, s) (exec p s).
Proof.
  induction p as [ | why | | act IH | ts k IH ] using Prog_actions_ind;
    intros s; cbn; try apply rtc_refl.
  eapply rtc_l; [ apply step_atomic | ].
  specialize (IH s). destruct (act s) as [s' p']. apply IH.
Qed.

Lemma rtc_Ret_inv s c : rtc step (Ret, s) c -> c = (Ret, s).
Proof.
  intros H. inversion H as [ | x y z Hstep Hrest ]; subst; [ reflexivity | ].
  exfalso. exact (no_step_Ret _ _ Hstep).
Qed.

(** A finished run went through each of its updates without a panic. *)
Lemma rtc_update_inv f k s s' :
  rtc step (update f k, s) (Ret, s') ->
  exists j, f (job s) = Ok j /\ rtc step (k, after_update s j) (Ret, s').
Proof.
  intros H. unfold update in H. apply rtc_atomic_inv in H.
  destruct (f (job s)) as [ j | why ]; cbn in H.
  - exists j. split; [ reflexivity | exact H ].
  - apply rtc_Crash_inv in H. discriminate.
Qed.

(* ===================================================================== *)
(** * Properties: the final status of a job *)
(* ===================================================================== *)

Lemma aggregate_loop_results rs j :
  Job_Results (aggregate_loop rs j).1 = Job_Results j.
Proof.
  induction rs as [ | r rs IH ]; cbn; [ reflexivity | ].
  destruct (Result_Status r =? ST_ACCEPTED); cbn; [ exact IH | reflexivity ].
Qed.

Lemma aggregate_loop_kept rs j :
  (aggregate_loop rs j).2 = false ->
  Forall (fun r => Result_Status r = ST_ACCEPTED) rs /\ (aggregate_loop rs j).1 = j.
Proof.
  induction rs as [ | r rs IH ]; cbn; [ intros _; split; [ constructor | reflexivity ] | ].
  destruct (Z.eqb_spec (Result_Status r) ST_ACCEPTED) as [ Hr | Hr ]; cbn; [ | discriminate ].
  intros H. destruct (IH H) as [ Hall Hj ]. split; [ constructor; assumption | exact Hj ].
Qed.

Lemma aggregate_loop_broke rs j :
  (aggregate_loop rs j).2 = true ->
  exists (i : nat) r,
    rs !! i = Some r /\ Result_Status r <> ST_ACCEPTED
    /\ (forall (k : nat) r', (k < i)%nat -> rs !! k = Some r' -> Result_Status r' = ST_ACCEPTED)
    /\ (aggregate_loop rs j).1 = set_Job_Status j (Result_Status r).
Proof.
  induction rs as [ | r rs IH ]; cbn; [ discriminate | ].
  destruct (Z.eqb_spec (Result_Status r) ST_ACCEPTED) as [ Hr | Hr ]; cbn.
  - intros H. destruct (IH H) as (i & r0 & Hi & Hr0 & Hlow & Hj).
    exists (S i), r0. repeat split; try assumption.
    intros [ | k ] r' Hk Hr'; cbn in Hr'.
    + injection Hr' as <-. exact Hr.
    + apply (Hlow k); [ lia | exact Hr' ].
  - intros _. exists 0%nat, r. repeat split; try assumption. intros k r' Hk. lia.
Qed.

(** The last update of [run] on its own. *)
Lemma aggregate_status (j j' : Job) :
  aggregate j = Ok j' ->
  Job_Results j' = Job_Results j
  /\ (Job_Status j' = ST_ACCEPTED
      <-> Forall (fun r => Result_Status r = ST_ACCEPTED) (tail (Job_Results j)))
  /\ (forall (i : nat) r,
        tail (Job_Results j) !! i = Some r ->
        Result_Status r <> ST_ACCEPTED ->
        (forall (k : nat) r', (k < i)%nat -> tail (Job_Results j) !! k = Some r' ->
                              Result_Status r' = ST_ACCEPTED) ->
        Job_Status j' = Result_Status r).
Proof.
  unfold aggregate. destruct (Job_Results j) as [ | r0 rs ] eqn:Hrs; [ discriminate | ].
  cbn [tail].
  pose proof (aggregate_loop_results rs j) as Hres.
  pose proof (aggregate_loop_kept rs j) as Hkept.
  pose proof (aggregate_loop_broke rs j) as Hbroke.
  destruct (aggregate_loop rs j) as [ j1 broke ]. cbn in Hres, Hkept, Hbroke.
  intros H. injection H as <-. destruct broke; cbn.
  - destruct (Hbroke eq_refl) as (i0 & r1 & Hi0 & Hr1 & Hlow & ->). cbn.
    split; [ exact Hrs | split ].
    + split.
      * intros Hacc. contradiction.
      * intros Hall. exfalso. apply Hr1.
        rewrite Forall_lookup in Hall. exact (Hall i0 r1 Hi0).
    + intros i r Hi Hr Hlow'.
      destruct (Nat.lt_trichotomy i i0) as [ Hlt | [ -> | Hgt ] ].
      * exfalso. apply Hr. exact (Hlow i r Hlt Hi).
      * rewrite Hi in Hi0. injection Hi0 as ->. reflexivity.
      * exfalso. apply Hr1. exact (Hlow' i0 r1 Hgt Hi0).
  - destruct (Hkept eq_refl) as [ Hall -> ]. cbn.
    split; [ exact Hrs | split ].
    + split; [ intros _; exact Hall | reflexivity ].
    + intros i r Hi Hr _. exfalso. apply Hr.
      rewrite Forall_lookup in Hall. exact (Hall i r Hi).
Qed.

Lemma aggregate_total (j : Job) : Job_Results j <> [] -> exists j', aggregate j = Ok j'.
Proof.
  unfold aggregate. destruct (Job_Results j) as [ | r0 rs ]; [ congruence | ].
  intros _. destruct (aggregate_loop rs j) as [ j1 broke ]. eexists. reflexivity.
Qed.

(** C4. When the compilation succeeded and [run] comes to its end, in
    whatever order the goroutines of the cases took their steps, the status
    of the job is accepted exactly when every result from the second on is
    accepted, and otherwise it is the status of the first of these results
    that is not accepted. *)
Theorem run_final_status (w : worker) (tempDir executable : gostring) (h : TaskHost)
    (s s' : Shared) :
  Compile (compilers_lookup (compilers w) (Job_Lang (job s))) (compile_host h)
    = Ok (ST_COMPILATION_SUCCESS, executable) ->
  rtc step (run w tempDir h Ret, s) (Ret, s') ->
  (Job_Status (job s') = ST_ACCEPTED
   <-> Forall (fun r => Result_Status r = ST_ACCEPTED) (tail (Job_Results (job s'))))
  /\ (forall (i : nat) r,
        tail (Job_Results (job s')) !! i = Some r ->
        Result_Status r <> ST_ACCEPTED ->
        (forall (k : nat) r', (k < i)%nat -> tail (Job_Results (job s')) !! k = Some r' ->
                              Result_Status r' = ST_ACCEPTED) ->
        Job_Status (job s') = Result_Status r).
Proof.
  intros Hcompile Hrun. unfold run in Hrun.
  apply rtc_update_inv in Hrun as (j1 & Hj1 & Hrun). injection Hj1 as <-.
  apply rtc_atomic_inv in Hrun. cbn in Hrun. rewrite Hcompile in Hrun.
  apply rtc_update_inv in Hrun as (j2 & Hj2 & Hrun).
  change (negb (ST_COMPILATION_SUCCESS =? ST_COMPILATION_SUCCESS)) with false in Hrun.
  cbn iota in Hrun. apply rtc_atomic_inv in Hrun. cbn [fst snd] in Hrun.
  assert (exists s_mid, rtc step (update aggregate Ret, s_mid) (Ret, s')) as [ s_mid Hlast ].
  { destruct (Job_Groups (job (after_update (after_update s (set_Job_Status (job s) ST_RUNNING)) j2)))
      as [ groups | ].
    - unfold runPacked in Hrun. apply rtc_atomic_inv in Hrun. cbn [fst snd] in Hrun.
      destruct (Job_Groups _) in Hrun; eapply rtc_Par_inv; exact Hrun.
    - unfold runUnpacked in Hrun. apply rtc_atomic_inv in Hrun. cbn [fst snd] in Hrun.
      eapply rtc_Par_inv; exact Hrun. }
  apply rtc_update_inv in Hlast as (j' & Hagg & Hend).
  apply rtc_Ret_inv in Hend. injection Hend as ->.
  destruct (aggregate_status _ _ Hagg) as (Hres & Hiff & Hfirst).
  cbn. rewrite Hres. split; assumption.
Qed.

Lemma run_final_status_witness :
  (Job_Status (job two_sums_judged) = ST_ACCEPTED
   <-> Forall (fun r => Result_Status r = ST_ACCEPTED) (tail (Job_Results (job two_sums_judged))))
  /\ (forall (i : nat) r,
        tail (Job_Results (job two_sums_judged)) !! i = Some r ->
        Result_Status r <> ST_ACCEPTED ->
        (forall (k : nat) r', (k < i)%nat ->
                              tail (Job_Results (job two_sums_judged)) !! k = Some r' ->
                              Result_Status r' = ST_ACCEPTED) ->
        Job_Status (job two_sums_judged) = Result_Status r).
Proof.
  apply (run_final_status gcc_worker (lit "/tmp/isfj/job_A") (lit "/tmp/isfj/job_A/exe_B")
           right_then_wrong two_sums_scheduled two_sums_judged).
  - reflexivity.
  - apply (run_schedule_sound in_turns). vm_compute. reflexivity.
Defined.

Example two_sums_judged_statuses :
  Job_Status (job two_sums_judged) = ST_WRONG_ANSWER
  /\ map Result_Status (Job_Results (job two_sums_judged))
     = [ST_COMPILATION_SUCCESS; ST_ACCEPTED; ST_WRONG_ANSWER]
  /\ map Result_Points (Job_Results (job two_sums_judged)) = [0; 10; 0].
Proof. vm_compute. repeat split. Qed.

(* ===================================================================== *)
(** * Properties: the supervisor *)
(* ===================================================================== *)

(** The deduction that [Run] reports is a [uint32]. *)
Lemma supervise_deduction limits ws : forall usages skipUsages deduction o,
  0 <= deduction < 2 ^ 32 ->
  supervise limits ws usages skipUsages deduction = Returned o ->
  0 <= Output_Deduction o < 2 ^ 32.
Proof.
  induction ws as [ | w ws IH ]; intros usages skipUsages deduction o Hd H;
    cbn [supervise] in H; [ discriminate | ].
  supervise_cases H;
    try (injection H as <-; cbn; lia);
    try (eapply IH; [ | exact H ]; first [ exact Hd | apply Z.mod_pos_bound; lia ]).
Qed.

Lemma Run_deduction input env o :
  Run input env = Returned o -> 0 <= Output_Deduction o < 2 ^ 32.
Proof.
  unfold Run, vforkExec. intros H.
  destruct (pipe_stdin_err env); [ injection H as <-; cbn; lia | ].
  destruct (pipe_stdout_err env); [ injection H as <-; cbn; lia | ].
  destruct (start_process env); [ | discriminate ].
  destruct (start_err env); [ injection H as <-; cbn; lia | ].
  eapply supervise_deduction; [ | exact H ]. lia.
Qed.





(* ===================================================================== *)
(** * Properties: slices and result slots *)
(* ===================================================================== *)

Lemma index_Some {A} (l : list A) (i : Z) (x : A) :
  index l i = Some x <-> 0 <= i /\ l !! Z.to_nat i = Some x.
Proof.
  unfold index. destruct (Z.ltb_spec i 0); split.
  - discriminate.
  - intros [ ? _ ]. lia.
  - intros Hx. split; [ lia | exact Hx ].
  - intros [ _ Hx ]. exact Hx.
Qed.

Lemma index_in_range {A} (l : list A) (i : Z) :
  0 <= i < len l -> exists x, index l i = Some x.
Proof.
  intros Hi. unfold len in Hi.
  destruct (lookup_lt_is_Some_2 l (Z.to_nat i)) as [ x Hx ]; [ lia | ].
  exists x. apply index_Some. split; [ lia | exact Hx ].
Qed.

Lemma index_range {A} (l : list A) (i : Z) (x : A) :
  index l i = Some x -> 0 <= i < len l.
Proof.
  intros H. apply index_Some in H as [ H0 Hx ]. apply lookup_lt_Some in Hx.
  unfold len. lia.
Qed.

Lemma index_None {A} (l : list A) (i : Z) :
  ~ (0 <= i < len l) -> index l i = None.
Proof.
  intros Hi. destruct (index l i) as [ x | ] eqn:Hx; [ | reflexivity ].
  apply index_range in Hx. contradiction.
Qed.

Lemma index_insert {A} (l : list A) (i : Z) (x y : A) :
  index l i = Some x -> index (<[Z.to_nat i := y]> l) i = Some y.
Proof.
  intros H. apply index_Some in H as [ H0 Hx ]. apply index_Some. split; [ exact H0 | ].
  apply list_lookup_insert_eq. eapply lookup_lt_Some. exact Hx.
Qed.

Lemma set_result_Ok (j : Job) (i : Z) (f : CaseResult -> CaseResult) (r : CaseResult) :
  index (Job_Results j) i = Some r ->
  set_result j i f = Ok (set_Job_Results j (<[Z.to_nat i := f r]> (Job_Results j))).
Proof. intros H. unfold set_result, modify_at. rewrite H. reflexivity. Qed.

Lemma set_result_Panics (j : Job) (i : Z) (f : CaseResult -> CaseResult) :
  index (Job_Results j) i = None -> set_result j i f = Panics ResultsOutOfRange.
Proof. intros H. unfold set_result, modify_at. rewrite H. reflexivity. Qed.

(** What an assignment to a field of a result slot leaves as it was. *)
Lemma set_result_frame (j j' : Job) (i : Z) (f : CaseResult -> CaseResult) :
  set_result j i f = Ok j' ->
  Job_Cases j' = Job_Cases j /\ Job_Mode j' = Job_Mode j /\ Job_Status j' = Job_Status j
  /\ Job_Needle j' = Job_Needle j /\ Job_Groups j' = Job_Groups j
  /\ length (Job_Results j') = length (Job_Results j)
  /\ exists r, index (Job_Results j) i = Some r /\ index (Job_Results j') i = Some (f r).
Proof.
  unfold set_result, modify_at. destruct (index (Job_Results j) i) as [ r | ] eqn:Hr;
    [ | discriminate ].
  cbn. intros H. injection H as <-. cbn. repeat split.
  - apply length_insert.
  - exists r. split; [ reflexivity | ]. eapply index_insert. exact Hr.
Qed.

(* ===================================================================== *)
(** * Properties: the points of an accepted case *)
(* ===================================================================== *)

Lemma exec_update_Ok f k s j :
  f (job s) = Ok j -> exec (update f k) s = exec k (after_update s j).
Proof. intros H. cbn. rewrite H. reflexivity. Qed.

Lemma exec_update_Panics f k s why :
  f (job s) = Panics why -> exec (update f k) s = (Crash why, s).
Proof. intros H. cbn. rewrite H. reflexivity. Qed.

Lemma judge_case_ext w tempDir j j' i output :
  Job_Mode j' = Job_Mode j -> Job_Cases j' = Job_Cases j ->
  judge_case w tempDir j' i output = judge_case w tempDir j i output.
Proof. intros Hm Hc. unfold judge_case, case_at. rewrite Hm, Hc. reflexivity. Qed.

Lemma record_run_accepted i output j r :
  Output_Status output = ST_ACCEPTED ->
  index (Job_Results j) (int64 (i + 1)) = Some r ->
  record_run i output j
  = set_result j (int64 (i + 1)) (fun r => set_Result_Usages r (Output_Usages output)).
Proof.
  intros Hacc Hr. unfold record_run. rewrite Hacc. cbn.
  destruct (set_result j (int64 (i + 1)) _); reflexivity.
Qed.

(** The last update of [runOne] for an accepted verdict. *)
Lemma record_verdict_accepted i output j c r :
  index (Job_Cases j) i = Some c ->
  index (Job_Results j) (int64 (i + 1)) = Some r ->
  exists j',
    record_verdict i output ST_ACCEPTED j = Ok j'
    /\ index (Job_Results j') (int64 (i + 1))
       = Some (set_Result_Points (set_Result_Status r ST_ACCEPTED)
                 (Z.max (int64 (Case_Points c - Output_Deduction output)) 0)).
Proof.
  intros Hc Hr. unfold record_verdict.
  rewrite (set_result_Ok _ _ _ _ Hr). cbn.
  unfold case_at. cbn. rewrite Hc. cbn.
  pose proof (index_insert _ _ _ (set_Result_Status r ST_ACCEPTED) Hr) as Hr'.
  erewrite set_result_Ok by (cbn; exact Hr'). eexists. split; [ reflexivity | ].
  cbn. eapply index_insert. exact Hr'.
Qed.

(** C6, as the code has it. A case with points that are not negative,
    whose run and whose verdict are accepted, gets the points of the case
    less the deduction, or 0 when that is negative: so between 0 and the
    points of the case. *)
Theorem accepted_case_points (w : worker) (tempDir executable : gostring) (i : Z)
    (env : RunEnv) (s : Shared) (c : Case) (output : RunnerOutput) :
  index (Job_Cases (job s)) i = Some c ->
  i + 1 < len (Job_Results (job s)) ->
  len (Job_Results (job s)) < 2 ^ 63 ->
  Run (mkRunnerInput executable (Case_Args c) (Job_Needle (job s)) (Case_Stdin c)
         (Case_Limits c)) env = Returned output ->
  Output_Status output = ST_ACCEPTED ->
  judge_case w tempDir (job s) i output = Ok ST_ACCEPTED ->
  0 <= Case_Points c < 2 ^ 63 ->
  exists s' r,
    exec (runOne w tempDir executable i env Ret) s = (Ret, s')
    /\ index (Job_Results (job s')) (i + 1) = Some r
    /\ Result_Status r = ST_ACCEPTED
    /\ Result_Points r = Z.max (Case_Points c - Output_Deduction output) 0
    /\ 0 <= Result_Points r <= Case_Points c.
Proof.
  intros Hc Hslot Hlen Hrun Hacc Hjudge Hpoints.
  pose proof (index_range _ _ _ Hc) as Hi.
  assert (Hi1 : int64 (i + 1) = i + 1) by (apply int64_small; lia).
  destruct (index_in_range (Job_Results (job s)) (i + 1)) as [ r0 Hr0 ]; [ lia | ].
  pose proof (Run_deduction _ _ _ Hrun) as Hded.
  unfold runOne. cbn [exec]. unfold case_at. rewrite Hc. cbn [or_panic]. rewrite Hrun.
  (* the slot is marked as running *)
  destruct (set_result (job s) (int64 (i + 1)) (fun r => set_Result_Status r ST_RUNNING))
    as [ j1 | ] eqn:Hj1; [ | rewrite Hi1, (set_result_Ok _ _ _ _ Hr0) in Hj1; discriminate ].
  rewrite (exec_update_Ok _ _ _ _ Hj1).
  apply set_result_frame in Hj1 as (Hc1 & Hm1 & _ & _ & _ & _ & r1 & _ & Hr1).
  (* the usages of the run are stored *)
  set (s1 := after_update s j1).
  assert (Hs1 : index (Job_Results (job s1)) (int64 (i + 1)) = Some (set_Result_Status r1 ST_RUNNING))
    by exact Hr1.
  destruct (record_run i output (job s1)) as [ j2 | ] eqn:Hj2;
    [ | rewrite (record_run_accepted _ _ _ _ Hacc Hs1), (set_result_Ok _ _ _ _ Hs1) in Hj2;
        discriminate ].
  rewrite (exec_update_Ok _ _ _ _ Hj2). rewrite Hacc. cbn [Z.eqb ST_ACCEPTED Pos.eqb exec].
  rewrite (record_run_accepted _ _ _ _ Hacc Hs1) in Hj2.
  apply set_result_frame in Hj2 as (Hc2 & Hm2 & _ & _ & _ & _ & r2 & _ & Hr2).
  (* the judger accepts, and the points are stored *)
  set (s2 := after_update s1 j2).
  assert (Hjudge2 : judge_case w tempDir (job s2) i output = Ok ST_ACCEPTED).
  { rewrite <- Hjudge. apply judge_case_ext; subst s2 s1; cbn in *; congruence. }
  rewrite Hjudge2.
  assert (Hcs2 : index (Job_Cases (job s2)) i = Some c) by (subst s2 s1; cbn in *; congruence).
  assert (Hs2 : index (Job_Results (job s2)) (int64 (i + 1)) = Some (set_Result_Usages r2 (Output_Usages output)))
    by exact Hr2.
  destruct (record_verdict_accepted i output (job s2) c _ Hcs2 Hs2) as (j3 & Hj3 & Hr3).
  rewrite (exec_update_Ok _ _ _ _ Hj3). cbn [exec].
  eexists. eexists. split; [ reflexivity | ]. split; [ rewrite <- Hi1; exact Hr3 | ].
  cbn. rewrite int64_small by lia. repeat split; lia.
Qed.

Lemma accepted_case_points_witness :
  exists s' r,
    exec (runOne gcc_worker (lit "/tmp/isfj/job_A") (lit "/tmp/isfj/job_A/exe_B") 0
            (child_deducted (lit "3")) Ret) two_sums_scheduled = (Ret, s')
    /\ index (Job_Results (job s')) (0 + 1) = Some r
    /\ Result_Status r = ST_ACCEPTED
    /\ Result_Points r
       = Z.max (Case_Points sum_case
                - Output_Deduction (mkRunnerOutput ST_ACCEPTED (lit "3") (mkUsages 0 0) 6 0)) 0
    /\ 0 <= Result_Points r <= Case_Points sum_case.
Proof.
  apply (accepted_case_points gcc_worker (lit "/tmp/isfj/job_A") (lit "/tmp/isfj/job_A/exe_B")
           0 (child_deducted (lit "3")) two_sums_scheduled sum_case
           (mkRunnerOutput ST_ACCEPTED (lit "3") (mkUsages 0 0) 6 0)).
  - reflexivity.
  - vm_compute. reflexivity.
  - vm_compute. reflexivity.
  - reflexivity.
  - reflexivity.
  - reflexivity.
  - cbn. lia.
Defined.

Example deducted_case_points :
  index (Job_Results
           (job (exec (runOne gcc_worker (lit "/tmp/isfj/job_A") (lit "/tmp/isfj/job_A/exe_B") 0
                         (child_deducted (lit "3")) Ret) two_sums_scheduled).2)) 1
  = Some (mkCaseResult ST_ACCEPTED (mkUsages 0 0) 4 []).
Proof. vm_compute. reflexivity. Qed.

(** C6, as the specification has it, fails: the case below is worth -1
    point; its run and its verdict are accepted, and it gets 0 points,
    which is more than the points of the case. *)
Lemma accepted_case_points_above_case :
  let s' := (exec (runOne gcc_worker (lit "/tmp/isfj/job_A") (lit "/tmp/isfj/job_A/exe_B") 0
                     (child_prints (lit "3")) Ret) penalty_scheduled).2 in
  index (Job_Cases (job s')) 0 = Some penalty_case
  /\ Case_Points penalty_case = -1
  /\ exists r,
       index (Job_Results (job s')) 1 = Some r
       /\ Result_Status r = ST_ACCEPTED
       /\ Result_Points r = 0
       /\ ~ (0 <= Result_Points r <= Case_Points penalty_case).
Proof.
  cbv zeta. split; [ reflexivity | ]. split; [ reflexivity | ].
  eexists. split; [ vm_compute; reflexivity | ].
  split; [ reflexivity | ]. split; [ reflexivity | ]. cbn. lia.
Qed.

(* ===================================================================== *)
(** * Properties: the indices of the packed dispatch *)
(* ===================================================================== *)

(** Steps keep a goroutine within bounds. *)
Lemma in_bounds_step I c c' :
  step c c' -> in_bounds I c.1 -> I c.2 -> in_bounds I c'.1 /\ I c'.2.
Proof.
  induction 1 as [ act s | ts k i t t' s s' Hi Hstep IH | ts k why s Hin | ts k s Hall ];
    cbn; intros Hp Hs.
  - inversion Hp as [ | | | act' Hact | ]; subst. destruct (Hact s Hs) as [ H1 H2 ].
    split; assumption.
  - inversion Hp as [ | | | | ts' k' Hts Hk ]; subst.
    destruct IH as [ Ht' Hs' ]; [ | exact Hs | ].
    + cbn. rewrite Forall_lookup in Hts. exact (Hts i t Hi).
    + split; [ | exact Hs' ]. constructor; [ | exact Hk ].
      apply Forall_insert; assumption.
  - inversion Hp as [ | | | | ts' k' Hts Hk ]; subst. split; [ | exact Hs ].
    rewrite Forall_forall in Hts. apply Hts. exact Hin.
  - inversion Hp as [ | | | | ts' k' Hts Hk ]; subst. split; assumption.
Qed.

Lemma in_bounds_rtc I c c' :
  rtc step c c' -> in_bounds I c.1 -> I c.2 -> in_bounds I c'.1 /\ I c'.2.
Proof.
  induction 1 as [ c | c c1 c' Hstep Hrest IH ]; intros Hp Hs; [ split; assumption | ].
  destruct (in_bounds_step I _ _ Hstep Hp Hs) as [ Hp1 Hs1 ]. apply IH; assumption.
Qed.

Lemma in_bounds_not_Crash I why :
  in_bounds I (Crash why) -> why <> CasesOutOfRange /\ why <> ResultsOutOfRange.
Proof. intros H. inversion H; subst. split; assumption. Qed.

Section Bounds.

(** A job of [n] cases, and a worker that runs its cases. *)
Context (n : Z) (w : worker) (tempDir executable : gostring).

(** An update is within bounds when its closure is. *)
Lemma in_bounds_update f k :
  (forall j, len (Job_Cases j) = n -> len (Job_Results j) = n + 1 -> keeps_shape j (f j)) ->
  in_bounds (job_shape n) k ->
  in_bounds (job_shape n) (update f k).
Proof.
  intros Hf Hk. constructor. intros s (Hc & Hr & Hn).
  specialize (Hf (job s) Hc Hr). unfold keeps_shape in Hf.
  destruct (f (job s)) as [ j' | why ]; cbn.
  - destruct Hf as [ Hc' Hr' ]. split; [ | exact Hk ].
    unfold job_shape, len in *. cbn. rewrite Hc', Hr'. tauto.
  - split; [ repeat split; assumption | ]. constructor; tauto.
Qed.

Lemma set_result_shape j i f :
  0 <= i < len (Job_Results j) -> keeps_shape j (set_result j i f).
Proof.
  intros Hi. destruct (index_in_range _ _ Hi) as [ r Hr ].
  rewrite (set_result_Ok _ _ _ _ Hr). cbn. split; [ reflexivity | apply length_insert ].
Qed.

Lemma keeps_shape_bind j m f :
  keeps_shape j m ->
  (forall j', Job_Cases j' = Job_Cases j ->
              length (Job_Results j') = length (Job_Results j) -> keeps_shape j' (f j')) ->
  keeps_shape j (m ≫= f).
Proof.
  intros Hm Hf. destruct m as [ j' | why ]; cbn; [ | exact Hm ].
  destruct Hm as [ Hc Hr ]. specialize (Hf j' Hc Hr). unfold keeps_shape in *.
  destruct (f j') as [ j'' | why ]; [ | exact Hf ].
  destruct Hf as [ Hc' Hr' ]. split; congruence.
Qed.

Lemma keeps_shape_refl j : keeps_shape j (Ok j).
Proof. split; reflexivity. Qed.

Lemma set_result_shape' j j0 i f :
  length (Job_Results j) = length (Job_Results j0) ->
  0 <= i < len (Job_Results j0) -> keeps_shape j (set_result j i f).
Proof. intros Hlen Hi. apply set_result_shape. unfold len in *. lia. Qed.

Lemma record_run_shape i output j :
  0 <= int64 (i + 1) < len (Job_Results j) -> keeps_shape j (record_run i output j).
Proof.
  intros Hi. unfold record_run.
  apply keeps_shape_bind.
  { destruct (negb _); [ apply set_result_shape; exact Hi | apply keeps_shape_refl ]. }
  intros j1 _ Hr1. apply keeps_shape_bind.
  { eapply set_result_shape'; [ exact Hr1 | exact Hi ]. }
  intros j2 _ Hr2. rewrite Hr1 in Hr2.
  repeat match goal with
         | |- context [if ?b then _ else _] => destruct b
         end;
    first [ apply keeps_shape_refl | eapply set_result_shape'; [ exact Hr2 | exact Hi ] ].
Qed.

Lemma record_verdict_shape i output status j :
  0 <= i < len (Job_Cases j) ->
  0 <= int64 (i + 1) < len (Job_Results j) ->
  keeps_shape j (record_verdict i output status j).
Proof.
  intros Hc Hi. unfold record_verdict.
  apply keeps_shape_bind; [ apply set_result_shape; exact Hi | ].
  intros j1 Hc1 Hr1. destruct (status =? ST_ACCEPTED); [ | apply keeps_shape_refl ].
  unfold case_at. destruct (index_in_range (Job_Cases j1) i) as [ c Hci ];
    [ rewrite Hc1; exact Hc | ].
  rewrite Hci. cbn. eapply set_result_shape'; [ exact Hr1 | exact Hi ].
Qed.

Lemma judge_case_panics j i output why :
  0 <= i < len (Job_Cases j) ->
  judge_case w tempDir j i output = Panics why -> why = JudgersOutOfRange.
Proof.
  intros Hi. destruct (index_in_range _ _ Hi) as [ c Hc ].
  unfold judge_case, case_at. rewrite Hc. cbn.
  repeat match goal with
         | |- context [if ?b then _ else _] => destruct b
         end; try discriminate.
  destruct (index (judgers w) _); cbn; [ | intros H; injection H as <-; reflexivity ].
  destruct (AnyJudger_Clone _); discriminate.
Qed.

(** One case, at an index within the cases, stays within bounds. *)
Lemma in_bounds_runOne i env k :
  0 <= i < n ->
  in_bounds (job_shape n) k ->
  in_bounds (job_shape n) (runOne w tempDir executable i env k).
Proof.
  intros Hi Hk. constructor. intros s Hs. split; [ exact Hs | ]. cbn.
  destruct Hs as (Hc & Hr & Hn).
  destruct (index_in_range (Job_Cases (job s)) i) as [ c Hci ]; [ lia | ].
  unfold case_at. rewrite Hci. cbn [or_panic].
  assert (Hi1 : int64 (i + 1) = i + 1) by (apply int64_small; lia).
  apply in_bounds_update.
  { intros j Hjc Hjr. apply set_result_shape. lia. }
  destruct (Run _ env) as [ output | | ]; [ | constructor; discriminate | constructor ].
  apply in_bounds_update.
  { intros j Hjc Hjr. apply record_run_shape. lia. }
  destruct (Output_Status output =? ST_ACCEPTED); [ | exact Hk ].
  constructor. intros s2 Hs2. split; [ exact Hs2 | ]. cbn.
  destruct Hs2 as (Hc2 & Hr2 & _).
  destruct (judge_case w tempDir (job s2) i output) as [ status | why ] eqn:Hjudge.
  - apply in_bounds_update; [ | exact Hk ].
    intros j Hjc Hjr. apply record_verdict_shape; lia.
  - apply judge_case_panics in Hjudge; [ | lia ]. subst why. constructor; discriminate.
Qed.

Lemma in_bounds_run_group group : forall h m k,
  Forall (fun g => 1 <= g <= n) group ->
  n + 1 < 2 ^ 63 ->
  in_bounds (job_shape n) k ->
  in_bounds (job_shape n) (run_group w tempDir executable group h m k).
Proof.
  induction group as [ | g group IH ]; intros h m k Hgroup Hn Hk; cbn; [ exact Hk | ].
  inversion Hgroup as [ | g' group' Hg Hrest ]; subst.
  rewrite int64_small by lia.
  apply in_bounds_runOne; [ lia | ]. apply IH; assumption.
Qed.

End Bounds.

Lemma int64_range (x : Z) : - 2 ^ 63 <= int64 x < 2 ^ 63.
Proof.
  unfold int64. pose proof (Z.mod_pos_bound (x + 2 ^ 63) (2 ^ 64)). lia.
Qed.

Lemma int64_pred_out_of_range (g n : Z) :
  - 2 ^ 63 <= g < 2 ^ 63 -> n < 2 ^ 63 -> ~ (1 <= g <= n) -> ~ (0 <= int64 (g - 1) < n).
Proof.
  intros Hg Hn Hout. destruct (Z.eq_dec g (- 2 ^ 63)) as [ -> | Hne ].
  - vm_compute int64. lia.
  - rewrite int64_small by lia. lia.
Qed.

(** C10. The packed dispatch takes each entry [g] of a group for the case
    [g-1] and reads [Cases[g-1]] and [Results[g]] with no check.  When all
    entries of all groups are between 1 and the number of cases, no
    goroutine of the dispatch, however they are scheduled, panics on an
    index of [Cases] or [Results]; when the first entry of some group is
    outside (0, or the number of cases plus 1), the goroutine of that
    group panics on [Cases] and takes the program down. *)
Theorem packed_dispatch_bounds :
  (forall (w : worker) (tempDir executable : gostring) (h : nat -> nat -> RunEnv)
          (s : Shared) (groups : list (list Z)) (n : Z) (p' : Prog) (s' : Shared),
      job_shape n s ->
      Job_Groups (job s) = Some groups ->
      Forall (Forall (fun g => 1 <= g <= n)) groups ->
      rtc step (runPacked w tempDir executable h Ret, s) (p', s') ->
      p' <> Crash CasesOutOfRange /\ p' <> Crash ResultsOutOfRange)
  /\ (forall (w : worker) (tempDir executable : gostring) (h : nat -> nat -> RunEnv)
             (s : Shared) (groups : list (list Z)) (n : Z) (u : nat) (g : Z) (rest : list Z),
         job_shape n s ->
         Job_Groups (job s) = Some groups ->
         groups !! u = Some (g :: rest) ->
         - 2 ^ 63 <= g < 2 ^ 63 ->
         ~ (1 <= g <= n) ->
         rtc step (runPacked w tempDir executable h Ret, s) (Crash CasesOutOfRange, s)).
Proof.
  split.
  - intros w tempDir executable h s groups n p' s' Hs Hgroups Hall Hrun.
    inversion Hrun as [ | c0 c1 c2 Hstep Hrest ]; subst; [ split; discriminate | ].
    assert (Hsafe : in_bounds (job_shape n) p').
    { unfold runPacked in Hstep. apply step_atomic_inv in Hstep. subst c1.
      cbn [fst snd] in Hrest. rewrite Hgroups in Hrest.
      apply (in_bounds_rtc (job_shape n)) in Hrest; [ exact (proj1 Hrest) | | exact Hs ].
      cbn. constructor; [ | constructor ].
      apply Forall_lookup. intros u t Hu. rewrite list_lookup_imap in Hu.
      destruct (groups !! u) as [ group | ] eqn:Hgroup; [ | discriminate ].
      injection Hu as <-. rewrite Forall_lookup in Hall.
      apply in_bounds_run_group;
        [ exact (Hall u group Hgroup) | destruct Hs as (_ & _ & Hn); exact Hn | constructor ]. }
    split; intros ->; apply in_bounds_not_Crash in Hsafe; tauto.
  - intros w tempDir executable h s groups n u g rest Hs Hgroups Hu Hg Hout.
    destruct Hs as (Hc & Hr & Hn).
    assert (Hcase : case_at (job s) (int64 (g - 1)) = Panics CasesOutOfRange).
    { unfold case_at. rewrite index_None; [ reflexivity | ].
      rewrite Hc. apply int64_pred_out_of_range; [ exact Hg | lia | exact Hout ]. }
    eapply rtc_l; [ apply step_atomic | ]. cbn [fst snd]. rewrite Hgroups.
    eapply rtc_l.
    { eapply step_par_child with (i := u).
      - rewrite list_lookup_imap, Hu. reflexivity.
      - cbn [run_group]. unfold runOne. apply step_atomic. }
    cbn [fst snd]. rewrite Hcase.
    apply rtc_once. apply step_par_crash.
    apply list_elem_of_lookup. exists u. apply list_lookup_insert_eq.
    rewrite length_imap. eapply lookup_lt_Some. exact Hu.
Qed.

Lemma packed_dispatch_bounds_witness :
  (forall p' s',
      rtc step (runPacked gcc_worker (lit "/tmp/isfj/job_A") (lit "/tmp/isfj/job_A/exe_B")
                  prints_3 Ret, two_sums_grouped [[1; 2]]) (p', s') ->
      p' <> Crash CasesOutOfRange /\ p' <> Crash ResultsOutOfRange)
  /\ rtc step (runPacked gcc_worker (lit "/tmp/isfj/job_A") (lit "/tmp/isfj/job_A/exe_B")
                 prints_3 Ret, two_sums_grouped [[1]; [0; 2]])
       (Crash CasesOutOfRange, two_sums_grouped [[1]; [0; 2]])
  /\ rtc step (runPacked gcc_worker (lit "/tmp/isfj/job_A") (lit "/tmp/isfj/job_A/exe_B")
                 prints_3 Ret, two_sums_grouped [[3]])
       (Crash CasesOutOfRange, two_sums_grouped [[3]]).
Proof.
  split; [ | split ].
  - intros p' s' Hrun.
    apply (proj1 packed_dispatch_bounds gcc_worker (lit "/tmp/isfj/job_A")
             (lit "/tmp/isfj/job_A/exe_B") prints_3 (two_sums_grouped [[1; 2]]) [[1; 2]] 2
             p' s').
    + repeat split.
    + reflexivity.
    + repeat constructor; lia.
    + exact Hrun.
  - apply (proj2 packed_dispatch_bounds gcc_worker (lit "/tmp/isfj/job_A")
             (lit "/tmp/isfj/job_A/exe_B") prints_3 (two_sums_grouped [[1]; [0; 2]])
             [[1]; [0; 2]] 2 1%nat 0 [2]).
    + repeat split.
    + reflexivity.
    + reflexivity.
    + lia.
    + lia.
  - apply (proj2 packed_dispatch_bounds gcc_worker (lit "/tmp/isfj/job_A")
             (lit "/tmp/isfj/job_A/exe_B") prints_3 (two_sums_grouped [[3]])
             [[3]] 2 0%nat 3 []).
    + repeat split.
    + reflexivity.
    + reflexivity.
    + lia.
    + lia.
Defined.

(* ===================================================================== *)
(** * Properties: a compilation that does not succeed *)
(* ===================================================================== *)

Lemma index_insert_ne {A} (l : list A) (i k : Z) (y : A) :
  0 <= i -> i <> k -> index (<[Z.to_nat i := y]> l) k = index l k.
Proof.
  intros Hi Hne. unfold index. destruct (k <? 0) eqn:Hk; [ reflexivity | ].
  apply Z.ltb_ge in Hk. apply list_lookup_insert_ne. lia.
Qed.

(** The marking loop sets the status of every slot from [i] on, and of
    no other; it leaves the rest of the job as it was. *)
Lemma mark_loop_spec (n : nat) : forall (i : Z) (st : Status) (j j' : Job),
  0 <= i -> i + Z.of_nat n < 2 ^ 63 ->
  mark_loop n i st j = Ok j' ->
  Job_Status j' = Job_Status j
  /\ forall k, index (Job_Results j') k
               = if (i <=? k) && (k <? i + Z.of_nat n)
                 then (fun r => set_Result_Status r st) <$> index (Job_Results j) k
                 else index (Job_Results j) k.
Proof.
  induction n as [ | n IH ]; intros i st j j' Hi Hn H; cbn [mark_loop] in H.
  - injection H as <-. split; [ reflexivity | ]. intros k.
    destruct (Z.leb_spec i k), (Z.ltb_spec k (i + Z.of_nat 0)); cbn; try reflexivity. lia.
  - destruct (set_result j i (fun r => set_Result_Status r st)) as [ j1 | why ] eqn:Hj1;
      [ | discriminate ].
    cbn in H. rewrite int64_small in H by lia.
    apply IH in H as [ Hst Hk ]; [ | lia | lia ].
    unfold set_result, modify_at in Hj1.
    destruct (index (Job_Results j) i) as [ r | ] eqn:Hr; [ | discriminate ].
    cbn in Hj1. injection Hj1 as <-. cbn in Hst, Hk.
    split; [ exact Hst | ]. intros k. rewrite Hk.
    destruct (Z.eq_dec i k) as [ <- | Hne ].
    + rewrite (index_insert _ _ _ _ Hr), Hr.
      destruct (Z.leb_spec (i + 1) i), (Z.leb_spec i i), (Z.ltb_spec i (i + Z.of_nat (S n)));
        cbn; try reflexivity; lia.
    + rewrite (index_insert_ne _ _ _ _ Hi Hne).
      destruct (Z.leb_spec (i + 1) k), (Z.leb_spec i k),
        (Z.ltb_spec k (i + 1 + Z.of_nat n)), (Z.ltb_spec k (i + Z.of_nat (S n)));
        cbn; try reflexivity; lia.
Qed.

(** What [run] leaves after a compilation that did not succeed: the status
    of the job is the outcome, and every slot, the first one too, is marked
    as skipped. *)
Lemma compile_failed_spec (status : Status) (output : gostring) (j j' : Job) :
  len (Job_Results j) < 2 ^ 63 ->
  compile_failed status output j = Ok j' ->
  Job_Status j' = status
  /\ (forall k r, index (Job_Results j') k = Some r -> Result_Status r = ST_SKIPPED)
  /\ (exists r, index (Job_Results j') 0 = Some r
                /\ Result_Status r = ST_SKIPPED /\ Result_Extra r = output).
Proof.
  intros Hlen H. unfold compile_failed in H.
  destruct (set_result j 0 (fun r => set_Result_Extra r output)) as [ j1 | why ] eqn:Hj1;
    [ | discriminate ].
  cbn in H. pose proof Hj1 as Hframe.
  apply set_result_frame in Hframe as (_ & _ & _ & _ & _ & Hlen1 & r0 & Hr0 & Hr1).
  apply mark_loop_spec in H as [ Hst Hk ]; [ | lia | cbn; unfold len in Hlen; lia ].
  cbn in Hst, Hk. split; [ exact Hst | ].
  assert (Hall : forall k r, index (Job_Results j') k = Some r -> Result_Status r = ST_SKIPPED).
  { intros k r Hkr. pose proof (index_range _ _ _ Hkr) as Hrange.
    rewrite Hk in Hkr.
    destruct ((0 <=? k) && (k <? 0 + Z.of_nat (length (Job_Results j1)))) eqn:Htest.
    - destruct (index (Job_Results j1) k); cbn in Hkr; [ | discriminate ].
      injection Hkr as <-. reflexivity.
    - pose proof (index_range _ _ _ Hkr) as Hrange1. unfold len in Hrange1.
      apply andb_false_iff in Htest as [ Htest | Htest ];
        [ apply Z.leb_gt in Htest | apply Z.ltb_ge in Htest ]; lia. }
  split; [ exact Hall | ].
  specialize (Hk 0). rewrite Hr1 in Hk. cbn in Hk.
  pose proof (index_range _ _ _ Hr1) as Hrange. unfold len in Hrange.
  destruct (0 <? 0 + Z.of_nat (length (Job_Results j1))) eqn:Htest;
    [ | apply Z.ltb_ge in Htest; lia ].
  cbn in Hk. eexists. split; [ exact Hk | ]. split; reflexivity.
Qed.

(** C1 fails on the code. The job of two cases is compiled with an error.
    When [run] is done the status of the job is the compile error and the
    diagnostic is in [results[0].extra], but [results[0].status] is
    skipped, as the status of the two other results is: the loop that marks
    the results as skipped starts at the slot 0, which holds the compile
    outcome. *)
Theorem compile_error_slot_is_skipped :
  let end_ := exec (run gcc_worker (lit "/tmp/isfj/job_A") rejected Ret) two_sums_scheduled in
  end_.1 = Ret
  /\ Job_Status (job end_.2) = ST_COMPILATION_ERROR
  /\ map Result_Status (Job_Results (job end_.2)) = [ST_SKIPPED; ST_SKIPPED; ST_SKIPPED]
  /\ map Result_Extra (Job_Results (job end_.2)) = [lit "error: expected ';'"; []; []].
Proof. vm_compute. repeat split. Qed.

(* ===================================================================== *)
(** * Properties: cancelling a task that a worker has taken *)
(* ===================================================================== *)

Lemma run_schedule_reaches sched p s d :
  is_Some (run_schedule sched p s) ->
  rtc step (p, s) (match run_schedule sched p s with Some c => c | None => d end).
Proof.
  destruct (run_schedule sched p s) as [ c | ] eqn:H; [ | intros [ c Hc ]; discriminate ].
  intros _. eapply run_schedule_sound. exact H.
Qed.

(** The worker checks the ledger, then the owner cancels the task. *)
Lemma race_reaches_cancelled : rtc step (racing, two_sums_watched) cancelled_state.
Proof. apply run_schedule_reaches. apply is_Some_alt. vm_compute. exact I. Qed.

(** Then the worker runs the task to its end. *)
Lemma race_goes_on : rtc step cancelled_state raced_state.
Proof.
  unfold raced_state. rewrite (surjective_pairing cancelled_state) at 1.
  apply run_schedule_reaches. apply is_Some_alt. vm_compute. exact I.
Qed.

(** C2 fails on the code. [worker.poll] looks the id up with
    [ContainsTask] and removes it with [removeTask], under the lock of the
    engine each time but not under one lock for both.  Here the owner of a
    task cancels it between the two: [CancelTask] finds the id and marks the
    job and its results as cancelled, and the worker then runs the task to
    its end, as the listener sees. *)
Theorem cancelled_task_is_run :
  ContainsTask 0 two_sums_watched = true
  /\ rtc step (racing, two_sums_watched) cancelled_state
  /\ ContainsTask 0 cancelled_state.2 = false
  /\ Job_Status (job cancelled_state.2) = ST_CANCELLED
  /\ map Result_Status (Job_Results (job cancelled_state.2))
     = [ST_CANCELLED; ST_CANCELLED; ST_CANCELLED]
  /\ rtc step cancelled_state raced_state
  /\ raced_state.1 = Ret
  /\ map Job_Status (delivered raced_state.2)
     = [ST_CANCELLED; ST_RUNNING; ST_RUNNING; ST_RUNNING; ST_RUNNING; ST_RUNNING;
        ST_RUNNING; ST_RUNNING; ST_RUNNING; ST_ACCEPTED]
  /\ map Result_Status (Job_Results (job raced_state.2))
     = [ST_COMPILATION_SUCCESS; ST_ACCEPTED; ST_ACCEPTED].
Proof.
  split; [ reflexivity | ].
  split; [ exact race_reaches_cancelled | ].
  split; [ vm_compute; reflexivity | ].
  split; [ vm_compute; reflexivity | ].
  split; [ vm_compute; reflexivity | ].
  split; [ exact race_goes_on | ].
  split; [ vm_compute; reflexivity | ].
  split; vm_compute; reflexivity.
Qed.

(** C3 fails on the code, by the same defect. After the owner has
    cancelled the task its job is finished; the worker that had seen the id
    before then runs the task, so that a later snapshot has another status
    than the finished one, and the listener is called with jobs that were
    modified after the finished one it was given first. *)
Theorem finished_job_is_modified :
  rtc step (racing, two_sums_watched) cancelled_state
  /\ Finished (SnapJob cancelled_state.2) = true
  /\ delivered cancelled_state.2 = [SnapJob cancelled_state.2]
  /\ rtc step cancelled_state raced_state
  /\ Job_Status (SnapJob cancelled_state.2) = ST_CANCELLED
  /\ Job_Status (SnapJob raced_state.2) = ST_ACCEPTED
  /\ SnapJob raced_state.2 <> SnapJob cancelled_state.2
  /\ exists later,
       delivered raced_state.2 = SnapJob cancelled_state.2 :: later
       /\ Forall (fun j => j <> SnapJob cancelled_state.2) later
       /\ length later = 9%nat.
Proof.
  split; [ exact race_reaches_cancelled | ].
  split; [ vm_compute; reflexivity | ].
  split; [ vm_compute; reflexivity | ].
  split; [ exact race_goes_on | ].
  split; [ vm_compute; reflexivity | ].
  split; [ vm_compute; reflexivity | ].
  split; [ intros H; apply (f_equal Job_Status) in H; vm_compute in H; discriminate | ].
  exists (tail (delivered raced_state.2)).
  split; [ vm_compute; reflexivity | ].
  split; [ | vm_compute; reflexivity ].
  apply Forall_forall. intros j Hj H. subst j.
  apply list_elem_of_fmap_2 with (f := Job_Status) in Hj.
  vm_compute in Hj.
  repeat (apply elem_of_cons in Hj as [ Hj | Hj ]; [ discriminate | ]).
  apply elem_of_nil in Hj. exact Hj.
Qed.

(* ===================================================================== *)
(** * Properties: the lax judger *)
(* ===================================================================== *)

(** The loops of [splitLinesAndTrim] and [LaxJudge] are a map and an
    equality test. *)
Lemma trim_loop_map (n : nat) : forall (i : nat) (lines : list gostring),
  (i + n)%nat = length lines ->
  trim_loop n i lines = take i lines ++ map TrimSpace (drop i lines).
Proof.
  induction n as [ | n IH ]; intros i lines Hlen; cbn [trim_loop].
  - rewrite drop_ge, take_ge by lia. cbn. rewrite app_nil_r. reflexivity.
  - destruct (lines !! i) as [ l | ] eqn:Hl;
      [ | apply lookup_ge_None_1 in Hl; lia ].
    rewrite IH by (rewrite length_insert; lia).
    rewrite (take_S_r _ _ (TrimSpace l))
      by (apply list_lookup_insert_eq; eapply lookup_lt_Some; exact Hl).
    rewrite take_insert_ge by lia. rewrite drop_insert_lt by lia.
    rewrite (drop_S lines l i Hl). cbn. rewrite <- app_assoc. reflexivity.
Qed.

Lemma splitLinesAndTrim_lax_lines (s : gostring) : splitLinesAndTrim s = lax_lines s.
Proof.
  unfold splitLinesAndTrim, lax_lines, DeleteFunc.
  rewrite trim_loop_map by reflexivity. cbn [take drop app].
  apply List.filter_ext. intros [ | c l ]; reflexivity.
Qed.

Lemma compare_loop_eq (n : nat) : forall (i : nat) (g e : list gostring),
  (i + n)%nat = length g -> length g = length e ->
  (compare_loop n i g e = true <-> drop i g = drop i e).
Proof.
  induction n as [ | n IH ]; intros i g e Hlen Hge; cbn [compare_loop].
  - rewrite !drop_ge by lia. tauto.
  - destruct (g !! i) as [ a | ] eqn:Ha; [ | apply lookup_ge_None_1 in Ha; lia ].
    destruct (e !! i) as [ b | ] eqn:Hb; [ | apply lookup_ge_None_1 in Hb; lia ].
    rewrite (drop_S g a i Ha), (drop_S e b i Hb).
    destruct (bool_decide_reflect (a = b)) as [ -> | Hne ].
    + rewrite IH by lia. split; [ intros ->; reflexivity | intros H; injection H; tauto ].
    + split; [ discriminate | intros H; injection H; intros; contradiction ].
Qed.

Lemma LaxJudge_lax_lines (got expected : gostring) :
  LaxJudge got expected = true <-> lax_lines got = lax_lines expected.
Proof.
  unfold LaxJudge. rewrite !splitLinesAndTrim_lax_lines.
  destruct (Nat.eqb_spec (length (lax_lines got)) (length (lax_lines expected))) as [ Hlen | Hlen ];
    cbn [negb].
  - rewrite compare_loop_eq by (cbn; lia). cbn [drop]. tauto.
  - split; [ discriminate | intros H; rewrite H in Hlen; contradiction ].
Qed.

(** Splitting lines. *)
Lemma Split_nonempty (s : gostring) (sep : rune) : Split s sep <> [].
Proof.
  destruct s as [ | c s ]; cbn; [ discriminate | ].
  destruct (c =? sep); [ discriminate | ]. destruct (Split s sep); discriminate.
Qed.

Lemma Split_app_sep (a b : gostring) (sep : rune) :
  Split (a ++ sep :: b) sep = Split a sep ++ Split b sep.
Proof.
  induction a as [ | c a IH ]; cbn.
  - rewrite Z.eqb_refl. reflexivity.
  - destruct (c =? sep); [ rewrite IH; reflexivity | ].
    rewrite IH. pose proof (Split_nonempty a sep) as Hne.
    destruct (Split a sep) as [ | l ls ]; [ contradiction | reflexivity ].
Qed.

Lemma Split_cons_other (c : rune) (s : gostring) (sep : rune) :
  c <> sep ->
  exists l ls, Split s sep = l :: ls /\ Split (c :: s) sep = (c :: l) :: ls.
Proof.
  intros Hc. cbn. apply Z.eqb_neq in Hc. rewrite Hc.
  pose proof (Split_nonempty s sep) as Hne.
  destruct (Split s sep) as [ | l ls ]; [ contradiction | ].
  exists l, ls. split; reflexivity.
Qed.

Lemma Split_snoc_other (c : rune) (s : gostring) (sep : rune) :
  c <> sep ->
  exists ls l, Split s sep = ls ++ [l] /\ Split (s ++ [c]) sep = ls ++ [l ++ [c]].
Proof.
  intros Hc. induction s as [ | x s IH ]; cbn.
  - apply Z.eqb_neq in Hc. rewrite Hc. exists [], []. split; reflexivity.
  - destruct IH as (ls & l & Hs & Hsc). rewrite Hs, Hsc.
    destruct (x =? sep).
    + exists ([] :: ls), l. split; reflexivity.
    + destruct ls as [ | l0 ls ]; cbn.
      * exists [], (x :: l). split; reflexivity.
      * exists ((x :: l0) :: ls), l. split; reflexivity.
Qed.

(** Trimming. *)
Lemma TrimSpace_cons (c : rune) (l : gostring) :
  IsSpace c = true -> TrimSpace (c :: l) = TrimSpace l.
Proof. intros Hc. unfold TrimSpace. cbn. rewrite Hc. reflexivity. Qed.

Lemma TrimLeftFunc_all (f : rune -> bool) (l : gostring) :
  forallb f l = true -> TrimLeftFunc f l = [].
Proof.
  induction l as [ | x l IH ]; cbn; [ reflexivity | ].
  destruct (f x); [ exact IH | discriminate ].
Qed.

Lemma TrimLeftFunc_snoc (f : rune -> bool) (l : gostring) (c : rune) :
  f c = true ->
  TrimLeftFunc f (l ++ [c]) = if forallb f l then [] else TrimLeftFunc f l ++ [c].
Proof.
  intros Hc. induction l as [ | x l IH ]; cbn.
  - rewrite Hc. reflexivity.
  - destruct (f x); [ exact IH | reflexivity ].
Qed.

Lemma TrimSpace_snoc (c : rune) (l : gostring) :
  IsSpace c = true -> TrimSpace (l ++ [c]) = TrimSpace l.
Proof.
  intros Hc. unfold TrimSpace. rewrite (TrimLeftFunc_snoc _ _ _ Hc).
  destruct (forallb IsSpace l) eqn:Hall.
  - rewrite (TrimLeftFunc_all _ _ Hall). reflexivity.
  - unfold TrimRightFunc. rewrite rev_unit. cbn. rewrite Hc. reflexivity.
Qed.

Lemma TrimSpace_nil : TrimSpace [] = [].
Proof. reflexivity. Qed.

(** The lines that the lax judger compares. *)
Lemma lax_lines_nil : lax_lines [] = [].
Proof. reflexivity. Qed.

Lemma lax_lines_app_newline (a b : gostring) :
  lax_lines (a ++ newline :: b) = lax_lines a ++ lax_lines b.
Proof.
  unfold lax_lines. rewrite Split_app_sep, List.map_app, List.filter_app. reflexivity.
Qed.

Lemma lax_lines_cons_space (c : rune) (s : gostring) :
  IsSpace c = true -> lax_lines (c :: s) = lax_lines s.
Proof.
  intros Hc. destruct (Z.eq_dec c newline) as [ -> | Hne ].
  - change (newline :: s) with ([] ++ newline :: s). rewrite lax_lines_app_newline.
    reflexivity.
  - destruct (Split_cons_other c s newline Hne) as (l & ls & Hs & Hcs).
    unfold lax_lines. rewrite Hs, Hcs. cbn [map List.filter].
    rewrite (TrimSpace_cons _ _ Hc). reflexivity.
Qed.

Lemma lax_lines_snoc_space (c : rune) (s : gostring) :
  IsSpace c = true -> lax_lines (s ++ [c]) = lax_lines s.
Proof.
  intros Hc. destruct (Z.eq_dec c newline) as [ -> | Hne ].
  - rewrite lax_lines_app_newline, lax_lines_nil, app_nil_r. reflexivity.
  - destruct (Split_snoc_other c s newline Hne) as (ls & l & Hs & Hsc).
    unfold lax_lines. rewrite Hs, Hsc, !List.map_app, !List.filter_app.
    cbn [map List.filter]. rewrite (TrimSpace_snoc _ _ Hc). reflexivity.
Qed.

(** One character of white space more at the edge of a line. *)
Lemma lax_lines_insert_char (a b : gostring) (c : rune) :
  IsSpace c = true -> line_edge a b -> lax_lines (a ++ c :: b) = lax_lines (a ++ b).
Proof.
  intros Hc [ -> | [ Ha | [ -> | Hb ] ] ].
  - cbn [app]. apply lax_lines_cons_space. exact Hc.
  - apply last_Some in Ha as [ a' -> ]. rewrite <- !app_assoc. cbn [app].
    rewrite !lax_lines_app_newline, (lax_lines_cons_space _ _ Hc). reflexivity.
  - rewrite app_nil_r. apply lax_lines_snoc_space. exact Hc.
  - destruct b as [ | x b ]; [ discriminate | ]. cbn in Hb. injection Hb as ->.
    change (a ++ c :: newline :: b) with (a ++ [c] ++ newline :: b).
    rewrite app_assoc, !lax_lines_app_newline, (lax_lines_snoc_space _ _ Hc). reflexivity.
Qed.

(** White space more at the edge of a line, blank lines among it. *)
Lemma lax_lines_insert (a w b : gostring) :
  whitespace w -> line_edge a b -> lax_lines (a ++ w ++ b) = lax_lines (a ++ b).
Proof.
  intros Hw Hedge.
  assert (Hleft : forall a, a = [] \/ last a = Some newline ->
                            lax_lines (a ++ w ++ b) = lax_lines (a ++ b)).
  { clear a Hedge. induction Hw as [ | c w Hc Hw IH ]; intros a Ha; [ reflexivity | ].
    cbn [app]. rewrite lax_lines_insert_char; [ apply IH; exact Ha | exact Hc | ].
    destruct Ha as [ Ha | Ha ]; [ left; exact Ha | right; left; exact Ha ]. }
  assert (Hright : forall b, b = [] \/ head b = Some newline ->
                             lax_lines (a ++ w ++ b) = lax_lines (a ++ b)).
  { clear b Hedge Hleft. induction w as [ | c w IH ] using rev_ind; intros b Hb;
      [ reflexivity | ].
    apply Forall_app in Hw as [ Hw Hc ]. apply Forall_cons in Hc as [ Hc _ ].
    rewrite <- app_assoc. cbn [app]. rewrite (app_assoc a w (c :: b)).
    rewrite lax_lines_insert_char;
      [ | exact Hc | right; right; exact Hb ].
    rewrite <- app_assoc. apply IH; assumption. }
  destruct Hedge as [ Ha | [ Ha | [ Hb | Hb ] ] ]; auto.
Qed.

Lemma LaxJudge_ext (g g' e e' : gostring) :
  lax_lines g = lax_lines g' -> lax_lines e = lax_lines e' ->
  LaxJudge g e = LaxJudge g' e'.
Proof.
  intros Hg He. apply eq_true_iff_eq. rewrite !LaxJudge_lax_lines, Hg, He. tauto.
Qed.

(** C7. [LaxJudge] accepts exactly when both sides, split on line feeds,
    each line trimmed of the white space around it and the empty lines
    dropped, are the same list of lines.  So it does not see white space
    (blank lines too) that is put in or taken out at the start or the end of
    a line, on either side, and [StrictJudge], the equality of the two
    strings, does. *)
Theorem LaxJudge_compares_trimmed_lines :
  (forall got expected : gostring,
      LaxJudge got expected = true <-> lax_lines got = lax_lines expected)
  /\ (forall a w b other : gostring,
         whitespace w -> line_edge a b ->
         LaxJudge (a ++ w ++ b) other = LaxJudge (a ++ b) other
         /\ LaxJudge other (a ++ w ++ b) = LaxJudge other (a ++ b))
  /\ (exists a w b other : gostring,
         whitespace w /\ line_edge a b
         /\ StrictJudge (a ++ w ++ b) other <> StrictJudge (a ++ b) other
         /\ StrictJudge other (a ++ w ++ b) <> StrictJudge other (a ++ b))
  /\ (forall got expected : gostring, StrictJudge got expected = true <-> got = expected).
Proof.
  split; [ exact LaxJudge_lax_lines | ]. split; [ | split ].
  - intros a w b other Hw Hedge.
    split; apply LaxJudge_ext; try reflexivity; apply lax_lines_insert; assumption.
  - exists (lit "3"), (lit " "), [], (lit "3").
    split; [ repeat constructor | ]. split; [ right; right; left; reflexivity | ].
    split; vm_compute; discriminate.
  - intros got expected. unfold StrictJudge. apply bool_decide_eq_true.
Qed.

(** The third scenario of the specification: the expected output is a 3
    and a line feed; the program prints the 3 between spaces, and a blank
    line. *)
Example lax_equivalence :
  LaxJudge [32; 32; 51; 32; 32; 10; 10] [51; 10] = true
  /\ StrictJudge [32; 32; 51; 32; 32; 10; 10] [51; 10] = false.
Proof. split; vm_compute; reflexivity. Qed.

(** White space that [unicode.IsSpace] knows outside ASCII is trimmed as
    well, and white space inside a line is kept. *)
Example lax_lines_unicode :
  lax_lines ([0x3000; 0xA0] ++ lit "a  b" ++ [0x2003; 13; 10; 0x85; 10] ++ lit "c")
  = [lit "a  b"; lit "c"].
Proof. vm_compute. reflexivity. Qed.

(* ===================================================================== *)
(** * The scenarios of the specification *)
(* ===================================================================== *)

(** A child over its time limit is killed, with the time that was
    sampled. *)
Example scenario_time_limit :
  Run timed_input child_spins
  = Returned (mkRunnerOutput ST_TIME_LIMIT_EXCEEDED [] (mkUsages 100391 12288) 0 0).
Proof. vm_compute. reflexivity. Qed.

(** A forbidden syscall: the case is hostile code, and the extra text
    names the syscall. *)
Example scenario_hostile_syscall :
  index (Job_Results
           (job (exec (runOne gcc_worker (lit "/tmp/isfj/job_A") (lit "/tmp/isfj/job_A/exe_B") 0
                         child_hostile Ret) two_sums_scheduled).2)) 1
  = Some (mkCaseResult ST_HOSTILE_CODE (mkUsages 0 0) 0
            (lit "Process killed due to malicious syscall 435")).
Proof. vm_compute. reflexivity. Qed.

(** A task that is cancelled before the worker looks at the ledger is
    dropped: the job and its results are cancelled, and nothing else is
    ever done to it. *)
Example scenario_cancel_before_execution :
  exists s,
    run_schedule cancel_first racing two_sums_watched = Some (Ret, s)
    /\ Job_Status (job s) = ST_CANCELLED
    /\ map Result_Status (Job_Results (job s)) = [ST_CANCELLED; ST_CANCELLED; ST_CANCELLED]
    /\ map Job_Status (delivered s) = [ST_CANCELLED].
Proof. eexists. split; [ vm_compute; reflexivity | ]. vm_compute. repeat split. Qed.

(* ===================================================================== *)
(** * More of models.go: modes and names *)
(* ===================================================================== *)

Lemma mod_64_mod_16 (a : Z) : (a mod 2 ^ 64) mod 2 ^ 16 = a mod 2 ^ 16.
Proof.
  change (2 ^ 64) with (2 ^ 16 * 2 ^ 48). rewrite Z.rem_mul_r by lia.
  rewrite (Z.mul_comm (2 ^ 16) ((a / 2 ^ 16) mod 2 ^ 48)), Z.mod_add by lia.
  apply Z.mod_mod. lia.
Qed.

Lemma uint16_int64 (x : Z) : uint16 (int64 x) = uint16 x.
Proof.
  unfold uint16, int64.
  rewrite Zminus_mod, mod_64_mod_16, <- Zminus_mod. f_equal. lia.
Qed.

Lemma MakeSpecialJudgeMode_any (id : Z) :
  MakeSpecialJudgeMode id = id mod 256 * 256 + 2.
Proof.
  unfold MakeSpecialJudgeMode, J_SPECIAL.
  rewrite Z.shiftl_mul_pow2 by lia. rewrite uint16_int64. unfold uint16.
  change (2 ^ 8) with 256. change (2 ^ 16) with (256 * 256).
  rewrite Z.mul_mod_distr_r by lia.
  pose proof (Z.mod_pos_bound id 256). apply Z.mod_small. lia.
Qed.

(** X1. [MakeSpecialJudgeMode] keeps the low eight bits of the id, whatever
    the id is: the mode bits are [J_SPECIAL], the judger id read back is
    the id modulo 256, and two ids that are 256 apart make the same mode. *)
Theorem MakeSpecialJudgeMode_wraps :
  forall id : Z,
    ModeBits (MakeSpecialJudgeMode id) = J_SPECIAL
    /\ JudgerId (MakeSpecialJudgeMode id) = id mod 256
    /\ MakeSpecialJudgeMode (id + 256) = MakeSpecialJudgeMode id.
Proof.
  intros id. rewrite !MakeSpecialJudgeMode_any.
  pose proof (Z.mod_pos_bound id 256) as Hid.
  unfold ModeBits, JudgerId, J_SPECIAL. repeat split.
  - change 0x00ff with (Z.ones 8). rewrite Z.land_ones by lia.
    change (2 ^ 8) with 256. rewrite Z.add_comm, Z.mod_add by lia. reflexivity.
  - rewrite Z.shiftr_land. change (Z.shiftr 0xff00 8) with (Z.ones 8).
    rewrite Z.land_ones by lia. rewrite Z.shiftr_div_pow2 by lia.
    change (2 ^ 8) with 256.
    replace ((id mod 256 * 256 + 2) / 256) with (id mod 256).
    + apply Z.mod_small. lia.
    + apply Z.div_unique with (r := 2); lia.
  - replace (id + 256) with (id + 1 * 256) by lia. rewrite Z.mod_add by lia. reflexivity.
Qed.

(** X2. A mode is made of its two bytes: for every 16-bit mode, the mode
    bits and the judger id are both below 256 and the mode is 256 times the
    judger id plus the mode bits. *)
Theorem JudgeMode_two_bytes (m : JudgeMode) :
  0 <= m < 2 ^ 16 ->
  0 <= ModeBits m < 256 /\ 0 <= JudgerId m < 256
  /\ m = JudgerId m * 256 + ModeBits m.
Proof.
  intros Hm. unfold ModeBits, JudgerId.
  change 0x00ff with (Z.ones 8). rewrite Z.land_ones by lia.
  rewrite Z.shiftr_land. change (Z.shiftr 0xff00 8) with (Z.ones 8).
  rewrite Z.land_ones by lia. rewrite Z.shiftr_div_pow2 by lia.
  change (2 ^ 8) with 256.
  assert (Hq : 0 <= m / 256 < 256).
  { split; [ apply Z.div_pos; lia | apply Z.div_lt_upper_bound; lia ]. }
  rewrite (Z.mod_small (m / 256)) by lia.
  pose proof (Z.mod_pos_bound m 256). pose proof (Z.div_mod m 256). lia.
Qed.

Lemma JudgeMode_two_bytes_witness :
  0 <= ModeBits 1794 < 256 /\ 0 <= JudgerId 1794 < 256
  /\ 1794 = JudgerId 1794 * 256 + ModeBits 1794.
Proof. apply (JudgeMode_two_bytes 1794). lia. Defined.

(** X3. No two statuses share an identifier, nor a label: [Ident] and
    [String] are one-to-one on the statuses they are defined for. *)
Theorem Ident_String_one_to_one :
  (forall (s s' : Status) (name : gostring),
      Ident s = Some name -> Ident s' = Some name -> s = s')
  /\ (forall (s s' : Status) (label : gostring),
         String_ s = Some label -> String_ s' = Some label -> s = s').
Proof.
  split; intros s s' name Hs Hs'.
  - assert (Hr : ST_WAITING <= s <= ST_SKIPPED) by (apply Ident_defined; eexists; exact Hs).
    assert (Hr' : ST_WAITING <= s' <= ST_SKIPPED) by (apply Ident_defined; eexists; exact Hs').
    rewrite <- Hs' in Hs. clear Hs' name.
    enumerate_status s H; enumerate_status s' H';
      first [ reflexivity | vm_compute in Hs; discriminate ].
  - assert (Hr : ST_WAITING <= s <= ST_SKIPPED) by (apply String_defined; eexists; exact Hs).
    assert (Hr' : ST_WAITING <= s' <= ST_SKIPPED) by (apply String_defined; eexists; exact Hs').
    rewrite <- Hs' in Hs. clear Hs' name.
    enumerate_status s H; enumerate_status s' H';
      first [ reflexivity | vm_compute in Hs; discriminate ].
Qed.

(* ===================================================================== *)
(** * More of judger.go: the lax judger as a relation *)
(* ===================================================================== *)

(** X4. [LaxJudge] is an equivalence of outputs, and a coarser one than
    [StrictJudge]: it accepts a string against itself, it does not depend
    on the order of its two arguments, it is transitive, and it accepts all
    that [StrictJudge] accepts. *)
Theorem LaxJudge_equivalence :
  (forall s : gostring, LaxJudge s s = true)
  /\ (forall a b : gostring, LaxJudge a b = LaxJudge b a)
  /\ (forall a b c : gostring,
         LaxJudge a b = true -> LaxJudge b c = true -> LaxJudge a c = true)
  /\ (forall a b : gostring, StrictJudge a b = true -> LaxJudge a b = true).
Proof.
  repeat apply conj.
  - intros s. apply LaxJudge_lax_lines. reflexivity.
  - intros a b. apply eq_true_iff_eq. rewrite !LaxJudge_lax_lines.
    split; intros H; symmetry; exact H.
  - intros a b c. rewrite !LaxJudge_lax_lines. intros -> ->. reflexivity.
  - intros a b H. apply bool_decide_eq_true in H. subst b.
    apply LaxJudge_lax_lines. reflexivity.
Qed.

Lemma TrimLeftFunc_suffix (f : rune -> bool) (l : gostring) :
  exists pre, l = pre ++ TrimLeftFunc f l.
Proof.
  induction l as [ | c l [ pre IH ] ]; cbn.
  - exists []. reflexivity.
  - destruct (f c); [ exists (c :: pre); cbn; f_equal; exact IH | exists []; reflexivity ].
Qed.

Lemma TrimLeftFunc_head (f : rune -> bool) (l : gostring) (c : rune) :
  head (TrimLeftFunc f l) = Some c -> f c = false.
Proof.
  induction l as [ | x l IH ]; cbn; [ discriminate | ].
  destruct (f x) eqn:Hx; [ exact IH | ]. cbn. intros H. injection H as <-. exact Hx.
Qed.

Lemma last_rev (l : gostring) : last (rev l) = head l.
Proof. destruct l as [ | c l ]; cbn; [ reflexivity | apply last_snoc ]. Qed.

Lemma TrimRightFunc_prefix (f : rune -> bool) (l : gostring) :
  exists post, l = TrimRightFunc f l ++ post.
Proof.
  unfold TrimRightFunc. destruct (TrimLeftFunc_suffix f (rev l)) as [ pre H ].
  exists (rev pre). rewrite <- rev_app_distr, <- H, rev_involutive. reflexivity.
Qed.

Lemma TrimRightFunc_last (f : rune -> bool) (l : gostring) (c : rune) :
  last (TrimRightFunc f l) = Some c -> f c = false.
Proof. unfold TrimRightFunc. rewrite last_rev. apply TrimLeftFunc_head. Qed.

Lemma TrimSpace_head (l : gostring) (c : rune) :
  head (TrimSpace l) = Some c -> IsSpace c = false.
Proof.
  unfold TrimSpace. destruct (TrimRightFunc_prefix IsSpace (TrimLeftFunc IsSpace l)) as [ post H ].
  intros Hc. apply (TrimLeftFunc_head IsSpace l). rewrite H.
  destruct (TrimRightFunc IsSpace (TrimLeftFunc IsSpace l)); [ discriminate | exact Hc ].
Qed.

Lemma TrimSpace_elem (l : gostring) (c : rune) : c ∈ TrimSpace l -> c ∈ l.
Proof.
  unfold TrimSpace. intros Hc.
  destruct (TrimRightFunc_prefix IsSpace (TrimLeftFunc IsSpace l)) as [ post H ].
  destruct (TrimLeftFunc_suffix IsSpace l) as [ pre H' ].
  rewrite H', H. apply elem_of_app. right. apply elem_of_app. left. exact Hc.
Qed.

Lemma Split_no_sep (s : gostring) (sep : rune) :
  Forall (fun l => sep ∉ l) (Split s sep).
Proof.
  induction s as [ | c s IH ]; cbn.
  - constructor; [ apply not_elem_of_nil | constructor ].
  - destruct (Z.eqb_spec c sep) as [ Hc | Hc ].
    + constructor; [ apply not_elem_of_nil | exact IH ].
    + destruct (Split s sep) as [ | l ls ].
      * constructor; [ | constructor ]. intros H. apply list_elem_of_singleton in H.
        congruence.
      * inversion IH as [ | l' ls' Hl Hls ]; subst. constructor; [ | exact Hls ].
        intros H. apply elem_of_cons in H as [ H | H ]; [ congruence | contradiction ].
Qed.

(** X5. The lines that [splitLinesAndTrim] returns are trimmed and not
    empty: none holds a line feed, and each begins and ends with a
    character that is not white space. *)
Theorem splitLinesAndTrim_trimmed :
  forall s : gostring,
    Forall (fun line =>
              line <> [] /\ (newline ∉ line)
              /\ (forall c, head line = Some c -> IsSpace c = false)
              /\ (forall c, last line = Some c -> IsSpace c = false))
      (splitLinesAndTrim s).
Proof.
  intros s. rewrite splitLinesAndTrim_lax_lines. unfold lax_lines.
  apply Forall_forall. intros line Hline. apply list_elem_of_In in Hline.
  apply List.filter_In in Hline as [ Hin Hne ].
  apply List.in_map_iff in Hin as (l0 & <- & Hl0). apply list_elem_of_In in Hl0.
  repeat split.
  - intros H. rewrite H in Hne. discriminate.
  - intros H. apply TrimSpace_elem in H.
    pose proof (Split_no_sep s newline) as Hall. rewrite Forall_forall in Hall.
    exact (Hall l0 Hl0 H).
  - apply TrimSpace_head.
  - intros c. unfold TrimSpace. apply TrimRightFunc_last.
Qed.

(* ===================================================================== *)
(** * More of runner.go: what [Run] reports *)
(* ===================================================================== *)

Lemma supervise_only_accepted limits ws : forall usages skipUsages deduction o,
  supervise limits ws usages skipUsages deduction = Returned o ->
  Output_Status o <> ST_ACCEPTED ->
  Output_Stdout o = [] /\ Output_Deduction o = 0.
Proof.
  induction ws as [ | w ws IH ]; intros usages skipUsages deduction o H Hne;
    cbn [supervise] in H; [ discriminate | ].
  supervise_cases H;
    try (injection H as <-; cbn in *; first [ contradiction | split; reflexivity ]);
    try (eapply IH; [ exact H | exact Hne ]).
Qed.

(** X6. [Run] hands on the output of the child and a deduction only with
    the status accepted: with every other status the output is empty and
    the deduction is 0. *)
Theorem Run_output_only_when_accepted (input : RunnerInput) (env : RunEnv) (o : RunnerOutput) :
  Run input env = Returned o ->
  Output_Status o <> ST_ACCEPTED ->
  Output_Stdout o = [] /\ Output_Deduction o = 0.
Proof.
  unfold Run, vforkExec. intros H Hne.
  destruct (pipe_stdin_err env); [ injection H as <-; split; reflexivity | ].
  destruct (pipe_stdout_err env); [ injection H as <-; split; reflexivity | ].
  destruct (start_process env); [ | discriminate ].
  destruct (start_err env); [ injection H as <-; split; reflexivity | ].
  eapply supervise_only_accepted; [ exact H | exact Hne ].
Qed.

Lemma Run_output_only_when_accepted_witness :
  Output_Stdout (mkRunnerOutput ST_HOSTILE_CODE [] (mkUsages 0 0) 0 435) = []
  /\ Output_Deduction (mkRunnerOutput ST_HOSTILE_CODE [] (mkUsages 0 0) 0 435) = 0.
Proof.
  apply (Run_output_only_when_accepted sum_input child_hostile).
  - reflexivity.
  - discriminate.
Defined.

Lemma supervise_limits limits ws : forall usages skipUsages deduction o,
  supervise limits ws usages skipUsages deduction = Returned o ->
  (Output_Status o = ST_TIME_LIMIT_EXCEEDED ->
   skipUsages = false /\ 0 < Limits_Time limits
   /\ Limits_Time limits < Usages_Time (Output_Usages o))
  /\ (Output_Status o = ST_MEMORY_LIMIT_EXCEEDED ->
      skipUsages = false
      /\ (0 < Limits_StackMemory limits \/ 0 < Limits_HeapMemory limits)
      /\ ~ (0 < Limits_Time limits /\ Limits_Time limits < Usages_Time (Output_Usages o))).
Proof.
  induction ws as [ | w ws IH ]; intros usages skipUsages deduction o H;
    cbn [supervise] in H; [ discriminate | ].
  destruct (IsAllUnlimited limits) eqn:Hall.
  - unfold IsAllUnlimited in Hall.
    supervise_cases H;
      try (injection H as <-; cbn; split; discriminate);
      try (apply IH in H; destruct H as [ H1 H2 ]; split; intros Hs;
           [ destruct (H1 Hs) as (? & ? & ?) | destruct (H2 Hs) as (? & ? & ?) ];
           repeat match goal with
                  | Hb : _ && _ = true |- _ => apply andb_true_iff in Hb as [ ? ? ]
                  | Hb : (_ =? _) = true |- _ => apply Z.eqb_eq in Hb
                  end; lia).
  - destruct skipUsages.
    + cbn [negb andb] in H.
      supervise_cases H;
        try (injection H as <-; cbn; split; discriminate);
        try (apply IH in H; destruct H as [ H1 H2 ]; split; intros Hs;
             [ destruct (H1 Hs) as (? & ? & ?) | destruct (H2 Hs) as (? & ? & ?) ];
             discriminate).
    + cbn [negb andb] in H.
      destruct ((0 <? Limits_Time limits)
                && (Limits_Time limits <? Usages_Time (updateUsages (poll_sample w) usages)))
        eqn:Htime.
      { injection H as <-. cbn. apply andb_true_iff in Htime as [ H1 H2 ].
        apply Z.ltb_lt in H1, H2. split; [ intros _; tauto | discriminate ]. }
      destruct (((0 <? Limits_StackMemory limits)
                 && (Limits_StackMemory limits <? sample_stack (poll_sample w)))
                || ((0 <? Limits_HeapMemory limits)
                    && (Limits_HeapMemory limits <? sample_heap (poll_sample w)))) eqn:Hmem.
      { injection H as <-. cbn. split; [ discriminate | ]. intros _.
        split; [ reflexivity | ]. split.
        - apply orb_true_iff in Hmem as [ Hm | Hm ];
            apply andb_true_iff in Hm as [ Hm _ ]; apply Z.ltb_lt in Hm; tauto.
        - intros [ H1 H2 ]. apply Z.ltb_lt in H1, H2. rewrite H1, H2 in Htime. discriminate. }
      supervise_cases H;
        try (injection H as <-; cbn; split; discriminate);
        try (apply IH in H; destruct H as [ H1 H2 ]; split; intros Hs;
             [ destruct (H1 Hs) as (? & ? & ?) | destruct (H2 Hs) as (? & ? & ?) ];
             first [ discriminate | tauto ]).
Qed.

(** X7. The verdicts of the limits. [Run] reports the time limit only
    when there is one and the time it reports is above it; it reports the
    memory limit only when there is one for the stack or the heap and the
    time limit is not passed; with no limit at all it reports neither; and
    once the stop at the exit of the child has been seen the loop reports
    neither. *)
Theorem Run_limit_verdicts :
  (forall input env o,
      Run input env = Returned o -> Output_Status o = ST_TIME_LIMIT_EXCEEDED ->
      0 < Limits_Time (Input_Limits input)
      /\ Limits_Time (Input_Limits input) < Usages_Time (Output_Usages o))
  /\ (forall input env o,
         Run input env = Returned o -> Output_Status o = ST_MEMORY_LIMIT_EXCEEDED ->
         (0 < Limits_StackMemory (Input_Limits input)
          \/ 0 < Limits_HeapMemory (Input_Limits input))
         /\ ~ (0 < Limits_Time (Input_Limits input)
               /\ Limits_Time (Input_Limits input) < Usages_Time (Output_Usages o)))
  /\ (forall input env o,
         IsAllUnlimited (Input_Limits input) = true ->
         Run input env = Returned o ->
         Output_Status o <> ST_TIME_LIMIT_EXCEEDED
         /\ Output_Status o <> ST_MEMORY_LIMIT_EXCEEDED)
  /\ (forall limits ws usages deduction o,
         supervise limits ws usages true deduction = Returned o ->
         Output_Status o <> ST_TIME_LIMIT_EXCEEDED
         /\ Output_Status o <> ST_MEMORY_LIMIT_EXCEEDED).
Proof.
  assert (Hrun : forall input env o,
             Run input env = Returned o ->
             o = system_error_output
             \/ supervise (Input_Limits input) (waits env) (mkUsages 0 0) false 0 = Returned o).
  { intros input env o H. unfold Run, vforkExec in H.
    destruct (pipe_stdin_err env); [ injection H as <-; left; reflexivity | ].
    destruct (pipe_stdout_err env); [ injection H as <-; left; reflexivity | ].
    destruct (start_process env); [ | discriminate ].
    destruct (start_err env); [ injection H as <-; left; reflexivity | right; exact H ]. }
  repeat apply conj.
  - intros input env o H Hs. destruct (Hrun _ _ _ H) as [ -> | Hsup ]; [ discriminate | ].
    apply supervise_limits in Hsup as [ H1 _ ]. destruct (H1 Hs) as (_ & ? & ?). tauto.
  - intros input env o H Hs. destruct (Hrun _ _ _ H) as [ -> | Hsup ]; [ discriminate | ].
    apply supervise_limits in Hsup as [ _ H2 ]. destruct (H2 Hs) as (_ & ? & ?). tauto.
  - intros input env o Hall H. destruct (Hrun _ _ _ H) as [ -> | Hsup ];
      [ split; discriminate | ].
    unfold IsAllUnlimited in Hall.
    apply andb_true_iff in Hall as [ Hall H3 ]. apply andb_true_iff in Hall as [ H1 H2 ].
    apply Z.eqb_eq in H1, H2, H3.
    apply supervise_limits in Hsup as [ HT HM ].
    split; intros Hs; [ destruct (HT Hs) as (_ & ? & ?) | destruct (HM Hs) as (_ & ? & ?) ]; lia.
  - intros limits ws usages deduction o H.
    apply supervise_limits in H as [ HT HM ].
    split; intros Hs; [ destruct (HT Hs) as (? & _) | destruct (HM Hs) as (? & _) ];
      discriminate.
Qed.

Example memory_limit_before_time :
  Run capped_input child_grows
  = Returned (mkRunnerOutput ST_MEMORY_LIMIT_EXCEEDED [] (mkUsages 10012 78192) 0 0).
Proof. vm_compute. reflexivity. Qed.

Lemma Exited_ExitStatus (w : Z) : Exited w = true -> 0 <= ExitStatus w <= 255.
Proof.
  intros H. unfold ExitStatus. rewrite H. change (negb true) with false. cbv iota.
  assert (Hland : Z.land (Z.shiftr w 8) 0xFF = Z.shiftr w 8 mod 256)
    by (change 0xFF with (Z.ones 8); rewrite Z.land_ones by lia; reflexivity).
  rewrite Hland. pose proof (Z.mod_pos_bound (Z.shiftr w 8) 256). lia.
Qed.

Lemma Signaled_Signal (w : Z) : Signaled w = true -> 1 <= Signal w <= 126.
Proof.
  intros H. unfold Signal. rewrite H. change (negb true) with false. cbv iota.
  unfold Signaled in H.
  apply andb_true_iff in H as [ H1 H2 ].
  apply negb_true_iff in H1, H2. apply Z.eqb_neq in H1, H2.
  assert (Hland : Z.land w 0x7F = w mod 128)
    by (change 0x7F with (Z.ones 7); rewrite Z.land_ones by lia; reflexivity).
  rewrite Hland in *. pose proof (Z.mod_pos_bound w 128). lia.
Qed.

Lemma Exited_not_Signaled (w : Z) : Exited w = true -> Signaled w = false.
Proof.
  unfold Exited, Signaled. intros H. rewrite H. cbn. apply andb_false_r.
Qed.

Lemma supervise_exit_info limits ws : forall usages skipUsages deduction o,
  supervise limits ws usages skipUsages deduction = Returned o ->
  (Output_Status o = ST_ACCEPTED -> 0 <= Output_ExitInfo o <= 255)
  /\ (Output_Status o = ST_RUNTIME_ERROR -> 1 <= Output_ExitInfo o <= 126)
  /\ (Output_Status o = ST_HOSTILE_CODE ->
      exists w, w ∈ ws /\ seccomp_RetData w = 0
                /\ Output_ExitInfo o = int64 (seccomp_Nr w))
  /\ (Output_Status o <> ST_ACCEPTED -> Output_Status o <> ST_RUNTIME_ERROR ->
      Output_Status o <> ST_HOSTILE_CODE -> Output_ExitInfo o = 0).
Proof.
  induction ws as [ | w ws IH ]; intros usages skipUsages deduction o H;
    cbn [supervise] in H; [ discriminate | ].
  supervise_cases H.
  all: try (apply IH in H; destruct H as (H1 & H2 & H3 & H4);
         split; [ | split; [ | split ] ]; try assumption;
         intros Hs; destruct (H3 Hs) as (w' & Hw' & Hrest);
         exists w'; split; [ apply list_elem_of_further; exact Hw' | exact Hrest ]).
  all: injection H as <-; cbn [Output_Status Output_ExitInfo].
  all: (split; [ | split; [ | split ] ]); intros;
    first [ discriminate
          | congruence
          | reflexivity
          | apply Exited_ExitStatus; assumption
          | apply Signaled_Signal; assumption
          | exists w; split; [ apply list_elem_of_here | ];
            split; [ apply Z.eqb_eq; assumption | reflexivity ] ].
Qed.

(** X8. The exit information of [Run]: an exit code from 0 to 255 with
    accepted, a signal from 1 to 126 with runtime error, the number of the
    syscall of a stop that asks for no deduction with hostile code, and 0
    with every other status. *)
Theorem Run_exit_info (input : RunnerInput) (env : RunEnv) (o : RunnerOutput) :
  Run input env = Returned o ->
  (Output_Status o = ST_ACCEPTED -> 0 <= Output_ExitInfo o <= 255)
  /\ (Output_Status o = ST_RUNTIME_ERROR -> 1 <= Output_ExitInfo o <= 126)
  /\ (Output_Status o = ST_HOSTILE_CODE ->
      exists w, w ∈ waits env /\ seccomp_RetData w = 0
                /\ Output_ExitInfo o = int64 (seccomp_Nr w))
  /\ (Output_Status o <> ST_ACCEPTED -> Output_Status o <> ST_RUNTIME_ERROR ->
      Output_Status o <> ST_HOSTILE_CODE -> Output_ExitInfo o = 0).
Proof.
  unfold Run, vforkExec. intros H.
  assert (Hse : (Output_Status system_error_output = ST_ACCEPTED ->
                 0 <= Output_ExitInfo system_error_output <= 255)
                /\ (Output_Status system_error_output = ST_RUNTIME_ERROR ->
                    1 <= Output_ExitInfo system_error_output <= 126)
                /\ (Output_Status system_error_output = ST_HOSTILE_CODE ->
                    exists w, w ∈ waits env /\ seccomp_RetData w = 0
                              /\ Output_ExitInfo system_error_output = int64 (seccomp_Nr w))
                /\ (Output_Status system_error_output <> ST_ACCEPTED ->
                    Output_Status system_error_output <> ST_RUNTIME_ERROR ->
                    Output_Status system_error_output <> ST_HOSTILE_CODE ->
                    Output_ExitInfo system_error_output = 0)).
  { split; [ | split; [ | split ] ]; intros; first [ discriminate | reflexivity ]. }
  destruct (pipe_stdin_err env); [ injection H as <-; exact Hse | ].
  destruct (pipe_stdout_err env); [ injection H as <-; exact Hse | ].
  destruct (start_process env); [ | discriminate ].
  destruct (start_err env); [ injection H as <-; exact Hse | ].
  eapply supervise_exit_info. exact H.
Qed.

Lemma Run_exit_info_witness :
  let o := mkRunnerOutput ST_RUNTIME_ERROR [] (mkUsages 0 0) 0 11 in
  (Output_Status o = ST_ACCEPTED -> 0 <= Output_ExitInfo o <= 255)
  /\ (Output_Status o = ST_RUNTIME_ERROR -> 1 <= Output_ExitInfo o <= 126)
  /\ (Output_Status o = ST_HOSTILE_CODE ->
      exists w, w ∈ waits child_killed /\ seccomp_RetData w = 0
                /\ Output_ExitInfo o = int64 (seccomp_Nr w))
  /\ (Output_Status o <> ST_ACCEPTED -> Output_Status o <> ST_RUNTIME_ERROR ->
      Output_Status o <> ST_HOSTILE_CODE -> Output_ExitInfo o = 0).
Proof.
  apply (Run_exit_info sum_input child_killed). reflexivity.
Defined.

Lemma uint32_add_l (a b : Z) : uint32 (uint32 a + b) = uint32 (a + b).
Proof. unfold uint32. apply Zplus_mod_idemp_l. Qed.

Lemma supervise_deduction_sum limits ws : forall usages skipUsages deduction o,
  0 <= deduction < 2 ^ 32 ->
  supervise limits ws usages skipUsages deduction = Returned o ->
  Output_Status o = ST_ACCEPTED ->
  exists pre w post,
    ws = pre ++ w :: post
    /\ Exited (wait_status w) = true
    /\ read_stdout w = Some (Output_Stdout o)
    /\ Output_Deduction o = uint32 (deduction + asked_deduction limits pre).
Proof.
  induction ws as [ | w ws IH ]; intros usages skipUsages deduction o Hd H Hacc;
    cbn [supervise] in H; [ discriminate | ].
  supervise_cases H.
  all: try (injection H as <-; discriminate).
  all: try (injection H as <-; exists [], w, ws; cbn;
            rewrite Z.add_0_r; unfold uint32; rewrite Z.mod_small by lia;
            repeat split; assumption).
  all: apply IH in H; [ | first [ exact Hd | apply Z.mod_pos_bound; lia ] | exact Hacc ];
    destruct H as (pre & w' & post & -> & Hex & Hout & Hsum);
    exists (w :: pre), w', post;
    (split; [ reflexivity | ]); (split; [ exact Hex | ]); (split; [ exact Hout | ]);
    rewrite Hsum; cbn [asked_deduction]; unfold seccomp_seen;
    repeat match goal with
           | Hb : ?b = _ |- context [?b] => rewrite Hb
           end;
    cbn [orb andb]; rewrite ?uint32_add_l; f_equal; lia.
Qed.

(** X9. The deduction that [Run] reports with accepted is the sum, as a
    [uint32], of what the filter asked for at the stops on a syscall that
    the loop has seen before the wait that reported the exit of the child,
    whose output is the one reported. *)
Theorem Run_deduction_is_sum (input : RunnerInput) (env : RunEnv) (o : RunnerOutput) :
  Run input env = Returned o ->
  Output_Status o = ST_ACCEPTED ->
  exists pre w post,
    waits env = pre ++ w :: post
    /\ Exited (wait_status w) = true
    /\ read_stdout w = Some (Output_Stdout o)
    /\ Output_Deduction o = uint32 (asked_deduction (Input_Limits input) pre).
Proof.
  unfold Run, vforkExec. intros H Hacc.
  destruct (pipe_stdin_err env); [ injection H as <-; discriminate | ].
  destruct (pipe_stdout_err env); [ injection H as <-; discriminate | ].
  destruct (start_process env); [ | discriminate ].
  destruct (start_err env); [ injection H as <-; discriminate | ].
  apply supervise_deduction_sum in H; [ exact H | lia | exact Hacc ].
Qed.

Lemma Run_deduction_is_sum_witness :
  exists pre w post,
    waits (child_deducted (lit "3")) = pre ++ w :: post
    /\ Exited (wait_status w) = true
    /\ read_stdout w
       = Some (Output_Stdout (mkRunnerOutput ST_ACCEPTED (lit "3") (mkUsages 0 0) 6 0))
    /\ Output_Deduction (mkRunnerOutput ST_ACCEPTED (lit "3") (mkUsages 0 0) 6 0)
       = uint32 (asked_deduction (Input_Limits sum_input) pre).
Proof.
  apply (Run_deduction_is_sum sum_input (child_deducted (lit "3"))).
  - reflexivity.
  - reflexivity.
Defined.

(** ** The memory of the child *)

Lemma strip_prefix_app (p r : gostring) : strip_prefix (p ++ r) p = Some r.
Proof.
  induction p as [ | c p IH ]; cbn.
  - destruct r; reflexivity.
  - rewrite Z.eqb_refl. exact IH.
Qed.

Lemma TrimLeftFunc_whitespace (w x : gostring) :
  whitespace w -> TrimLeftFunc IsSpace (w ++ x) = TrimLeftFunc IsSpace x.
Proof.
  intros Hw. induction Hw as [ | c w Hc _ IH ]; cbn; [ reflexivity | ].
  rewrite Hc. exact IH.
Qed.

Lemma TrimRightFunc_stop (f : rune -> bool) (x : gostring) (c : rune) :
  f c = false -> TrimRightFunc f (x ++ [c]) = x ++ [c].
Proof.
  intros Hc. unfold TrimRightFunc. rewrite rev_unit. cbn. rewrite Hc. cbn.
  rewrite rev_involutive. reflexivity.
Qed.

Lemma IsSpace_digit (d : Z) : 0 <= d <= 9 -> IsSpace (d + 48) = false.
Proof.
  intros Hd. unfold IsSpace.
  destruct (Z.leb_spec (d + 48) 255); [ | lia ].
  repeat (apply orb_false_intro); apply Z.eqb_neq; lia.
Qed.

Lemma TrimSpace_number (w : gostring) (ds : list Z) :
  whitespace w -> ds <> [] -> Forall (fun d => 0 <= d <= 9) ds ->
  TrimSpace (w ++ digit_chars ds ++ lit " kB") = digit_chars ds ++ lit " kB".
Proof.
  intros Hw Hne Hds. unfold TrimSpace. rewrite (TrimLeftFunc_whitespace _ _ Hw).
  destruct ds as [ | d ds ]; [ congruence | ].
  inversion Hds as [ | ? ? Hd _ ]; subst.
  cbn [digit_chars map app TrimLeftFunc]. rewrite (IsSpace_digit _ Hd).
  change (lit " kB") with ([32; 107] ++ [66]).
  rewrite (app_comm_cons (map _ ds)), app_assoc.
  apply TrimRightFunc_stop. reflexivity.
Qed.

Lemma Cut_number (ds : list Z) (rest : gostring) :
  Forall (fun d => 0 <= d <= 9) ds ->
  Cut (digit_chars ds ++ 32 :: rest) 32 = (digit_chars ds, rest, true).
Proof.
  intros Hds. induction Hds as [ | d ds Hd _ IH ]; cbn.
  - reflexivity.
  - fold (digit_chars ds). rewrite IH.
    destruct (Z.eqb_spec (d + 48) 32); [ lia | reflexivity ].
Qed.

Lemma decimal_from_le (ds : list Z) (n : Z) :
  0 <= n -> Forall (fun d => 0 <= d <= 9) ds ->
  n <= fold_left (fun a d => a * 10 + d) ds n.
Proof.
  intros Hn Hds. revert n Hn.
  induction Hds as [ | d ds Hd _ IH ]; intros n Hn; cbn; [ lia | ].
  specialize (IH (n * 10 + d)). lia.
Qed.

Lemma ParseUint_loop_number (ds : list Z) (n : Z) :
  0 <= n -> Forall (fun d => 0 <= d <= 9) ds ->
  fold_left (fun a d => a * 10 + d) ds n < 2 ^ 60 ->
  ParseUint_loop (digit_chars ds) n = Number (fold_left (fun a d => a * 10 + d) ds n).
Proof.
  intros Hn Hds. revert n Hn.
  induction Hds as [ | d ds Hd Hds IH ]; intros n Hn Hlt; cbn [digit_chars map ParseUint_loop fold_left].
  - reflexivity.
  - pose proof (decimal_from_le ds (n * 10 + d) ltac:(lia) Hds) as Hle.
    cbn [fold_left] in Hlt.
    replace ((48 <=? d + 48) && (d + 48 <=? 57)) with true
      by (symmetry; apply andb_true_intro; split; apply Z.leb_le; lia).
    assert (Hcut : MaxUint64 / 10 + 1 = 1844674407370955162) by reflexivity.
    rewrite Hcut.
    destruct (Z.geb_spec n 1844674407370955162) as [ Hge | _ ]; [ lia | ].
    replace (d + 48 - 48) with d by lia.
    assert (H10 : uint64 (n * 10) = n * 10) by (unfold uint64; apply Z.mod_small; lia).
    rewrite H10.
    assert (H1 : uint64 (n * 10 + d) = n * 10 + d) by (unfold uint64; apply Z.mod_small; lia).
    rewrite H1.
    assert (Hmax : MaxUint64 = 18446744073709551615) by reflexivity. rewrite Hmax.
    destruct (Z.ltb_spec (n * 10 + d) (n * 10)) as [ Hl | _ ]; [ lia | ].
    destruct (Z.gtb_spec (n * 10 + d) 18446744073709551615) as [ Hg | _ ]; [ lia | ].
    cbn [orb]. fold (digit_chars ds). apply IH; lia.
Qed.

Lemma Atoi_number (ds : list Z) :
  ds <> [] -> Forall (fun d => 0 <= d <= 9) ds -> decimal ds < 2 ^ 60 ->
  Atoi (digit_chars ds) = decimal ds.
Proof.
  intros Hne Hds Hlt.
  pose proof (ParseUint_loop_number ds 0 ltac:(lia) Hds Hlt) as Hloop.
  pose proof (decimal_from_le ds 0 ltac:(lia) Hds) as Hle.
  fold (decimal ds) in Hloop, Hle.
  destruct ds as [ | d ds ]; [ congruence | ].
  inversion Hds as [ | ? ? Hd _ ]; subst.
  unfold Atoi, ParseInt. cbn [digit_chars map].
  destruct (Z.eqb_spec (d + 48) 43); [ lia | ].
  destruct (Z.eqb_spec (d + 48) 45); [ lia | ].
  unfold ParseUint. cbn [digit_chars map] in Hloop. rewrite Hloop.
  cbn [negb andb].
  destruct (Z.geb_spec (decimal (d :: ds)) (2 ^ 63)) as [ Hge | _ ]; [ lia | ].
  apply int64_small. lia.
Qed.

Lemma status_kB_number (w : gostring) (ds : list Z) :
  whitespace w -> kB_number ds ->
  status_kB (w ++ digit_chars ds ++ lit " kB") = decimal ds * 1024.
Proof.
  intros Hw (Hne & Hds & Hlt). unfold status_kB.
  rewrite (TrimSpace_number _ _ Hw Hne Hds).
  change (lit " kB") with (32 :: lit "kB"). rewrite (Cut_number _ _ Hds).
  pose proof (decimal_from_le ds 0 ltac:(lia) Hds) as Hle. fold (decimal ds) in Hle.
  rewrite (Atoi_number _ Hne Hds) by lia.
  rewrite int64_small by lia. unfold uint64. apply Z.mod_small. lia.
Qed.

Lemma scan_line_other (acc : Z * Z) (line : gostring) :
  other_line line -> scan_line acc line = acc.
Proof.
  intros [ Hd Hs ]. destruct acc as [ stack heap ]. unfold scan_line, CutPrefix.
  rewrite Hd, Hs. reflexivity.
Qed.

Lemma scan_others (acc : Z * Z) (lines : list gostring) :
  Forall other_line lines -> fold_left scan_line lines acc = acc.
Proof.
  intros H. induction H as [ | l ls Hl _ IH ]; cbn; [ reflexivity | ].
  rewrite (scan_line_other _ _ Hl). exact IH.
Qed.

Lemma scan_line_VmData (stack heap : Z) (w : gostring) (ds : list Z) :
  whitespace w -> kB_number ds ->
  scan_line (stack, heap) (kB_line (lit "VmData:") w ds) = (stack, decimal ds * 1024).
Proof.
  intros Hw Hds. unfold scan_line, CutPrefix, kB_line.
  rewrite strip_prefix_app. rewrite (status_kB_number _ _ Hw Hds). reflexivity.
Qed.

Lemma scan_line_VmStk (stack heap : Z) (w : gostring) (ds : list Z) :
  whitespace w -> kB_number ds ->
  scan_line (stack, heap) (kB_line (lit "VmStk:") w ds) = (decimal ds * 1024, heap).
Proof.
  intros Hw Hds. unfold scan_line, CutPrefix, kB_line.
  change (strip_prefix (lit "VmStk:" ++ w ++ digit_chars ds ++ lit " kB") (lit "VmData:"))
    with (@None gostring).
  cbv iota. rewrite strip_prefix_app. rewrite (status_kB_number _ _ Hw Hds). reflexivity.
Qed.

(** X10. [getMemoryUsages] reports an error and no memory when the status
    file cannot be opened.  When the file has one line [VmData:] and, after
    it, one line [VmStk:], each with white space, a decimal number and
    [ kB], and no other line has one of these prefixes, it returns the two
    numbers times 1024 as the heap and the stack, with the error of the
    scanner. *)
Theorem getMemoryUsages_reads_kB :
  (forall f, open_err f = true -> getMemoryUsages f = (0, 0, true))
  /\ (forall before between after w1 ds1 w2 ds2 err,
        Forall other_line before -> Forall other_line between ->
        Forall other_line after ->
        whitespace w1 -> kB_number ds1 -> whitespace w2 -> kB_number ds2 ->
        getMemoryUsages
          (mkStatusFile false
             (before ++ [kB_line (lit "VmData:") w1 ds1] ++ between
              ++ [kB_line (lit "VmStk:") w2 ds2] ++ after) err)
        = (decimal ds2 * 1024, decimal ds1 * 1024, err)).
Proof.
  split.
  - intros f Hf. unfold getMemoryUsages. rewrite Hf. reflexivity.
  - intros before between after w1 ds1 w2 ds2 err Hb Hm Ha Hw1 Hd1 Hw2 Hd2.
    unfold getMemoryUsages. cbn [open_err status_lines scan_err].
    rewrite !fold_left_app. rewrite (scan_others _ _ Hb).
    cbn [fold_left]. rewrite (scan_line_VmData _ _ _ _ Hw1 Hd1).
    rewrite (scan_others _ _ Hm). rewrite (scan_line_VmStk _ _ _ _ Hw2 Hd2).
    rewrite (scan_others _ _ Ha). reflexivity.
Qed.

Lemma getMemoryUsages_reads_kB_witness :
  getMemoryUsages status_of_cat = (135168, 368640, false).
Proof.
  apply (proj2 getMemoryUsages_reads_kB
           [lit "Name:" ++ [9] ++ lit "cat"; lit "VmPeak:" ++ [9] ++ lit "    5792 kB"]
           [lit "VmRSS:" ++ [9] ++ lit "     988 kB"]
           [lit "VmExe:" ++ [9] ++ lit "      16 kB"]
           (9 :: lit "     ") [3; 6; 0] (9 :: lit "     ") [1; 3; 2] false).
  - repeat constructor.
  - repeat constructor.
  - repeat constructor.
  - repeat constructor.
  - split; [ discriminate | split; [ repeat constructor; lia | reflexivity ] ].
  - repeat constructor.
  - split; [ discriminate | split; [ repeat constructor; lia | reflexivity ] ].
Defined.

(* ===================================================================== *)
(** * Properties: the ledger of the engine *)
(* ===================================================================== *)

Lemma Index_from_spec (l : list Z) (v i : Z) :
  0 <= i ->
  (Index_from l v i = -1 /\ (v ∉ l))
  \/ (exists k : nat, Index_from l v i = i + Z.of_nat k /\ l !! k = Some v /\ (v ∉ take k l)).
Proof.
  revert i. induction l as [ | x l IH ]; intros i Hi; cbn.
  - left. split; [ reflexivity | apply not_elem_of_nil ].
  - destruct (Z.eqb_spec x v) as [ -> | Hne ].
    + right. exists 0%nat. split; [ lia | ]. split; [ reflexivity | apply not_elem_of_nil ].
    + destruct (IH (i + 1) ltac:(lia)) as [ [ Hidx Hout ] | (k & Hidx & Hk & Hout) ].
      * left. split; [ exact Hidx | ]. intros Hin. apply elem_of_cons in Hin as [ -> | Hin ];
          [ congruence | contradiction ].
      * right. exists (S k). split; [ lia | ]. split; [ exact Hk | ]. cbn.
        intros Hin. apply elem_of_cons in Hin as [ -> | Hin ]; [ congruence | contradiction ].
Qed.

Lemma slices_Contains_elem (l : list Z) (v : Z) : slices_Contains l v = true <-> v ∈ l.
Proof.
  unfold slices_Contains, slices_Index.
  destruct (Index_from_spec l v 0 ltac:(lia)) as [ [ Hidx Hout ] | (k & Hidx & Hk & _) ];
    rewrite Hidx.
  - split; [ discriminate | contradiction ].
  - split; [ intros _; eapply list_elem_of_lookup_2; exact Hk | intros _; apply Z.leb_le; lia ].
Qed.

Lemma slices_Contains_ext (l l' : list Z) (v : Z) :
  (v ∈ l' <-> v ∈ l) -> slices_Contains l' v = slices_Contains l v.
Proof.
  intros H. pose proof (slices_Contains_elem l v) as H1.
  pose proof (slices_Contains_elem l' v) as H2.
  destruct (slices_Contains l v), (slices_Contains l' v); try reflexivity.
  - apply H2, H, H1. reflexivity.
  - symmetry. apply H1, H, H2. reflexivity.
Qed.

(** What [removeTask] does to the ledger. *)
Lemma removeTask_ledger (id : Z) (s : Shared) :
  ((id ∉ taskIds s) /\ removeTask id s = (false, s))
  \/ (exists before after,
        taskIds s = before ++ id :: after /\ (id ∉ before)
        /\ removeTask id s = (true, set_taskIds s (before ++ after))).
Proof.
  unfold removeTask, slices_Index.
  destruct (Index_from_spec (taskIds s) id 0 ltac:(lia)) as [ [ Hidx Hout ] | (k & Hidx & Hk & Hout) ];
    rewrite Hidx.
  - left. split; [ exact Hout | reflexivity ].
  - right. exists (take k (taskIds s)), (drop (S k) (taskIds s)).
    split; [ symmetry; apply take_drop_middle; exact Hk | ]. split; [ exact Hout | ].
    destruct (Z.leb_spec 0 (0 + Z.of_nat k)) as [ _ | ? ]; [ | lia ].
    unfold slices_Delete.
    replace (Z.to_nat (0 + Z.of_nat k)) with k by lia.
    replace (Z.to_nat (0 + Z.of_nat k + 1)) with (S k) by lia. reflexivity.
Qed.

(** X11. [removeTask] answers what [ContainsTask] answers.  When the id is
    not on the ledger nothing changes; when it is, its first occurrence is
    taken out and nothing else: the other ids are on the ledger as before,
    and when the ids of the ledger are distinct the id is no longer there.
    The job and the counter are not touched. *)
Theorem removeTask_removes_first (id : Z) (s : Shared) :
  (removeTask id s).1 = ContainsTask id s
  /\ (ContainsTask id s = false -> (removeTask id s).2 = s)
  /\ (ContainsTask id s = true ->
      exists before after,
        taskIds s = before ++ id :: after /\ (id ∉ before)
        /\ taskIds (removeTask id s).2 = before ++ after)
  /\ (forall id', id' <> id ->
        ContainsTask id' (removeTask id s).2 = ContainsTask id' s)
  /\ (NoDup (taskIds s) -> ContainsTask id (removeTask id s).2 = false)
  /\ job (removeTask id s).2 = job s
  /\ counter (removeTask id s).2 = counter s.
Proof.
  pose proof (slices_Contains_elem (taskIds s) id) as Hc. unfold ContainsTask.
  destruct (removeTask_ledger id s) as [ [ Hout Heq ] | (before & after & Hids & Hout & Heq) ];
    rewrite Heq; cbn [fst snd].
  - assert (Hno : slices_Contains (taskIds s) id = false).
    { destruct (slices_Contains (taskIds s) id); [ | reflexivity ].
      exfalso. apply Hout, Hc. reflexivity. }
    rewrite Hno. split; [ reflexivity | ]. split; [ reflexivity | ].
    split; [ discriminate | ]. split; [ reflexivity | ].
    split; [ reflexivity | ]. split; reflexivity.
  - assert (Hyes : slices_Contains (taskIds s) id = true).
    { apply Hc. rewrite Hids. apply elem_of_app. right. apply list_elem_of_here. }
    rewrite Hyes. split; [ reflexivity | ]. split; [ discriminate | ].
    split; [ intros _; exists before, after; cbn; repeat split; assumption | ].
    split; [ | split; [ | split; reflexivity ] ].
    + intros id' Hne. cbn. apply slices_Contains_ext. rewrite Hids.
      rewrite !elem_of_app, elem_of_cons. tauto.
    + intros Hnd. cbn. rewrite Hids in Hnd.
      apply NoDup_app in Hnd as (_ & Hdisj & Hnd). apply NoDup_cons in Hnd as [ Hafter _ ].
      destruct (slices_Contains (before ++ after) id) eqn:Hin; [ | reflexivity ].
      apply slices_Contains_elem in Hin. apply elem_of_app in Hin as [ Hin | Hin ];
        contradiction.
Qed.

Lemma ledger_ok_removeTask (id : Z) (s : Shared) :
  ledger_ok s -> ledger_ok (removeTask id s).2.
Proof.
  intros [ Hnd Hlt ].
  destruct (removeTask_ledger id s) as [ [ _ Heq ] | (before & after & Hids & _ & Heq) ];
    rewrite Heq; cbn [snd]; [ split; assumption | ].
  unfold ledger_ok. cbn. rewrite Hids in Hnd, Hlt.
  apply NoDup_app in Hnd as (Hb & Hdisj & Ha). apply NoDup_cons in Ha as [ _ Ha ].
  apply Forall_app in Hlt as [ Hlb Hla ]. apply Forall_cons in Hla as [ _ Hla ].
  split.
  - apply NoDup_app. split; [ exact Hb | ]. split; [ | exact Ha ].
    intros x Hx Hx'. apply (Hdisj x Hx). apply list_elem_of_further. exact Hx'.
  - apply Forall_app. split; assumption.
Qed.

(** X12. While the counter of the engine does not wrap, [Schedule] gives
    the new task an id that is on the ledger of no other task: on a ledger
    of distinct ids below the counter, the id it returns was not there, is
    there afterwards, and the ledger is again one of distinct ids below the
    counter, as it also is after [removeTask]. *)
Theorem Schedule_issues_fresh_id (j : Job) (s : Shared) :
  ledger_ok s -> 0 <= counter s < 2 ^ 64 - 1 ->
  (Schedule j s).1 = counter s
  /\ ContainsTask (Schedule j s).1 s = false
  /\ ContainsTask (Schedule j s).1 (Schedule j s).2 = true
  /\ (forall id, id <> (Schedule j s).1 ->
        ContainsTask id (Schedule j s).2 = ContainsTask id s)
  /\ ledger_ok (Schedule j s).2
  /\ (forall id, ledger_ok (removeTask id (Schedule j s).2).2)
  /\ job (Schedule j s).2 = j.
Proof.
  intros [ Hnd Hlt ] Hc. cbn [Schedule fst snd].
  assert (Hfresh : counter s ∉ taskIds s).
  { intros Hin. rewrite Forall_forall in Hlt. specialize (Hlt _ Hin). lia. }
  assert (Hok : ledger_ok
                  (mkShared (taskIds s ++ [counter s]) (uint64 (counter s + 1)) j false
                     (clock s) [])).
  { unfold ledger_ok. cbn. unfold uint64. rewrite Z.mod_small by lia. split.
    - apply NoDup_app. split; [ exact Hnd | ]. split; [ | apply NoDup_singleton ].
      intros x Hx Hx'. apply list_elem_of_singleton in Hx'. subst x. contradiction.
    - apply Forall_app. split.
      + eapply Forall_impl; [ exact Hlt | ]. cbn. intros x Hx. lia.
      + constructor; [ lia | constructor ]. }
  split; [ reflexivity | ]. unfold ContainsTask. cbn [taskIds].
  split.
  { destruct (slices_Contains (taskIds s) (counter s)) eqn:Hin; [ | reflexivity ].
    apply slices_Contains_elem in Hin. contradiction. }
  split.
  { apply slices_Contains_elem. apply elem_of_app. right. apply list_elem_of_here. }
  split.
  { intros id Hne. apply slices_Contains_ext. rewrite elem_of_app, list_elem_of_singleton.
    tauto. }
  split; [ exact Hok | ].
  split; [ | reflexivity ].
  intros id. apply ledger_ok_removeTask. exact Hok.
Qed.

Lemma Schedule_issues_fresh_id_witness :
  (Schedule (job two_sums_scheduled) two_sums_scheduled).1 = 1
  /\ ContainsTask 1 two_sums_scheduled = false
  /\ ContainsTask 1 (Schedule (job two_sums_scheduled) two_sums_scheduled).2 = true.
Proof.
  destruct (Schedule_issues_fresh_id (job two_sums_scheduled) two_sums_scheduled)
    as (H1 & H2 & H3 & _).
  - unfold ledger_ok.
    change (taskIds two_sums_scheduled) with [0].
    change (counter two_sums_scheduled) with 1.
    split; [ repeat constructor; apply not_elem_of_nil | repeat constructor; lia ].
  - change (counter two_sums_scheduled) with 1. lia.
  - split; [ exact H1 | ]. split; [ exact H2 | exact H3 ].
Defined.

(* ===================================================================== *)
(** * Properties: cancelling *)
(* ===================================================================== *)

Lemma same_inputs_refl (j : Job) : same_inputs j j.
Proof. repeat split. Qed.

Lemma same_inputs_trans (j1 j2 j3 : Job) :
  same_inputs j1 j2 -> same_inputs j2 j3 -> same_inputs j1 j3.
Proof.
  unfold same_inputs. intros (? & ? & ? & ? & ? & ? & ?) (? & ? & ? & ? & ? & ? & ?).
  repeat split; congruence.
Qed.

Lemma keeps_inputs_bind (j : Job) (m : result Job) (f : Job -> result Job) :
  keeps_inputs j m -> (forall j', keeps_inputs j' (f j')) -> keeps_inputs j (m ≫= f).
Proof.
  intros Hm Hf. destruct m as [ j' | why ]; cbn; [ | exact I ].
  specialize (Hf j'). unfold keeps_inputs in *. destruct (f j') as [ j'' | why ]; [ | exact I ].
  eapply same_inputs_trans; eassumption.
Qed.

Lemma set_result_inputs (j : Job) (i : Z) (f : CaseResult -> CaseResult) :
  keeps_inputs j (set_result j i f).
Proof.
  unfold set_result, modify_at. destruct (index (Job_Results j) i) as [ r | ]; cbn; [ | exact I ].
  repeat split. cbn. apply length_insert.
Qed.

Lemma set_Job_Status_inputs (j : Job) (st : Status) : same_inputs j (set_Job_Status j st).
Proof. repeat split. Qed.

Lemma mark_loop_inputs (n : nat) : forall (i : Z) (st : Status) (j : Job),
  keeps_inputs j (mark_loop n i st j).
Proof.
  induction n as [ | n IH ]; intros i st j; cbn [mark_loop].
  - apply same_inputs_refl.
  - apply keeps_inputs_bind; [ apply set_result_inputs | ]. intros j'. apply IH.
Qed.

(** The marking loop does not panic within the results. *)
Lemma mark_loop_total (n : nat) : forall (i : Z) (st : Status) (j : Job),
  0 <= i -> i + Z.of_nat n <= len (Job_Results j) -> i + Z.of_nat n < 2 ^ 63 ->
  exists j', mark_loop n i st j = Ok j'.
Proof.
  induction n as [ | n IH ]; intros i st j Hi Hlen Hmax; cbn [mark_loop].
  - exists j. reflexivity.
  - destruct (index_in_range (Job_Results j) i) as [ r Hr ]; [ lia | ].
    rewrite (set_result_Ok _ _ _ _ Hr). cbn. rewrite int64_small by lia.
    apply IH; [ lia | | lia ]. cbn. unfold len in *. rewrite length_insert. lia.
Qed.

Lemma index_of_nat {A} (l : list A) (k : nat) : index l (Z.of_nat k) = l !! k.
Proof.
  unfold index. destruct (Z.ltb_spec (Z.of_nat k) 0); [ lia | ]. rewrite Nat2Z.id. reflexivity.
Qed.

(** Marking all the results. *)
Lemma mark_all_spec (st : Status) (j : Job) :
  len (Job_Results j) < 2 ^ 63 ->
  exists j',
    mark_loop (length (Job_Results j)) 0 st j = Ok j'
    /\ Job_Status j' = Job_Status j
    /\ Job_Results j' = map (fun r => set_Result_Status r st) (Job_Results j)
    /\ same_inputs j j'.
Proof.
  intros Hlen. unfold len in Hlen.
  destruct (mark_loop_total (length (Job_Results j)) 0 st j) as [ j' Hj' ];
    [ lia | unfold len; lia | lia | ].
  exists j'. split; [ exact Hj' | ].
  pose proof (mark_loop_inputs (length (Job_Results j)) 0 st j) as Hin. rewrite Hj' in Hin.
  apply mark_loop_spec in Hj' as [ Hst Hk ]; [ | lia | lia ].
  split; [ exact Hst | ]. split; [ | exact Hin ].
  change (Job_Results j' = (fun r => set_Result_Status r st) <$> Job_Results j).
  apply list_eq. intros k. rewrite list_lookup_fmap, <- !index_of_nat, Hk.
  destruct ((0 <=? Z.of_nat k) && (Z.of_nat k <? 0 + Z.of_nat (length (Job_Results j))))
    eqn:Htest; [ reflexivity | ].
  rewrite index_of_nat, lookup_ge_None_2; [ reflexivity | ].
  apply andb_false_iff in Htest as [ Htest | Htest ];
    [ apply Z.leb_gt in Htest | apply Z.ltb_ge in Htest ]; lia.
Qed.

Lemma removeTask_cases (id : Z) (s : Shared) :
  (ContainsTask id s = false /\ removeTask id s = (false, s))
  \/ (ContainsTask id s = true
      /\ exists before after,
           taskIds s = before ++ id :: after /\ (id ∉ before)
           /\ removeTask id s = (true, set_taskIds s (before ++ after))).
Proof.
  pose proof (slices_Contains_elem (taskIds s) id) as Hc. unfold ContainsTask.
  destruct (removeTask_ledger id s) as [ [ Hout Heq ] | (before & after & Hids & Hout & Heq) ].
  - left. split; [ | exact Heq ].
    destruct (slices_Contains (taskIds s) id); [ | reflexivity ].
    exfalso. apply Hout, Hc. reflexivity.
  - right. split; [ | exists before, after; repeat split; assumption ].
    apply Hc. rewrite Hids. apply elem_of_app. right. apply list_elem_of_here.
Qed.

Lemma slices_Contains_removed (before after : list Z) (id : Z) :
  NoDup (before ++ id :: after) -> slices_Contains (before ++ after) id = false.
Proof.
  intros Hnd. apply NoDup_app in Hnd as (_ & Hdisj & Hnd). apply NoDup_cons in Hnd as [ Hafter _ ].
  destruct (slices_Contains (before ++ after) id) eqn:Hin; [ | reflexivity ].
  apply slices_Contains_elem in Hin. apply elem_of_app in Hin as [ Hin | Hin ].
  - exfalso. apply (Hdisj id Hin). apply list_elem_of_here.
  - contradiction.
Qed.

Lemma exec_CancelTask (id : Z) (s : Shared) (k : Prog) :
  exec (CancelTask id k) s
  = if (removeTask id s).1 then exec (cancel k) (removeTask id s).2
    else exec k (removeTask id s).2.
Proof.
  unfold CancelTask. cbn [exec]. destruct (removeTask id s) as [ [ | ] s' ]; reflexivity.
Qed.

(** X13. [CancelTask] on a task whose id is not on the ledger does
    nothing.  On a task whose id is there, it takes the id off the ledger
    and, in one update, sets the status of the job and of every result to
    cancelled: the job is finished, the other fields of its results and its
    other fields are as they were, and the listener, if there is one, is
    given this job.  It does not panic, whatever the number of results.
    On a ledger of distinct ids, cancelling the task again does nothing. *)
Theorem CancelTask_cancels (id : Z) (s : Shared) (k : Prog) :
  len (Job_Results (job s)) < 2 ^ 63 ->
  (ContainsTask id s = false -> exec (CancelTask id k) s = exec k s)
  /\ (ContainsTask id s = true ->
      exists s',
        exec (CancelTask id k) s = exec k s'
        /\ taskIds s' = taskIds (removeTask id s).2
        /\ Job_Status (job s') = ST_CANCELLED
        /\ Finished (job s') = true
        /\ Job_Results (job s')
           = map (fun r => set_Result_Status r ST_CANCELLED) (Job_Results (job s))
        /\ same_inputs (job s) (job s')
        /\ delivered s' = (if subscribed s then delivered s ++ [job s'] else delivered s)
        /\ (NoDup (taskIds s) -> exec (CancelTask id k) s' = exec k s')).
Proof.
  intros Hlen.
  destruct (removeTask_cases id s) as [ [ Hno Heq ] | (Hyes & before & after & Hids & _ & Heq) ].
  - split; [ | congruence ]. intros _. rewrite exec_CancelTask, Heq. reflexivity.
  - split; [ congruence | ]. intros _.
    destruct (mark_all_spec ST_CANCELLED (set_Job_Status (job s) ST_CANCELLED))
      as (j' & Hmark & Hst & Hres & Hin); [ exact Hlen | ].
    set (s1 := set_taskIds s (before ++ after)).
    exists (after_update s1 j').
    assert (Hrun : exec (CancelTask id k) s = exec k (after_update s1 j')).
    { rewrite exec_CancelTask, Heq. cbn [fst snd]. fold s1. unfold cancel.
      apply exec_update_Ok. exact Hmark. }
    split; [ exact Hrun | ].
    split; [ rewrite Heq; reflexivity | ].
    split; [ cbn; exact Hst | ].
    split; [ unfold Finished; cbn; rewrite Hst; reflexivity | ].
    split; [ cbn; exact Hres | ].
    split; [ cbn; destruct Hin as (? & ? & ? & ? & ? & ? & ?); repeat split; assumption | ].
    split; [ reflexivity | ].
    intros Hnd. rewrite Hids in Hnd. apply slices_Contains_removed in Hnd.
    destruct (removeTask_cases id (after_update s1 j'))
      as [ [ _ Heq' ] | (Hyes' & _) ].
    + rewrite exec_CancelTask, Heq'. reflexivity.
    + unfold ContainsTask in Hyes'. cbn in Hyes'. congruence.
Qed.

Lemma CancelTask_cancels_witness :
  ContainsTask 0 two_sums_scheduled = true
  /\ exists s',
       exec (CancelTask 0 Ret) two_sums_scheduled = (Ret, s')
       /\ Job_Status (job s') = ST_CANCELLED /\ Finished (job s') = true.
Proof.
  split; [ reflexivity | ].
  destruct (CancelTask_cancels 0 two_sums_scheduled Ret) as [ _ H ];
    [ vm_compute; reflexivity | ].
  destruct (H eq_refl) as (s' & Hrun & _ & Hst & Hfin & _).
  exists s'. split; [ exact Hrun | ]. split; [ exact Hst | exact Hfin ].
Defined.

(* ===================================================================== *)
(** * Properties: what the goroutines of the engine leave as it is *)
(* ===================================================================== *)

Section Frame.

Context (R : Shared -> Shared -> Prop) (P : Job -> Job -> Prop).
Hypothesis R_refl : forall s, R s s.
Hypothesis R_trans : forall s1 s2 s3, R s1 s2 -> R s2 s3 -> R s1 s3.
Hypothesis R_update : forall s j, P (job s) j -> R s (after_update s j).
Hypothesis P_refl : forall j, P j j.
Hypothesis P_trans : forall j1 j2 j3, P j1 j2 -> P j2 j3 -> P j1 j3.

Lemma within_step c c' :
  step c c' -> within R c.1 -> within R c'.1 /\ R c.2 c'.2.
Proof.
  induction 1 as [ act s | ts k i t t' s s' Hi Hstep IH | ts k why s Hin | ts k s Hall ];
    cbn; intros Hp.
  - inversion Hp as [ | | | act' Hact | ]; subst. destruct (Hact s) as [ H1 H2 ].
    split; assumption.
  - inversion Hp as [ | | | | ts' k' Hts Hk ]; subst.
    destruct IH as [ Ht' Hs' ].
    + cbn. rewrite Forall_lookup in Hts. exact (Hts i t Hi).
    + split; [ | exact Hs' ]. constructor; [ | exact Hk ].
      apply Forall_insert; assumption.
  - split; [ constructor | apply R_refl ].
  - inversion Hp as [ | | | | ts' k' Hts Hk ]; subst. split; [ exact Hk | apply R_refl ].
Qed.

Lemma within_rtc c c' :
  rtc step c c' -> within R c.1 -> within R c'.1 /\ R c.2 c'.2.
Proof.
  induction 1 as [ c | c c1 c' Hstep Hrest IH ]; intros Hp; [ split; [ exact Hp | apply R_refl ] | ].
  destruct (within_step _ _ Hstep Hp) as [ Hp1 Hs1 ].
  destruct (IH Hp1) as [ Hp' Hs' ]. split; [ exact Hp' | ].
  eapply R_trans; eassumption.
Qed.

Lemma keeps_bind (j : Job) (m : result Job) (f : Job -> result Job) :
  keeps P j m -> (forall j', keeps P j' (f j')) -> keeps P j (m ≫= f).
Proof.
  intros Hm Hf. destruct m as [ j' | why ]; cbn; [ | exact I ].
  specialize (Hf j'). unfold keeps in *. destruct (f j') as [ j'' | why ]; [ | exact I ].
  eapply P_trans; eassumption.
Qed.

(** A goroutine that reads the state and goes on. *)
Lemma within_read (p : Shared -> Prog) :
  (forall s, within R (p s)) -> within R (Atomic (fun s => (s, p s))).
Proof. intros Hp. constructor. intros s. split; [ apply R_refl | apply Hp ]. Qed.

Lemma within_update (f : Job -> result Job) (k : Prog) :
  (forall j, keeps P j (f j)) -> within R k -> within R (update f k).
Proof.
  intros Hf Hk. constructor. intros s. specialize (Hf (job s)). unfold keeps in Hf.
  destruct (f (job s)) as [ j' | why ]; cbn.
  - split; [ apply R_update; exact Hf | exact Hk ].
  - split; [ apply R_refl | constructor ].
Qed.

Section One.

Context (w : worker) (tempDir executable : gostring) (i : Z).
Hypothesis P_slot : forall j f, keeps P j (set_result j (int64 (i + 1)) f).

Lemma record_run_keeps (output : RunnerOutput) (j : Job) :
  keeps P j (record_run i output j).
Proof.
  unfold record_run. apply keeps_bind.
  { destruct (negb _); [ apply P_slot | apply P_refl ]. }
  intros j1. apply keeps_bind; [ apply P_slot | ]. intros j2.
  repeat match goal with
         | |- context [if ?b then _ else _] => destruct b
         end;
    first [ apply P_slot | apply P_refl ].
Qed.

Lemma record_verdict_keeps (output : RunnerOutput) (status : Status) (j : Job) :
  keeps P j (record_verdict i output status j).
Proof.
  unfold record_verdict. apply keeps_bind; [ apply P_slot | ]. intros j1.
  destruct (status =? ST_ACCEPTED); [ | apply P_refl ].
  destruct (case_at j1 i) as [ c | why ]; cbn; [ apply P_slot | exact I ].
Qed.

Lemma within_runOne (env : RunEnv) (k : Prog) :
  within R k -> within R (runOne w tempDir executable i env k).
Proof.
  intros Hk. apply within_read. intros s.
  destruct (case_at (job s) i) as [ c | why ]; [ | constructor ].
  apply within_update; [ intros j; apply P_slot | ].
  destruct (Run _ env) as [ output | | ]; [ | constructor | constructor ].
  apply within_update; [ intros j; apply record_run_keeps | ].
  destruct (Output_Status output =? ST_ACCEPTED); [ | exact Hk ].
  apply within_read. intros s2.
  destruct (judge_case w tempDir (job s2) i output) as [ status | why ]; [ | constructor ].
  apply within_update; [ intros j; apply record_verdict_keeps | exact Hk ].
Qed.

End One.

End Frame.

Lemma inputs_kept_refl (s : Shared) : inputs_kept s s.
Proof. apply same_inputs_refl. Qed.

Lemma inputs_kept_trans (s1 s2 s3 : Shared) :
  inputs_kept s1 s2 -> inputs_kept s2 s3 -> inputs_kept s1 s3.
Proof. apply same_inputs_trans. Qed.

Lemma inputs_kept_update (s : Shared) (j : Job) :
  same_inputs (job s) j -> inputs_kept s (after_update s j).
Proof. intros H. exact H. Qed.

Lemma within_inputs_update (f : Job -> result Job) (k : Prog) :
  (forall j, keeps same_inputs j (f j)) -> within inputs_kept k ->
  within inputs_kept (update f k).
Proof.
  apply (within_update inputs_kept same_inputs inputs_kept_refl inputs_kept_update).
Qed.

Lemma within_inputs_read (p : Shared -> Prog) :
  (forall s, within inputs_kept (p s)) -> within inputs_kept (Atomic (fun s => (s, p s))).
Proof. apply (within_read inputs_kept inputs_kept_refl). Qed.

Lemma within_inputs_runOne w tempDir executable i env k :
  within inputs_kept k -> within inputs_kept (runOne w tempDir executable i env k).
Proof.
  apply (within_runOne inputs_kept same_inputs inputs_kept_refl inputs_kept_update
           same_inputs_refl same_inputs_trans).
  intros j f. apply set_result_inputs.
Qed.

Lemma within_inputs_run_group w tempDir executable group : forall h m k,
  within inputs_kept k ->
  within inputs_kept (run_group w tempDir executable group h m k).
Proof.
  induction group as [ | g group IH ]; intros h m k Hk; cbn; [ exact Hk | ].
  apply within_inputs_runOne. apply IH. exact Hk.
Qed.

Lemma within_inputs_runUnpacked w tempDir executable h k :
  within inputs_kept k -> within inputs_kept (runUnpacked w tempDir executable h k).
Proof.
  intros Hk. apply within_inputs_read. intros s. constructor; [ | exact Hk ].
  apply Forall_map, Forall_forall. intros i _. apply within_inputs_runOne. constructor.
Qed.

Lemma within_inputs_runPacked w tempDir executable h k :
  within inputs_kept k -> within inputs_kept (runPacked w tempDir executable h k).
Proof.
  intros Hk. apply within_inputs_read. intros s.
  destruct (Job_Groups (job s)) as [ groups | ]; constructor; try exact Hk; [ | constructor ].
  apply Forall_lookup. intros u t Hu. rewrite list_lookup_imap in Hu.
  destruct (groups !! u) as [ group | ]; [ | discriminate ]. injection Hu as <-.
  apply within_inputs_run_group. constructor.
Qed.

Lemma aggregate_loop_inputs rs j : same_inputs j (aggregate_loop rs j).1.
Proof.
  induction rs as [ | r rs IH ]; cbn; [ apply same_inputs_refl | ].
  destruct (negb _); cbn; [ apply set_Job_Status_inputs | exact IH ].
Qed.

Lemma aggregate_inputs (j : Job) : keeps same_inputs j (aggregate j).
Proof.
  unfold aggregate. destruct (Job_Results j) as [ | r rs ] eqn:Hrs; [ exact I | ].
  pose proof (aggregate_loop_inputs rs j) as H.
  destruct (aggregate_loop rs j) as [ j' broke ]. cbn in H |- *.
  destruct (negb broke); [ | exact H ].
  eapply same_inputs_trans; [ exact H | apply set_Job_Status_inputs ].
Qed.

Lemma compile_failed_inputs status output (j : Job) :
  keeps same_inputs j (compile_failed status output j).
Proof.
  unfold compile_failed.
  apply (keeps_bind same_inputs same_inputs_trans); [ apply set_result_inputs | ].
  intros j1. pose proof (mark_loop_inputs (length (Job_Results (set_Job_Status j1 status))) 0
                           ST_SKIPPED (set_Job_Status j1 status)) as H.
  unfold keeps, keeps_inputs in *.
  destruct (mark_loop _ 0 ST_SKIPPED _) as [ j2 | why ]; [ | exact I ].
  eapply same_inputs_trans; [ apply set_Job_Status_inputs | exact H ].
Qed.

Lemma within_inputs_run w tempDir h k :
  within inputs_kept k -> within inputs_kept (run w tempDir h k).
Proof.
  intros Hk. unfold run.
  apply within_inputs_update; [ intros j; apply set_Job_Status_inputs | ].
  apply within_inputs_read. intros s.
  destruct (Compile _ (compile_host h)) as [ [ status output ] | why ]; [ | constructor ].
  apply within_inputs_update; [ intros j; apply set_result_inputs | ].
  destruct (negb (status =? ST_COMPILATION_SUCCESS)).
  - apply within_inputs_update; [ intros j; apply compile_failed_inputs | exact Hk ].
  - apply within_inputs_read. intros s2.
    assert (Hagg : within inputs_kept (update aggregate k))
      by (apply within_inputs_update; [ intros j; apply aggregate_inputs | exact Hk ]).
    destruct (Job_Groups (job s2));
      [ apply within_inputs_runPacked | apply within_inputs_runUnpacked ]; exact Hagg.
Qed.

Lemma within_inputs_cancel k : within inputs_kept k -> within inputs_kept (cancel k).
Proof.
  intros Hk. apply within_inputs_update; [ | exact Hk ]. intros j.
  pose proof (mark_loop_inputs (length (Job_Results (set_Job_Status j ST_CANCELLED))) 0
                ST_CANCELLED (set_Job_Status j ST_CANCELLED)) as H.
  unfold keeps, keeps_inputs in *.
  destruct (mark_loop _ 0 ST_CANCELLED _) as [ j2 | why ]; [ | exact I ].
  eapply same_inputs_trans; [ apply set_Job_Status_inputs | exact H ].
Qed.

Lemma removeTask_job id s : job (removeTask id s).2 = job s.
Proof.
  destruct (removeTask_ledger id s) as [ [ _ Heq ] | (before & after & _ & _ & Heq) ];
    rewrite Heq; reflexivity.
Qed.

Lemma within_inputs_CancelTask id k :
  within inputs_kept k -> within inputs_kept (CancelTask id k).
Proof.
  intros Hk. constructor. intros s.
  pose proof (removeTask_job id s) as Hjob.
  destruct (removeTask id s) as [ found s' ]. cbn in Hjob |- *.
  split; [ unfold inputs_kept; rewrite Hjob; apply same_inputs_refl | ].
  destruct found; [ apply within_inputs_cancel; exact Hk | exact Hk ].
Qed.

Lemma within_inputs_poll_task w id tempDir h k :
  within inputs_kept k -> within inputs_kept (poll_task w id tempDir h k).
Proof.
  intros Hk. apply within_inputs_read. intros s.
  destruct (ContainsTask id s); [ | exact Hk ].
  constructor. intros s2. cbn [fst snd].
  split; [ unfold inputs_kept; rewrite removeTask_job; apply same_inputs_refl | ].
  apply within_inputs_run. exact Hk.
Qed.

(** X14. Whatever the order in which workers that have taken a task and
    owners that cancel it take their steps, the job of the task keeps its
    code, its language, its needle, its mode, its cases, its groups and
    the number of its results: the engine writes only the status of the
    job, its time stamp and the entries of its results. *)
Theorem engine_keeps_inputs (ts : list Prog) (s : Shared) (p' : Prog) (s' : Shared) :
  Forall engine_goroutine ts ->
  rtc step (Par ts Ret, s) (p', s') ->
  same_inputs (job s) (job s').
Proof.
  intros Hts Hrun.
  apply (within_rtc inputs_kept inputs_kept_refl inputs_kept_trans) in Hrun;
    [ exact (proj2 Hrun) | ].
  cbn. constructor; [ | constructor ].
  eapply Forall_impl; [ exact Hts | ]. intros t Ht.
  destruct Ht as [ w id tempDir h | id ].
  - apply within_inputs_poll_task. constructor.
  - apply within_inputs_CancelTask. constructor.
Qed.

Lemma engine_keeps_inputs_witness :
  same_inputs (job two_sums_watched) (job raced_state.2).
Proof.
  apply (engine_keeps_inputs
           [poll_task gcc_worker 0 (lit "/tmp/isfj/job_A") both_right Ret; CancelTask 0 Ret]
           two_sums_watched raced_state.1 raced_state.2).
  - repeat constructor.
  - rewrite <- surjective_pairing.
    etrans; [ exact race_reaches_cancelled | exact race_goes_on ].
Defined.

(** Induction on a goroutine, through its actions and the goroutines it
    waits for. *)
Lemma Prog_full_ind (P : Prog -> Prop) :
  P Ret ->
  (forall why, P (Crash why)) ->
  P Hang ->
  (forall act, (forall s, P (act s).2) -> P (Atomic act)) ->
  (forall ts k, Forall P ts -> P k -> P (Par ts k)) ->
  forall p, P p.
Proof.
  intros HRet HCrash HHang HAtomic HPar. fix F 1.
  intros [ | why | | act | ts k ].
  - exact HRet.
  - apply HCrash.
  - exact HHang.
  - apply HAtomic. intros s. apply F.
  - apply HPar; [ | apply F ].
    revert ts. fix G 1. intros [ | t ts ].
    + constructor.
    + constructor; [ apply F | apply G ].
Qed.

Lemma within_mono (R R' : Shared -> Shared -> Prop) (p : Prog) :
  (forall s s', R s s' -> R' s s') -> within R p -> within R' p.
Proof.
  intros HR. induction p as [ | why | | act IH | ts k IHts IHk ] using Prog_full_ind;
    intros Hp; try constructor.
  - intros s. inversion Hp as [ | | | act' Hact | ]; subst. destruct (Hact s) as [ H1 H2 ].
    split; [ apply HR; exact H1 | apply IH; exact H2 ].
  - inversion Hp as [ | | | | ts' k' Hts Hk ]; subst.
    rewrite Forall_forall in IHts, Hts |- *. intros t Ht. apply IHts; [ exact Ht | ].
    apply Hts. exact Ht.
  - inversion Hp as [ | | | | ts' k' Hts Hk ]; subst. apply IHk. exact Hk.
Qed.

Lemma other_slots_refl slot j : other_slots slot j j.
Proof. split; [ reflexivity | intros m _; reflexivity ]. Qed.

Lemma other_slots_trans slot j1 j2 j3 :
  other_slots slot j1 j2 -> other_slots slot j2 j3 -> other_slots slot j1 j3.
Proof.
  intros [ H1 H2 ] [ H3 H4 ]. split; [ congruence | ].
  intros m Hm. rewrite (H4 m Hm). apply H2. exact Hm.
Qed.

Lemma slot_frame_refl slot s : slot_frame slot s s.
Proof. split; [ reflexivity | ]. split; [ reflexivity | apply other_slots_refl ]. Qed.

Lemma slot_frame_trans slot s1 s2 s3 :
  slot_frame slot s1 s2 -> slot_frame slot s2 s3 -> slot_frame slot s1 s3.
Proof.
  intros (H1 & H2 & H3) (H4 & H5 & H6). split; [ congruence | ]. split; [ congruence | ].
  eapply other_slots_trans; eassumption.
Qed.

Lemma slot_frame_update slot s j :
  other_slots slot (job s) j -> slot_frame slot s (after_update s j).
Proof. intros H. split; [ reflexivity | ]. split; [ reflexivity | exact H ]. Qed.

Lemma set_result_other_slots slot j f : keeps (other_slots slot) j (set_result j slot f).
Proof.
  unfold set_result, modify_at. destruct (index (Job_Results j) slot) as [ r | ] eqn:Hr;
    cbn; [ | exact I ].
  split; [ reflexivity | ]. intros m Hm. cbn. apply index_insert_ne; [ | congruence ].
  apply index_range in Hr. lia.
Qed.

Lemma within_slot_runOne w tempDir executable i env :
  within (slot_frame (int64 (i + 1))) (runOne w tempDir executable i env Ret).
Proof.
  apply (within_runOne (slot_frame (int64 (i + 1))) (other_slots (int64 (i + 1)))
           (slot_frame_refl _) (slot_frame_update _) (other_slots_refl _)
           (other_slots_trans _)).
  - intros j f. apply set_result_other_slots.
  - constructor.
Qed.

Lemma compile_slot_kept_refl s : compile_slot_kept s s.
Proof. split; reflexivity. Qed.

Lemma compile_slot_kept_trans s1 s2 s3 :
  compile_slot_kept s1 s2 -> compile_slot_kept s2 s3 -> compile_slot_kept s1 s3.
Proof. intros [ H1 H2 ] [ H3 H4 ]. split; congruence. Qed.

(** X15. [runOne] for the case [i] writes the result [i+1] and nothing
    else that goroutines share: whatever steps it takes, the ledger, the
    counter, the status of the job and the results at all other indices
    are as they were.  So while the cases are dispatched one goroutine
    each, in whatever order these run, the status of the job and the
    result of the compilation at the index 0 do not change. *)
Theorem runOne_writes_its_slot :
  (forall w tempDir executable i env s p' s',
      rtc step (runOne w tempDir executable i env Ret, s) (p', s') ->
      slot_frame (int64 (i + 1)) s s')
  /\ (forall w tempDir executable h s p' s',
        len (Job_Cases (job s)) < 2 ^ 63 - 1 ->
        rtc step (runUnpacked w tempDir executable h Ret, s) (p', s') ->
        compile_slot_kept s s').
Proof.
  split.
  - intros w tempDir executable i env s p' s' Hrun.
    apply (within_rtc (slot_frame (int64 (i + 1))) (slot_frame_refl _) (slot_frame_trans _))
      in Hrun; [ exact (proj2 Hrun) | apply within_slot_runOne ].
  - intros w tempDir executable h s p' s' Hlen Hrun.
    inversion Hrun as [ | c0 c1 c2 Hstep Hrest ]; subst; [ apply compile_slot_kept_refl | ].
    unfold runUnpacked in Hstep. apply step_atomic_inv in Hstep. subst c1.
    cbn [fst snd] in Hrest.
    apply (within_rtc compile_slot_kept compile_slot_kept_refl compile_slot_kept_trans)
      in Hrest;
      [ exact (proj2 Hrest) | ].
    cbn [fst]. constructor; [ | constructor ].
    apply Forall_map, Forall_forall. intros i Hi. apply elem_of_seq in Hi.
    eapply within_mono; [ | apply within_slot_runOne ].
    intros s1 s2 (_ & _ & Hst & Hslots). split; [ exact Hst | ].
    apply Hslots. unfold len in Hlen. rewrite int64_small; lia.
Qed.

(* ===================================================================== *)
(** * Properties: the indices of the cases and of the results *)
(* ===================================================================== *)

(** A goroutine that is within bounds on [I] and keeps [J] is within
    bounds on both. *)
Lemma in_bounds_with (I J : Shared -> Prop) (R : Shared -> Shared -> Prop) (p : Prog) :
  (forall s s', J s -> R s s' -> J s') ->
  within R p -> in_bounds I p -> in_bounds (fun s => I s /\ J s) p.
Proof.
  intros HJ. induction p as [ | why | | act IH | ts k IHts IHk ] using Prog_full_ind;
    intros Hw Hb.
  - constructor.
  - inversion Hb; subst. constructor; assumption.
  - constructor.
  - inversion Hw as [ | | | act' Hact | ]; subst.
    inversion Hb as [ | | | act' Hact' | ]; subst.
    constructor. intros s [ HI HJs ].
    destruct (Hact s) as [ HR Hw' ]. destruct (Hact' s HI) as [ HI' Hb' ].
    split; [ split; [ exact HI' | eapply HJ; eassumption ] | ].
    apply IH; assumption.
  - inversion Hw as [ | | | | ts' k' Hwts Hwk ]; subst.
    inversion Hb as [ | | | | ts' k' Hbts Hbk ]; subst.
    constructor; [ | apply IHk; assumption ].
    rewrite Forall_forall in IHts, Hwts, Hbts |- *. intros t Ht.
    apply IHts; [ exact Ht | apply Hwts; exact Ht | apply Hbts; exact Ht ].
Qed.

Section WellFormed.

Context (n : Z) (w : worker) (tempDir : gostring).

Lemma groups_ok_kept (s s' : Shared) :
  groups_ok n (Job_Groups (job s)) -> inputs_kept s s' -> groups_ok n (Job_Groups (job s')).
Proof. intros H (_ & _ & _ & _ & _ & Hg & _). rewrite Hg. exact H. Qed.

Lemma well_formed_with (p : Prog) :
  within inputs_kept p -> in_bounds (job_shape n) p -> in_bounds (well_formed n) p.
Proof.
  intros Hw Hb.
  exact (in_bounds_with (job_shape n) (fun s => groups_ok n (Job_Groups (job s)))
           inputs_kept p groups_ok_kept Hw Hb).
Qed.

(** An update whose closure keeps the job well formed. *)
Lemma well_formed_update (f : Job -> result Job) (k : Prog) :
  (forall j, len (Job_Cases j) = n -> len (Job_Results j) = n + 1 -> n + 1 < 2 ^ 63 ->
             keeps_shape j (f j)) ->
  (forall j, keeps same_inputs j (f j)) ->
  in_bounds (well_formed n) k ->
  in_bounds (well_formed n) (update f k).
Proof.
  intros Hshape Hin Hk. constructor. intros s [ (Hc & Hr & Hn) Hg ].
  specialize (Hshape (job s) Hc Hr Hn). specialize (Hin (job s)).
  unfold keeps_shape, keeps in *.
  destruct (f (job s)) as [ j' | why ]; cbn.
  - destruct Hshape as [ Hc' Hr' ]. split; [ | exact Hk ].
    destruct Hin as (_ & _ & _ & _ & _ & Hg' & _).
    split; [ | cbn; rewrite Hg'; exact Hg ].
    unfold job_shape, len in *. cbn. rewrite Hc', Hr'. tauto.
  - split; [ split; [ repeat split; assumption | exact Hg ] | ]. constructor; tauto.
Qed.

Lemma well_formed_read (p : Shared -> Prog) :
  (forall s, well_formed n s -> in_bounds (well_formed n) (p s)) ->
  in_bounds (well_formed n) (Atomic (fun s => (s, p s))).
Proof. intros Hp. constructor. intros s Hs. split; [ exact Hs | apply Hp; exact Hs ]. Qed.

Lemma mark_all_shape (st st' : Status) (j : Job) :
  len (Job_Results j) < 2 ^ 63 ->
  keeps_shape j (mark_loop (length (Job_Results (set_Job_Status j st'))) 0 st
                   (set_Job_Status j st')).
Proof.
  intros Hlen.
  destruct (mark_all_spec st (set_Job_Status j st')) as (j' & Hmark & _ & _ & Hin);
    [ exact Hlen | ].
  rewrite Hmark. destruct Hin as (_ & _ & _ & _ & Hc & _ & Hr). split; assumption.
Qed.

Lemma well_formed_runUnpacked executable h k :
  in_bounds (well_formed n) k ->
  in_bounds (well_formed n) (runUnpacked w tempDir executable h k).
Proof.
  intros Hk. apply well_formed_read. intros s [ (Hc & Hr & Hn) Hg ].
  constructor; [ | exact Hk ].
  apply Forall_map, Forall_forall. intros i Hi. apply elem_of_seq in Hi.
  apply well_formed_with.
  - apply within_inputs_runOne. constructor.
  - apply in_bounds_runOne; [ unfold len in Hc; lia | constructor ].
Qed.

Lemma well_formed_runPacked executable h k :
  in_bounds (well_formed n) k ->
  in_bounds (well_formed n) (runPacked w tempDir executable h k).
Proof.
  intros Hk. apply well_formed_read. intros s [ (Hc & Hr & Hn) Hg ].
  destruct (Job_Groups (job s)) as [ groups | ]; constructor; try exact Hk; [ | constructor ].
  cbn in Hg. apply Forall_lookup. intros u t Hu. rewrite list_lookup_imap in Hu.
  destruct (groups !! u) as [ group | ] eqn:Hgroup; [ | discriminate ]. injection Hu as <-.
  rewrite Forall_lookup in Hg. apply well_formed_with.
  - apply within_inputs_run_group. constructor.
  - apply in_bounds_run_group; [ exact (Hg u group Hgroup) | exact Hn | constructor ].
Qed.

Lemma well_formed_run h k :
  in_bounds (well_formed n) k -> in_bounds (well_formed n) (run w tempDir h k).
Proof.
  intros Hk. unfold run.
  apply well_formed_update;
    [ intros j _ _ _; split; reflexivity | intros j; apply set_Job_Status_inputs | ].
  apply well_formed_read. intros s _.
  destruct (Compile _ (compile_host h)) as [ [ status output ] | why ] eqn:Hcompile.
  2: { constructor; intros ->; unfold Compile in Hcompile;
       repeat match type of Hcompile with
              | context [match ?x with _ => _ end] => destruct x
              end; discriminate. }
  apply well_formed_update.
  { intros j Hc Hr Hn. apply set_result_shape. unfold len in *. lia. }
  { intros j. apply set_result_inputs. }
  destruct (negb (status =? ST_COMPILATION_SUCCESS)).
  - apply well_formed_update; [ | intros j; apply compile_failed_inputs | exact Hk ].
    intros j Hc Hr Hn. unfold compile_failed. apply keeps_shape_bind.
    { apply set_result_shape. unfold len in *. lia. }
    intros j1 Hc1 Hr1.
    pose proof (mark_all_shape ST_SKIPPED status j1) as H. apply H.
    unfold len in *. rewrite Hr1. lia.
  - assert (Hagg : in_bounds (well_formed n) (update aggregate k)).
    { apply well_formed_update; [ | intros j; apply aggregate_inputs | exact Hk ].
      intros j Hc Hr Hn. destruct (aggregate_total j) as [ j' Hj' ].
      { intros Hnil. unfold len in Hr. rewrite Hnil in Hr. cbn in Hr. unfold len in Hc. lia. }
      pose proof (aggregate_inputs j) as Hin. rewrite Hj' in Hin |- *.
      destruct Hin as (_ & _ & _ & _ & Hc' & _ & Hr'). split; assumption. }
    apply well_formed_read. intros s2 _.
    destruct (Job_Groups (job s2));
      [ apply well_formed_runPacked | apply well_formed_runUnpacked ]; exact Hagg.
Qed.

Lemma well_formed_removeTask id s : well_formed n s -> well_formed n (removeTask id s).2.
Proof.
  unfold well_formed, job_shape. rewrite removeTask_job. tauto.
Qed.

Lemma well_formed_CancelTask id k :
  in_bounds (well_formed n) k -> in_bounds (well_formed n) (CancelTask id k).
Proof.
  intros Hk. constructor. intros s Hs.
  pose proof (well_formed_removeTask id s Hs) as Hs'.
  destruct (removeTask id s) as [ found s' ]. cbn [fst snd] in *.
  split; [ exact Hs' | ]. destruct found; [ | exact Hk ].
  unfold cancel. apply well_formed_update; [ | | exact Hk ].
  - intros j Hc Hr Hn. apply mark_all_shape. lia.
  - intros j.
    pose proof (mark_loop_inputs (length (Job_Results (set_Job_Status j ST_CANCELLED))) 0
                  ST_CANCELLED (set_Job_Status j ST_CANCELLED)) as H.
    unfold keeps, keeps_inputs in *.
    destruct (mark_loop _ 0 ST_CANCELLED _) as [ j2 | why ]; [ | exact I ].
    eapply same_inputs_trans; [ apply set_Job_Status_inputs | exact H ].
Qed.

Lemma well_formed_poll_task id h k :
  in_bounds (well_formed n) k -> in_bounds (well_formed n) (poll_task w id tempDir h k).
Proof.
  intros Hk. apply well_formed_read. intros s _.
  destruct (ContainsTask id s); [ | exact Hk ].
  constructor. intros s2 Hs2. cbn [fst snd].
  split; [ apply well_formed_removeTask; exact Hs2 | ].
  apply well_formed_run. exact Hk.
Qed.

End WellFormed.

(** X16. On a job as [NewJob] makes it, with one more result than it has
    cases, and with no groups or groups whose entries are numbers of
    cases, no goroutine of the engine panics on an index of [Cases] or of
    [Results]: not the worker that compiles the code, dispatches the
    cases one by one or by groups and sets the final status, nor an owner
    that cancels the task, in whatever order they take their steps. *)
Theorem engine_stays_in_range (n : Z) (ts : list Prog) (s : Shared) (p' : Prog) (s' : Shared) :
  job_shape n s ->
  groups_ok n (Job_Groups (job s)) ->
  Forall engine_goroutine ts ->
  rtc step (Par ts Ret, s) (p', s') ->
  p' <> Crash CasesOutOfRange /\ p' <> Crash ResultsOutOfRange
  /\ job_shape n s'.
Proof.
  intros Hshape Hgroups Hts Hrun.
  apply (in_bounds_rtc (well_formed n)) in Hrun.
  - destruct Hrun as [ Hsafe [ Hshape' _ ] ]. cbn in Hsafe, Hshape'.
    split; [ | split; [ | exact Hshape' ] ]; intros ->;
      apply in_bounds_not_Crash in Hsafe; tauto.
  - cbn. constructor; [ | constructor ].
    eapply Forall_impl; [ exact Hts | ]. intros t Ht.
    destruct Ht as [ w id tempDir h | id ].
    + apply well_formed_poll_task. constructor.
    + apply well_formed_CancelTask. constructor.
  - split; assumption.
Qed.

Lemma engine_stays_in_range_witness :
  raced_state.1 <> Crash CasesOutOfRange /\ raced_state.1 <> Crash ResultsOutOfRange
  /\ job_shape 2 raced_state.2.
Proof.
  apply (engine_stays_in_range 2
           [poll_task gcc_worker 0 (lit "/tmp/isfj/job_A") both_right Ret; CancelTask 0 Ret]
           two_sums_watched raced_state.1 raced_state.2).
  - repeat split.
  - exact I.
  - repeat constructor.
  - rewrite <- surjective_pairing.
    etrans; [ exact race_reaches_cancelled | exact race_goes_on ].
Defined.

(* ===================================================================== *)
(** * Properties: the ids of the special judgers *)
(* ===================================================================== *)

Lemma MakeSpecialJudgeMode_parts (id : Z) :
  ModeBits (MakeSpecialJudgeMode id) = J_SPECIAL
  /\ JudgerId (MakeSpecialJudgeMode id) = id mod 256.
Proof.
  rewrite MakeSpecialJudgeMode_any.
  pose proof (Z.mod_pos_bound id 256) as Hid.
  unfold ModeBits, JudgerId, J_SPECIAL. split.
  - change 0x00ff with (Z.ones 8). rewrite Z.land_ones by lia.
    change (2 ^ 8) with 256. rewrite Z.add_comm, Z.mod_add by lia. reflexivity.
  - rewrite Z.shiftr_land. change (Z.shiftr 0xff00 8) with (Z.ones 8).
    rewrite Z.land_ones by lia. rewrite Z.shiftr_div_pow2 by lia.
    change (2 ^ 8) with 256.
    replace ((id mod 256 * 256 + 2) / 256) with (id mod 256).
    + apply Z.mod_small. lia.
    + apply Z.div_unique with (r := 2); lia.
Qed.

Lemma clone_loop_spec (rest : list AnyJudger) : forall judgers clones,
  clone_loop rest judgers = Some clones ->
  exists made,
    clones = judgers ++ made
    /\ Forall2 (fun judger j => AnyJudger_Clone judger = Some j) rest made.
Proof.
  induction rest as [ | judger rest IH ]; intros judgers clones H; cbn in H.
  - injection H as <-. exists []. split; [ symmetry; apply app_nil_r | constructor ].
  - destruct (AnyJudger_Clone judger) as [ j | ] eqn:Hj; [ | discriminate ].
    apply IH in H as (made & -> & Hall). exists (j :: made).
    split; [ rewrite <- app_assoc; reflexivity | constructor; assumption ].
Qed.

Lemma clone_loop_fails (rest : list AnyJudger) : forall judgers,
  clone_loop rest judgers = None <-> Exists (fun judger => AnyJudger_Clone judger = None) rest.
Proof.
  induction rest as [ | judger rest IH ]; intros judgers; cbn.
  - split; [ discriminate | intros H; inversion H ].
  - destruct (AnyJudger_Clone judger) as [ j | ] eqn:Hj.
    + rewrite IH. split; [ intros H; right; exact H | ].
      intros H. inversion H as [ ? ? Hhere | ? ? Hthere ]; subst; [ congruence | exact Hthere ].
    + split; [ intros _; left; exact Hj | reflexivity ].
Qed.

Lemma judge_case_special (w : worker) (tempDir : gostring) (j : Job) (i id : Z)
    (output : RunnerOutput) :
  Job_Mode j = MakeSpecialJudgeMode id ->
  judge_case w tempDir j i output
  = (proto ← or_panic JudgersOutOfRange (index (judgers w) (id mod 256));
     match AnyJudger_Clone proto with
     | None => Ok ST_SYSTEM_ERROR
     | Some judger =>
         c ← case_at j i;
         Ok (AnyJudger_Judge judger (Output_Stdout output) (Case_Stdout c) tempDir)
     end).
Proof.
  intros Hmode. unfold judge_case. rewrite Hmode.
  destruct (MakeSpecialJudgeMode_parts id) as [ -> -> ]. reflexivity.
Qed.

(** X17. The id that [AddJudger] returns is the place of the judger in
    the list, and the ids given before keep their judgers.  While there
    are at most 256 judgers, a worker made by [newWorker] after the
    judger was added takes, for a job in the mode that
    [MakeSpecialJudgeMode] makes of the id, a clone of a clone of this
    judger and returns what it answers; [newWorker] fails exactly when a
    judger of the engine cannot be cloned.  A worker made before the
    judger was added does not have it: on a job in that mode it panics on
    the index of its judgers. *)
Theorem AddJudger_id_selects (js : list AnyJudger) (judger : AnyJudger)
    (cs : list (gostring * Compiler)) :
  len js < 256 ->
  let id := (AddJudger js judger).1 in
  let js' := (AddJudger js judger).2 in
  index js' id = Some judger
  /\ (forall i x, index js i = Some x -> index js' i = Some x)
  /\ (newWorker js' cs = None
      <-> Exists (fun x => AnyJudger_Clone x = None) js')
  /\ (forall w tempDir j i c output,
        newWorker js' cs = Some w ->
        Job_Mode j = MakeSpecialJudgeMode id ->
        index (Job_Cases j) i = Some c ->
        exists clone,
          AnyJudger_Clone judger = Some clone
          /\ judge_case w tempDir j i output
             = Ok (match AnyJudger_Clone clone with
                   | None => ST_SYSTEM_ERROR
                   | Some judger' =>
                       AnyJudger_Judge judger' (Output_Stdout output) (Case_Stdout c) tempDir
                   end))
  /\ (forall w tempDir j i output,
        newWorker js cs = Some w ->
        Job_Mode j = MakeSpecialJudgeMode id ->
        judge_case w tempDir j i output = Panics JudgersOutOfRange).
Proof.
  intros Hlen. cbn [AddJudger fst snd].
  assert (Hid : len js mod 256 = len js) by (apply Z.mod_small; unfold len in *; lia).
  assert (Hlast : forall (l : list AnyJudger) x, length l = length js ->
                    index (l ++ [x]) (len js) = Some x).
  { intros l x Hl. unfold len. rewrite index_of_nat, <- Hl.
    rewrite lookup_app_r by lia. rewrite Nat.sub_diag. reflexivity. }
  split; [ apply Hlast; reflexivity | ].
  split.
  { intros i x Hx. apply index_Some in Hx as [ Hi Hx ]. apply index_Some.
    split; [ exact Hi | ]. apply lookup_app_l_Some. exact Hx. }
  split.
  { unfold newWorker. pose proof (clone_loop_fails (js ++ [judger]) []) as H.
    destruct (clone_loop (js ++ [judger]) []); [ | tauto ].
    split; [ discriminate | ]. intros Hex. apply H in Hex. discriminate. }
  split.
  - intros w tempDir j i c output Hw Hmode Hc. unfold newWorker in Hw.
    destruct (clone_loop (js ++ [judger]) []) as [ clones | ] eqn:Hclones; [ | discriminate ].
    injection Hw as <-.
    apply clone_loop_spec in Hclones as (made & -> & Hall). cbn [app] in *.
    apply Forall2_app_inv_l in Hall as (made1 & made2 & H1 & H2 & ->).
    inversion H2 as [ | ? clone ? ? Hclone Hnil ]; subst. inversion Hnil; subst.
    exists clone. split; [ exact Hclone | ].
    rewrite (judge_case_special _ _ _ _ _ _ Hmode). cbn [judgers]. rewrite Hid.
    rewrite Hlast by (symmetry; eapply Forall2_length; exact H1). cbn.
    destruct (AnyJudger_Clone clone); [ | reflexivity ].
    unfold case_at. rewrite Hc. reflexivity.
  - intros w tempDir j i output Hw Hmode. unfold newWorker in Hw.
    destruct (clone_loop js []) as [ clones | ] eqn:Hclones; [ | discriminate ].
    injection Hw as <-.
    apply clone_loop_spec in Hclones as (made & -> & Hall). cbn [app] in *.
    rewrite (judge_case_special _ _ _ _ _ _ Hmode). cbn [judgers]. rewrite Hid.
    rewrite index_None; [ reflexivity | ].
    unfold len. rewrite <- (Forall2_length _ _ _ Hall). lia.
Qed.

Lemma AddJudger_id_selects_witness :
  index (AddJudger [constant_judger 6] (constant_judger 3)).2
    (AddJudger [constant_judger 6] (constant_judger 3)).1
  = Some (constant_judger 3).
Proof.
  destruct (AddJudger_id_selects [constant_judger 6] (constant_judger 3) []) as [ H _ ];
    [ reflexivity | exact H ].
Defined.

(* ===================================================================== *)
(** * Properties: a task that is not run *)
(* ===================================================================== *)

Lemma Compile_statuses (c : option Compiler) (h : CompileHost) (status : Status)
    (output : gostring) :
  Compile c h = Ok (status, output) ->
  (status = ST_COMPILATION_SUCCESS /\ output = outputName h)
  \/ (status = ST_COMPILATION_ERROR /\ output = command_output h)
  \/ (status = ST_SYSTEM_ERROR /\ output = []).
Proof.
  unfold Compile. intros H.
  repeat match type of H with
         | context [match ?x with _ => _ end] => destruct x
         end; try discriminate; injection H as <- <-; tauto.
Qed.

(** X18. When the compilation does not succeed, [run] does not run the
    cases.  It ends with the outcome of the compilation, a compilation
    error or a system error, as the status of the job, which is finished;
    every result, the one of the compilation too, has the status skipped;
    the result at the index 0 has the output of the compiler as its extra
    text, and the other fields of the results are as they were.  The
    listener, if there is one, has been given three jobs. *)
Theorem run_after_failed_compile (w : worker) (tempDir : gostring) (h : TaskHost)
    (s : Shared) (status : Status) (output : gostring) (k : Prog) :
  0 < len (Job_Results (job s)) < 2 ^ 63 ->
  Compile (compilers_lookup (compilers w) (Job_Lang (job s))) (compile_host h)
  = Ok (status, output) ->
  status <> ST_COMPILATION_SUCCESS ->
  exists s',
    exec (run w tempDir h k) s = exec k s'
    /\ Job_Status (job s') = status
    /\ (status = ST_COMPILATION_ERROR \/ status = ST_SYSTEM_ERROR)
    /\ Finished (job s') = true
    /\ (forall m r, index (Job_Results (job s)) m = Some r ->
          index (Job_Results (job s')) m
          = Some (if m =? 0
                  then mkCaseResult ST_SKIPPED (Result_Usages r) (Result_Points r) output
                  else set_Result_Status r ST_SKIPPED))
    /\ same_inputs (job s) (job s')
    /\ taskIds s' = taskIds s
    /\ length (delivered s') = (length (delivered s) + if subscribed s then 3 else 0)%nat.
Proof.
  intros Hlen Hcompile Hfailed.
  destruct (index_in_range (Job_Results (job s)) 0) as [ r0 Hr0 ]; [ lia | ].
  assert (Hstatus : status = ST_COMPILATION_ERROR \/ status = ST_SYSTEM_ERROR).
  { apply Compile_statuses in Hcompile as [ [ ? _ ] | [ [ ? _ ] | [ ? _ ] ] ]; tauto. }
  set (j1 := set_Job_Status (job s) ST_RUNNING).
  set (s1 := after_update s j1).
  set (r1 := set_Result_Status r0 status).
  set (j2 := set_Job_Results (job s1) (<[Z.to_nat 0 := r1]> (Job_Results (job s1)))).
  set (s2 := after_update s1 j2).
  set (r2 := set_Result_Extra r1 output).
  set (j3 := set_Job_Results (job s2) (<[Z.to_nat 0 := r2]> (Job_Results (job s2)))).
  assert (Hr1 : index (Job_Results (job s2)) 0 = Some r1).
  { cbn. apply (index_insert _ 0 r0). exact Hr0. }
  assert (Hlen3 : length (Job_Results j3) = length (Job_Results (job s))).
  { unfold j3. cbn. rewrite !length_insert. reflexivity. }
  destruct (mark_all_spec ST_SKIPPED (set_Job_Status j3 status))
    as (j4 & Hmark & Hst4 & Hres4 & Hin4).
  { cbn [set_Job_Status Job_Results]. unfold len in *. rewrite Hlen3. lia. }
  exists (after_update s2 j4).
  assert (Hrun : exec (run w tempDir h k) s = exec k (after_update s2 j4)).
  { unfold run. rewrite (exec_update_Ok _ _ s j1) by reflexivity. fold s1.
    cbn [exec]. change (Job_Lang (job s1)) with (Job_Lang (job s)). rewrite Hcompile.
    rewrite (exec_update_Ok _ _ s1 j2)
      by exact (set_result_Ok (job s1) 0 (fun r => set_Result_Status r status) r0 Hr0).
    fold s2.
    destruct (Z.eqb_spec status ST_COMPILATION_SUCCESS) as [ | _ ]; [ contradiction | ].
    cbn [negb]. apply exec_update_Ok. unfold compile_failed.
    rewrite (set_result_Ok (job s2) 0 (fun r => set_Result_Extra r output) r1 Hr1).
    exact Hmark. }
  split; [ exact Hrun | ].
  split; [ cbn; rewrite Hst4; reflexivity | ].
  split; [ exact Hstatus | ].
  split.
  { unfold Finished. cbn. rewrite Hst4. cbn.
    destruct Hstatus as [ -> | -> ]; reflexivity. }
  split.
  { intros m r Hm. cbn [after_update job set_Job_Updated Job_Results]. rewrite Hres4.
    change (map ?f ?l) with (f <$> l).
    change (Job_Results (set_Job_Status j3 status))
      with (<[0%nat := r2]> (<[0%nat := r1]> (Job_Results (job s)))).
    apply index_Some in Hm as [ Hm0 Hm ]. apply index_Some. split; [ exact Hm0 | ].
    rewrite list_lookup_fmap.
    destruct (Z.eqb_spec m 0) as [ -> | Hne ].
    - apply index_Some in Hr0 as [ _ Hr0 ]. rewrite Hr0 in Hm. injection Hm as <-.
      change (Z.to_nat 0) with 0%nat.
      rewrite list_lookup_insert_eq
        by (rewrite length_insert; eapply lookup_lt_Some; exact Hr0).
      reflexivity.
    - rewrite !list_lookup_insert_ne by lia. rewrite Hm. reflexivity. }
  split.
  { cbn. destruct Hin4 as (H1 & H2 & H3 & H4 & H5 & H6 & H7). cbn in *.
    rewrite !length_insert in H7. repeat split; assumption. }
  split; [ reflexivity | ].
  cbn. destruct (subscribed s); [ rewrite !length_app; cbn; lia | lia ].
Qed.

Lemma run_after_failed_compile_witness :
  exists s',
    exec (run gcc_worker (lit "/tmp/isfj/job_A") rejected Ret) two_sums_scheduled = (Ret, s')
    /\ Job_Status (job s') = ST_COMPILATION_ERROR
    /\ Finished (job s') = true.
Proof.
  destruct (run_after_failed_compile gcc_worker (lit "/tmp/isfj/job_A") rejected
              two_sums_scheduled ST_COMPILATION_ERROR (lit "error: expected ';'") Ret)
    as (s' & Hrun & Hst & _ & Hfin & _).
  - split; reflexivity.
  - reflexivity.
  - discriminate.
  - exists s'. split; [ exact Hrun | ]. split; [ exact Hst | exact Hfin ].
Defined.

Lemma exec_poll_task (w : worker) (id : Z) (tempDir : gostring) (h : TaskHost) (k : Prog)
    (s : Shared) :
  exec (poll_task w id tempDir h k) s
  = if ContainsTask id s then exec (run w tempDir h k) (removeTask id s).2 else exec k s.
Proof.
  unfold poll_task. cbn [exec]. destruct (ContainsTask id s); reflexivity.
Qed.

(** X19. A worker that takes from the queue a task whose id is not on
    the ledger does not run it.  So when the owner of a task has cancelled
    it before the worker looks at the ledger, and the ids of the ledger
    are distinct, the worker leaves the job as the cancellation left it:
    the job and all its results are cancelled, and the listener has been
    given this one job. *)
Theorem cancelled_before_poll_is_not_run (w : worker) (id : Z) (tempDir : gostring)
    (h : TaskHost) (k : Prog) (s : Shared) :
  len (Job_Results (job s)) < 2 ^ 63 ->
  NoDup (taskIds s) ->
  (ContainsTask id s = false -> exec (poll_task w id tempDir h k) s = exec k s)
  /\ (ContainsTask id s = true ->
      exists s',
        exec (CancelTask id (poll_task w id tempDir h k)) s = exec k s'
        /\ ContainsTask id s' = false
        /\ Job_Status (job s') = ST_CANCELLED
        /\ Job_Results (job s')
           = map (fun r => set_Result_Status r ST_CANCELLED) (Job_Results (job s))
        /\ delivered s' = (if subscribed s then delivered s ++ [job s'] else delivered s)).
Proof.
  intros Hlen Hnd. split.
  - intros Hno. rewrite exec_poll_task, Hno. reflexivity.
  - intros Hyes.
    destruct (removeTask_cases id s) as [ [ Hno _ ] | (_ & before & after & Hids & _ & Heq) ];
      [ congruence | ].
    destruct (mark_all_spec ST_CANCELLED (set_Job_Status (job s) ST_CANCELLED))
      as (j' & Hmark & Hst & Hres & _); [ exact Hlen | ].
    set (s1 := set_taskIds s (before ++ after)).
    assert (Hgone : ContainsTask id (after_update s1 j') = false).
    { rewrite Hids in Hnd. exact (slices_Contains_removed _ _ _ Hnd). }
    exists (after_update s1 j').
    split.
    { rewrite exec_CancelTask, Heq. cbn [fst snd]. fold s1. unfold cancel.
      rewrite (exec_update_Ok _ _ s1 j') by exact Hmark.
      rewrite exec_poll_task, Hgone. reflexivity. }
    split; [ exact Hgone | ].
    split; [ exact Hst | ].
    split; [ exact Hres | reflexivity ].
Qed.

Lemma cancelled_before_poll_is_not_run_witness :
  exists s',
    exec (CancelTask 0 (poll_task gcc_worker 0 (lit "/tmp/isfj/job_A") both_right Ret))
      two_sums_watched = (Ret, s')
    /\ Job_Status (job s') = ST_CANCELLED
    /\ delivered s' = [job s'].
Proof.
  destruct (cancelled_before_poll_is_not_run gcc_worker 0 (lit "/tmp/isfj/job_A") both_right
              Ret two_sums_watched) as [ _ H ].
  - vm_compute. reflexivity.
  - change (taskIds two_sums_watched) with [0]. repeat constructor. apply not_elem_of_nil.
  - destruct (H eq_refl) as (s' & Hrun & _ & Hst & _ & Hdel).
    exists s'. split; [ exact Hrun | ]. split; [ exact Hst | exact Hdel ].
Defined.

(* ===================================================================== *)
(** * Properties: what [runOne] records *)
(* ===================================================================== *)

Lemma set_result_at (j : Job) (i : Z) (f : CaseResult -> CaseResult) (r : CaseResult) :
  index (Job_Results j) i = Some r ->
  exists j',
    set_result j i f = Ok j'
    /\ index (Job_Results j') i = Some (f r)
    /\ Job_Cases j' = Job_Cases j /\ Job_Mode j' = Job_Mode j
    /\ Job_Needle j' = Job_Needle j.
Proof.
  intros Hr. rewrite (set_result_Ok _ _ _ _ Hr). eexists. split; [ reflexivity | ].
  split; [ cbn; eapply index_insert; exact Hr | repeat split ].
Qed.

Lemma record_run_at (i : Z) (output : RunnerOutput) (j : Job) (r : CaseResult) :
  index (Job_Results j) (int64 (i + 1)) = Some r ->
  exists j',
    record_run i output j = Ok j'
    /\ index (Job_Results j') (int64 (i + 1))
       = Some (mkCaseResult
                 (if Output_Status output =? ST_ACCEPTED then Result_Status r
                  else Output_Status output)
                 (Output_Usages output) (Result_Points r)
                 (run_extra output (Result_Extra r)))
    /\ Job_Cases j' = Job_Cases j /\ Job_Mode j' = Job_Mode j.
Proof.
  intros Hr. unfold record_run, run_extra.
  set (slot := int64 (i + 1)) in *.
  assert (H1 : exists j1 r1,
             (if negb (Output_Status output =? ST_ACCEPTED)
              then set_result j slot (fun r => set_Result_Status r (Output_Status output))
              else Ok j) = Ok j1
             /\ index (Job_Results j1) slot = Some r1
             /\ r1 = mkCaseResult
                       (if Output_Status output =? ST_ACCEPTED then Result_Status r
                        else Output_Status output)
                       (Result_Usages r) (Result_Points r) (Result_Extra r)
             /\ Job_Cases j1 = Job_Cases j /\ Job_Mode j1 = Job_Mode j).
  { destruct (Output_Status output =? ST_ACCEPTED); cbn [negb].
    - exists j, r. split; [ reflexivity | ]. split; [ exact Hr | ].
      split; [ destruct r; reflexivity | split; reflexivity ].
    - destruct (set_result_at j slot (fun r => set_Result_Status r (Output_Status output)) r Hr)
        as (j1 & Hj1 & Hr1 & Hc1 & Hm1 & _).
      exists j1, (set_Result_Status r (Output_Status output)).
      split; [ exact Hj1 | ]. split; [ exact Hr1 | ]. split; [ reflexivity | ].
      split; assumption. }
  destruct H1 as (j1 & r1 & -> & Hr1 & Hr1eq & Hc1 & Hm1). cbn [mbind result_bind].
  destruct (set_result_at j1 slot (fun r => set_Result_Usages r (Output_Usages output)) r1 Hr1)
    as (j2 & -> & Hr2 & Hc2 & Hm2 & _).
  cbn [mbind result_bind]. subst r1. cbn [set_Result_Usages Result_Status Result_Points
                                          Result_Extra] in Hr2.
  destruct (Output_Status output =? ST_RUNTIME_ERROR).
  { destruct (set_result_at j2 slot
                (fun r => set_Result_Extra r
                            (lit "Process terminated by signal "
                             ++ itoa (Output_ExitInfo output))) _ Hr2)
      as (j3 & -> & Hr3 & Hc3 & Hm3 & _).
    exists j3. split; [ reflexivity | ]. split; [ exact Hr3 | split; congruence ]. }
  destruct (Output_Status output =? ST_HOSTILE_CODE).
  { destruct (set_result_at j2 slot
                (fun r => set_Result_Extra r
                            (lit "Process killed due to malicious syscall "
                             ++ itoa (Output_ExitInfo output))) _ Hr2)
      as (j3 & -> & Hr3 & Hc3 & Hm3 & _).
    exists j3. split; [ reflexivity | ]. split; [ exact Hr3 | split; congruence ]. }
  exists j2. split; [ reflexivity | ]. split; [ exact Hr2 | split; congruence ].
Qed.

(** The first two updates of [runOne]. *)
Lemma exec_runOne_run (w : worker) (tempDir executable : gostring) (i : Z) (env : RunEnv)
    (k : Prog) (s : Shared) (c : Case) (r : CaseResult) (output : RunnerOutput) :
  index (Job_Cases (job s)) i = Some c ->
  index (Job_Results (job s)) (int64 (i + 1)) = Some r ->
  Run (mkRunnerInput executable (Case_Args c) (Job_Needle (job s)) (Case_Stdin c)
         (Case_Limits c)) env = Returned output ->
  exists s2,
    exec (runOne w tempDir executable i env k) s
    = exec (if Output_Status output =? ST_ACCEPTED then
              Atomic (fun s =>
                (s,
                 match judge_case w tempDir (job s) i output with
                 | Panics why => Crash why
                 | Ok status => update (record_verdict i output status) k
                 end))
            else k) s2
    /\ index (Job_Results (job s2)) (int64 (i + 1))
       = Some (mkCaseResult
                 (if Output_Status output =? ST_ACCEPTED then ST_RUNNING
                  else Output_Status output)
                 (Output_Usages output) (Result_Points r)
                 (run_extra output (Result_Extra r)))
    /\ Job_Cases (job s2) = Job_Cases (job s) /\ Job_Mode (job s2) = Job_Mode (job s)
    /\ length (delivered s2) = (length (delivered s) + if subscribed s then 2 else 0)%nat
    /\ subscribed s2 = subscribed s.
Proof.
  intros Hc Hr Hrun.
  destruct (set_result_at (job s) (int64 (i + 1)) (fun r => set_Result_Status r ST_RUNNING)
              r Hr) as (j1 & Hj1 & Hr1 & Hc1 & Hm1 & _).
  set (s1 := after_update s j1).
  destruct (record_run_at i output (job s1) _ Hr1) as (j2 & Hj2 & Hr2 & Hc2 & Hm2).
  exists (after_update s1 j2).
  split.
  { unfold runOne. cbn [exec]. unfold case_at. rewrite Hc. cbn [or_panic]. rewrite Hrun.
    rewrite (exec_update_Ok _ _ _ _ Hj1). fold s1.
    rewrite (exec_update_Ok _ _ _ _ Hj2). reflexivity. }
  split; [ exact Hr2 | ].
  split; [ cbn in *; congruence | ]. split; [ cbn in *; congruence | ].
  split; [ | reflexivity ].
  cbn. destruct (subscribed s); [ rewrite !length_app; cbn; lia | lia ].
Qed.

(** X20. When [Run] reports another status than accepted, [runOne] does
    not judge the output: whatever the judgers of the worker and the mode
    of the job, the result of the case gets the status and the usages that
    [Run] reports, keeps its points, and gets a text with the signal for a
    runtime error, with the syscall for hostile code, and keeps its text
    otherwise.  The listener, if there is one, is given two jobs. *)
Theorem runOne_records_failed_run (w : worker) (tempDir executable : gostring) (i : Z)
    (env : RunEnv) (k : Prog) (s : Shared) (c : Case) (r : CaseResult)
    (output : RunnerOutput) :
  index (Job_Cases (job s)) i = Some c ->
  index (Job_Results (job s)) (int64 (i + 1)) = Some r ->
  Run (mkRunnerInput executable (Case_Args c) (Job_Needle (job s)) (Case_Stdin c)
         (Case_Limits c)) env = Returned output ->
  Output_Status output <> ST_ACCEPTED ->
  exists s',
    exec (runOne w tempDir executable i env k) s = exec k s'
    /\ index (Job_Results (job s')) (int64 (i + 1))
       = Some (mkCaseResult (Output_Status output) (Output_Usages output) (Result_Points r)
                 (run_extra output (Result_Extra r)))
    /\ length (delivered s') = (length (delivered s) + if subscribed s then 2 else 0)%nat.
Proof.
  intros Hc Hr Hrun Hst.
  destruct (exec_runOne_run w tempDir executable i env k s c r output Hc Hr Hrun)
    as (s2 & Hexec & Hr2 & _ & _ & Hdel & _).
  destruct (Z.eqb_spec (Output_Status output) ST_ACCEPTED) as [ | _ ]; [ contradiction | ].
  exists s2. split; [ exact Hexec | ]. split; assumption.
Qed.

Lemma runOne_records_failed_run_witness :
  exists s',
    exec (runOne gcc_worker (lit "/tmp/isfj/job_A") (lit "/tmp/isfj/job_A/exe_B") 0
            child_killed Ret) two_sums_scheduled = (Ret, s')
    /\ index (Job_Results (job s')) (int64 (0 + 1))
       = Some (mkCaseResult ST_RUNTIME_ERROR (mkUsages 0 0) 0
                 (lit "Process terminated by signal 11"))
    /\ length (delivered s') = length (delivered two_sums_scheduled).
Proof.
  destruct (runOne_records_failed_run gcc_worker (lit "/tmp/isfj/job_A")
              (lit "/tmp/isfj/job_A/exe_B") 0 child_killed Ret two_sums_scheduled sum_case
              zeroResult (mkRunnerOutput ST_RUNTIME_ERROR [] (mkUsages 0 0) 0 11))
    as (s' & Hrun & Hr & Hdel).
  - reflexivity.
  - reflexivity.
  - reflexivity.
  - discriminate.
  - exists s'. split; [ exact Hrun | ]. split; [ exact Hr | ].
    rewrite Hdel. cbn. lia.
Defined.

Lemma judge_case_unknown_mode (w : worker) (tempDir : gostring) (j : Job) (i : Z)
    (output : RunnerOutput) :
  unknown_mode (Job_Mode j) -> judge_case w tempDir j i output = Ok ST_WAITING.
Proof.
  intros (H0 & H1 & H2). unfold judge_case.
  destruct (Z.eqb_spec (ModeBits (Job_Mode j)) J_LAX); [ contradiction | ].
  destruct (Z.eqb_spec (ModeBits (Job_Mode j)) J_STRICT); [ contradiction | ].
  destruct (Z.eqb_spec (ModeBits (Job_Mode j)) J_SPECIAL); [ contradiction | ].
  reflexivity.
Qed.

(** X21. The mode of a job is not checked.  When its low byte is none of
    the three modes, [runOne] compares nothing: a case whose run is
    accepted gets the zero value of a status, which is waiting, with the
    usages of the run, and keeps its points.  The last update of [run] then
    takes this status for the job when the results before it are accepted:
    the job is left waiting and never counts as finished. *)
Theorem unknown_mode_leaves_waiting :
  (forall w tempDir executable i env k s c r output,
      unknown_mode (Job_Mode (job s)) ->
      index (Job_Cases (job s)) i = Some c ->
      index (Job_Results (job s)) (int64 (i + 1)) = Some r ->
      Run (mkRunnerInput executable (Case_Args c) (Job_Needle (job s)) (Case_Stdin c)
             (Case_Limits c)) env = Returned output ->
      Output_Status output = ST_ACCEPTED ->
      exists s',
        exec (runOne w tempDir executable i env k) s = exec k s'
        /\ index (Job_Results (job s')) (int64 (i + 1))
           = Some (mkCaseResult ST_WAITING (Output_Usages output) (Result_Points r)
                     (Result_Extra r)))
  /\ (forall j j' (i : nat) r,
        aggregate j = Ok j' ->
        tail (Job_Results j) !! i = Some r ->
        Result_Status r = ST_WAITING ->
        (forall (m : nat) r', (m < i)%nat -> tail (Job_Results j) !! m = Some r' ->
                              Result_Status r' = ST_ACCEPTED) ->
        Job_Status j' = ST_WAITING /\ Finished j' = false).
Proof.
  split.
  - intros w tempDir executable i env k s c r output Hmode Hc Hr Hrun Hacc.
    destruct (exec_runOne_run w tempDir executable i env k s c r output Hc Hr Hrun)
      as (s2 & Hexec & Hr2 & Hc2 & Hm2 & _).
    rewrite Hacc in Hexec, Hr2. cbn [Z.eqb ST_ACCEPTED Pos.eqb] in Hexec, Hr2.
    assert (Hjudge : judge_case w tempDir (job s2) i output = Ok ST_WAITING).
    { apply judge_case_unknown_mode. rewrite Hm2. exact Hmode. }
    destruct (set_result_at (job s2) (int64 (i + 1))
                (fun r => set_Result_Status r ST_WAITING) _ Hr2)
      as (j3 & Hj3 & Hr3 & _).
    exists (after_update s2 j3). split.
    + rewrite Hexec. cbn [exec]. rewrite Hjudge.
      apply exec_update_Ok. unfold record_verdict. rewrite Hj3. reflexivity.
    + cbn. rewrite Hr3. unfold run_extra. rewrite Hacc. reflexivity.
  - intros j j' i r Hagg Hi Hr Hlow.
    apply aggregate_status in Hagg as (_ & _ & Hfirst).
    assert (Hst : Job_Status j' = ST_WAITING).
    { rewrite <- Hr. apply (Hfirst i r Hi); [ rewrite Hr; discriminate | exact Hlow ]. }
    split; [ exact Hst | ]. unfold Finished. rewrite Hst. reflexivity.
Qed.

Lemma unknown_mode_leaves_waiting_witness :
  exists s',
    exec (runOne gcc_worker (lit "/tmp/isfj/job_A") (lit "/tmp/isfj/job_A/exe_B") 0
            (child_prints (lit "3")) Ret) two_sums_mode_3 = (Ret, s')
    /\ index (Job_Results (job s')) (int64 (0 + 1))
       = Some (mkCaseResult ST_WAITING (mkUsages 0 0) 0 []).
Proof.
  apply (proj1 unknown_mode_leaves_waiting gcc_worker (lit "/tmp/isfj/job_A")
           (lit "/tmp/isfj/job_A/exe_B") 0 (child_prints (lit "3")) Ret two_sums_mode_3
           sum_case zeroResult (mkRunnerOutput ST_ACCEPTED (lit "3") (mkUsages 0 0) 0 0)).
  - repeat split; discriminate.
  - reflexivity.
  - reflexivity.
  - reflexivity.
  - reflexivity.
Defined.

(* ===================================================================== *)
(** * Properties: the names of temporary files *)
(* ===================================================================== *)

Lemma candidates_at (k : Z) :
  0 <= k < 36 ->
  exists c, index candidates k = Some c /\ (48 <= c <= 57 \/ 65 <= c <= 90).
Proof.
  intros Hk. rewrite <- (Z2Nat.id k) by lia. rewrite index_of_nat.
  assert (Hn : (Z.to_nat k < 36)%nat) by lia. revert Hn. generalize (Z.to_nat k).
  intros n Hn.
  do 36 (destruct n as [ | n ]; [ eexists; split; [ vm_compute; reflexivity | lia ] | ]).
  lia.
Qed.

Lemma randName_loop_spec (n : nat) : forall (i : nat) (draws : nat -> Z) (s : gostring),
  exists suffix,
    randName_loop n i draws s = Some (s ++ suffix)
    /\ length suffix = n
    /\ Forall (fun c => 48 <= c <= 57 \/ 65 <= c <= 90) suffix
    /\ forall m c, suffix !! m = Some c ->
                   index candidates (draws (i + m)%nat mod 36) = Some c.
Proof.
  induction n as [ | n IH ]; intros i draws s; cbn [randName_loop].
  - exists []. split; [ rewrite app_nil_r; reflexivity | ].
    split; [ reflexivity | ]. split; [ constructor | ]. intros m c Hm. discriminate.
  - change (len candidates) with 36. unfold Intn.
    destruct (candidates_at (draws i mod 36)) as (c & Hc & Hrange);
      [ apply Z.mod_pos_bound; lia | ].
    rewrite Hc. destruct (IH (S i) draws (s ++ [c])) as (suffix & Hloop & Hlen & Hall & Hat).
    exists (c :: suffix). split; [ rewrite Hloop, <- app_assoc; reflexivity | ].
    split; [ cbn; lia | ]. split; [ constructor; assumption | ].
    intros [ | m ] c' Hm; cbn in Hm.
    + injection Hm as <-. rewrite Nat.add_0_r. exact Hc.
    + replace (i + S m)%nat with (S i + m)%nat by lia. apply Hat. exact Hm.
Qed.

(** X22. [randName] never panics on the index of its alphabet.  The name
    it returns is the prefix and eight characters after it, each a digit
    or a capital letter, so none of them a path separator; the character
    at each place is the one that the number drawn for it selects, so two
    calls for which the generator draws the same numbers return the same
    name. *)
Theorem randName_shape (draws : nat -> Z) (prefix : gostring) :
  exists suffix,
    randName draws prefix = Some (prefix ++ suffix)
    /\ length suffix = 8%nat
    /\ Forall (fun c => (48 <= c <= 57 \/ 65 <= c <= 90) /\ c <> 47) suffix
    /\ (forall m c, suffix !! m = Some c ->
                    index candidates (draws m mod 36) = Some c)
    /\ (forall draws', (forall m, (m < 8)%nat -> draws' m mod 36 = draws m mod 36) ->
                       randName draws' prefix = randName draws prefix).
Proof.
  destruct (randName_loop_spec 8 0 draws []) as (suffix & Hloop & Hlen & Hall & Hat).
  exists suffix. unfold randName at 1. rewrite Hloop.
  split; [ reflexivity | ]. split; [ exact Hlen | ].
  split; [ eapply Forall_impl; [ exact Hall | ]; cbn; intros c Hc; split; [ exact Hc | lia ] | ].
  split; [ exact Hat | ].
  intros draws' Hsame.
  destruct (randName_loop_spec 8 0 draws' []) as (suffix' & Hloop' & Hlen' & _ & Hat').
  unfold randName. rewrite Hloop, Hloop'. cbn [app]. do 2 f_equal.
  apply list_eq. intros m. destruct (suffix !! m) as [ c | ] eqn:Hm.
  - pose proof (lookup_lt_Some _ _ _ Hm) as Hlt. rewrite Hlen in Hlt.
    destruct (lookup_lt_is_Some_2 suffix' m) as [ c' Hm' ]; [ lia | ].
    rewrite Hm'. specialize (Hat m c Hm). specialize (Hat' m c' Hm').
    cbn [Nat.add] in Hat, Hat'. rewrite (Hsame m Hlt) in Hat'. congruence.
  - apply lookup_ge_None in Hm. apply lookup_ge_None. lia.
Qed.

(* ===================================================================== *)
(** * Properties: the usages that [Run] reports *)
(* ===================================================================== *)







